(** * Agent platform front-end: stream client, chat page and schema helpers

  A shallow embedding of the TypeScript sources of the chat client
  ([api/routes/chats.ts], [api/routes/utils.ts], [pages/ChatPage.tsx]),
  of the tool card ([extractPathParams], [buildPathParamsSchema]), of
  the JSON-schema editor ([enforceConstraintsOnNode], [cloneNode],
  [coerceRootToType], the handlers of its object editor) and of the
  key-value editor ([toRecord]), together with a model of the turn
  engine's recursion guard and streaming emitter.

  Conventions of the embedding:
  - a JavaScript string is a [string] (a sequence of code units below
    256; [\w], the quotes and the braces the code looks for are ASCII);
  - [null] and [undefined] of an optional field are both [None];
  - a plain object is the list of its own enumerable properties in
    enumeration order (what [Object.entries] returns): the array indices
    in ascending order, then the other names in the order they were
    created in. An assignment [o[k] = v] follows that order, and makes no
    own property when [k] is [__proto__], the accessor of the prototype
    (the fallback parser of the stream can set the prototype to [null],
    and then assigns [__proto__] like any name).
    Where the code reads an object it has just built under a name it
    computes, the members of [Object.prototype] are found as well as the
    own properties, and so is what an assigned prototype holds when a row
    of the object editor is named [__proto__]. The properties of a schema
    node are those of an object built by assignments, as
    [sanitizeIncomingSchema], [cloneNode] and the editors build them, and
    have no own [__proto__];
  - integers the code only compares or copies (ids, counters, depths)
    are [Z]. *)

From stdpp Require Import base list strings pretty gmap.
From Stdlib Require Import ZArith Lia Ascii.

Set Warnings "-register-all".

(** ** JavaScript idioms shared by the modules *)

Module JS.

(** [s] as a condition: the empty string is the only falsy string. *)
Definition truthy (s : string) : bool := negb (String.eqb s "").

(** [o || d] where [o] is a possibly missing string. *)
Definition or_else (o : option string) (d : string) : string :=
  match o with
  | Some s => if truthy s then s else d
  | None => d
  end.

(** [o || undefined]. *)
Definition or_undefined (o : option string) : option string :=
  match o with
  | Some s => if truthy s then Some s else None
  | None => None
  end.

(** [arr[arr.length - 1]]. *)
Definition last_elem {A} (l : list A) : option A := l !! (length l - 1)%nat.

End JS.

(** ** [api/types/chats.ts] *)

Module StreamMessageResponse.
Record t := mk {
  status : string;
  error : option string;
  response : string;
  tool_name : option string;
  tool_args : option string;
  tool_result : option string;
  info : option string
}.
End StreamMessageResponse.

Module StreamStep.
Inductive kind := text | tool.

Record t := mk {
  type : kind;
  content : option string;
  toolName : option string;
  toolArgs : option string;
  toolResult : option string;
  isLoading : option bool
}.

Definition is_text (s : t) : bool :=
  match type s with text => true | tool => false end.

(** [s.type === "tool" && s.isLoading] *)
Definition running (s : t) : bool :=
  match type s, isLoading s with
  | tool, Some true => true
  | _, _ => false
  end.
End StreamStep.

Module Message.
(** [json_message_history] is copied by the spread and never read; it is
    left out. *)
Record t := mk {
  id : Z;
  sent_at : string;
  message : string;
  response : option string;
  input_tokens : Z;
  reasoning_tokens : Z;
  output_tokens : Z;
  chat_id : string;
  steps : option (list StreamStep.t)
}.

Definition with_steps (m : t) (s : list StreamStep.t) : t :=
  mk (id m) (sent_at m) (message m) (response m) (input_tokens m)
     (reasoning_tokens m) (output_tokens m) (chat_id m) (Some s).

Definition with_response (m : t) (r : string) : t :=
  mk (id m) (sent_at m) (message m) (Some r) (input_tokens m)
     (reasoning_tokens m) (output_tokens m) (chat_id m) (steps m).

(** [msg.steps || []] *)
Definition steps_or_empty (m : t) : list StreamStep.t :=
  match steps m with Some s => s | None => [] end.

(** [msg.response || ""] *)
Definition response_text (m : t) : string := JS.or_else (response m) "".
End Message.

(** ** [pages/ChatPage.tsx]: the [onMessage] callback of [handleSendMessage] *)

Module ChatPage.
Module Ev := StreamMessageResponse.
Module Step := StreamStep.
Module Msg := Message.

(** The [optimisticMessage] appended before the stream starts. *)
Definition optimisticMessage (tempId : Z) (now question chatId : string) : Msg.t :=
  Msg.mk tempId now question (Some "") 0 0 0 chatId (Some []).

(** [case "response"], the part on [steps]. *)
Definition appendText (steps : list Step.t) (fragment : string) : list Step.t :=
  match JS.last_elem steps with
  | Some lastStep =>
      if Step.is_text lastStep then
        <[(length steps - 1)%nat :=
            Step.mk (Step.type lastStep)
                 (Some (JS.or_else (Step.content lastStep) "" +:+ fragment))
                 (Step.toolName lastStep) (Step.toolArgs lastStep)
                 (Step.toolResult lastStep) (Step.isLoading lastStep)]> steps
      else steps ++ [Step.mk Step.text (Some fragment) None None None None]
  | None => steps ++ [Step.mk Step.text (Some fragment) None None None None]
  end.

(** [case "tool_call"]: the step pushed for the call. *)
Definition callStep (data : Ev.t) : Step.t :=
  Step.mk Step.tool None
          (Some (JS.or_else (Ev.tool_name data) "Unknown Tool"))
          (JS.or_undefined (Ev.tool_args data))
          None (Some true).

Definition pushToolCall (steps : list Step.t) (data : Ev.t) : list Step.t :=
  steps ++ [callStep data].

Definition finishStep (s : Step.t) (data : Ev.t) : Step.t :=
  Step.mk (Step.type s) (Step.content s) (Step.toolName s) (Step.toolArgs s)
       (Some (JS.or_else (Ev.tool_result data) "")) (Some false).

(** [case "tool_result"]: [for (let i = steps.length - 1; i >= 0; i--)];
    the argument [n] is [i + 1]. *)
Fixpoint attachResultFrom (n : nat) (steps : list Step.t) (data : Ev.t) : list Step.t :=
  match n with
  | O => steps
  | S i =>
      match steps !! i with
      | Some s =>
          if Step.running s then <[i := finishStep s data]> steps
          else attachResultFrom i steps data
      | None => attachResultFrom i steps data
      end
  end.

Definition attachResult (steps : list Step.t) (data : Ev.t) : list Step.t :=
  attachResultFrom (length steps) steps data.

(** The body of [prev.map] for the message whose id is [tempId]. *)
Definition updateMessage (data : Ev.t) (msg : Msg.t) : Msg.t :=
  let newMsg := Msg.with_steps msg (Msg.steps_or_empty msg) in
  if String.eqb (Ev.status data) "response" then
    if JS.truthy (Ev.response data) then
      Msg.with_response
        (Msg.with_steps newMsg (appendText (Msg.steps_or_empty newMsg) (Ev.response data)))
        (Msg.response_text newMsg +:+ Ev.response data)
    else newMsg
  else if String.eqb (Ev.status data) "tool_call" then
    Msg.with_steps newMsg (pushToolCall (Msg.steps_or_empty newMsg) data)
  else if String.eqb (Ev.status data) "tool_result" then
    Msg.with_steps newMsg (attachResult (Msg.steps_or_empty newMsg) data)
  else newMsg.

(** [setChatMessages(prev => prev.map(...))] for one event. *)
Definition onMessage (tempId : Z) (data : Ev.t) (prev : list Msg.t) : list Msg.t :=
  map (fun msg => if Z.eqb (Msg.id msg) tempId then updateMessage data msg else msg) prev.

(** The callback applied to the events of a stream, in arrival order. *)
Definition onMessages (tempId : Z) (events : list Ev.t) (prev : list Msg.t) : list Msg.t :=
  fold_left (fun st data => onMessage tempId data st) events prev.

(** The updates the events of a stream make to one message. *)
Definition updateAll (events : list Ev.t) (msg : Msg.t) : Msg.t :=
  fold_left (fun m data => updateMessage data m) events msg.

(** The response fragments the events carry under status [response]. *)
Definition responseFragments (events : list Ev.t) : list string :=
  map Ev.response (filter (fun e => Ev.status e = "response") events).

Definition concatAll (l : list string) : string :=
  fold_right String.append "" l.

(** The effect of one event on the step list of the message it updates. *)
Definition stepsAfter (data : Ev.t) (steps : list Step.t) : list Step.t :=
  if String.eqb (Ev.status data) "response" then
    if JS.truthy (Ev.response data) then appendText steps (Ev.response data)
    else steps
  else if String.eqb (Ev.status data) "tool_call" then pushToolCall steps data
  else if String.eqb (Ev.status data) "tool_result" then attachResult steps data
  else steps.

(** Two messages with the same fields; a missing [steps] counts as an
    empty list of steps. *)
Definition sameContent (m m' : Msg.t) : Prop :=
  Msg.id m' = Msg.id m /\ Msg.sent_at m' = Msg.sent_at m /\
  Msg.message m' = Msg.message m /\ Msg.response m' = Msg.response m /\
  Msg.input_tokens m' = Msg.input_tokens m /\
  Msg.reasoning_tokens m' = Msg.reasoning_tokens m /\
  Msg.output_tokens m' = Msg.output_tokens m /\
  Msg.chat_id m' = Msg.chat_id m /\
  Msg.steps_or_empty m' = Msg.steps_or_empty m.


(** Sample events. *)
Definition keepaliveEvent : Ev.t :=
  Ev.mk "keepalive" None "" None None None None.


Definition toolResult (result : string) : Ev.t :=
  Ev.mk "tool_result" None "" None None (Some result) None.

(** Steps shown for the message of the question once [events] have been
    processed, starting from the optimistic message. *)
Definition shownSteps (tempId : Z) (events : list Ev.t) (prev : list Msg.t) : option (list Step.t) :=
  Msg.steps_or_empty <$>
    last (onMessages tempId events (prev ++ [optimisticMessage tempId "" "" ""])).

End ChatPage.

(** ** Strings: the [String.prototype] methods the sources call *)

Module Str.

Definition newline : ascii := Ascii.ascii_of_nat 10.
Definition dquote : ascii := Ascii.ascii_of_nat 34.
Definition squote : ascii := Ascii.ascii_of_nat 39.

Definition between (lo hi : nat) (c : ascii) : bool :=
  Nat.leb lo (Ascii.nat_of_ascii c) && Nat.leb (Ascii.nat_of_ascii c) hi.

(** [\w]: [[A-Za-z0-9_]]. *)
Definition isWord (c : ascii) : bool :=
  between 48 57 c || between 65 90 c || between 97 122 c || Ascii.eqb c "_"%char.

(** White space and line terminators, as [trim] strips them. *)
Definition isSpace (c : ascii) : bool :=
  between 9 13 c || Ascii.eqb c " "%char || Nat.eqb (Ascii.nat_of_ascii c) 160.

(** The longest prefix of characters satisfying [p], and what follows it:
    a greedy [[...]*]. *)
Fixpoint span (p : ascii -> bool) (s : string) : string * string :=
  match s with
  | String c t =>
      if p c then let '(a, b) := span p t in (String c a, b) else ("", s)
  | EmptyString => ("", "")
  end.

(** Every character of [s] satisfies [p]. *)
Fixpoint allChars (p : ascii -> bool) (s : string) : bool :=
  match s with
  | String c t => p c && allChars p t
  | EmptyString => true
  end.

(** A character other than [sep]. *)
Definition plain (sep : ascii) (c : ascii) : bool := negb (Ascii.eqb c sep).

(** [s.startsWith(p)]. *)
Fixpoint startsWith (s p : string) : bool :=
  match p, s with
  | EmptyString, _ => true
  | String a p', String b s' => Ascii.eqb a b && startsWith s' p'
  | String _ _, EmptyString => false
  end.

(** [s.slice(n)] for [0 <= n]. *)
Fixpoint slice (n : nat) (s : string) : string :=
  match n, s with
  | S k, String _ t => slice k t
  | _, _ => s
  end.

Definition trimStart (s : string) : string := snd (span isSpace s).

Fixpoint trimEnd (s : string) : string :=
  match s with
  | String c t =>
      match trimEnd t with
      | EmptyString => if isSpace c then "" else String c ""
      | t' => String c t'
      end
  | EmptyString => ""
  end.

Definition trim (s : string) : string := trimEnd (trimStart s).

(** [s.split(sep)] for a separator of one character. *)
Fixpoint splitOn (sep : ascii) (s : string) : list string :=
  match s with
  | EmptyString => [""]
  | String c t =>
      if Ascii.eqb c sep then "" :: splitOn sep t
      else match splitOn sep t with
           | p :: ps => String c p :: ps
           | [] => [String c ""]
           end
  end.

(** [s.split("\n")] followed by [pop()]: the complete lines and the text
    after the last line feed. *)
Fixpoint splitLines (s : string) : list string * string :=
  match s with
  | String c t =>
      let '(ls, last) := splitLines t in
      if Ascii.eqb c newline then ("" :: ls, last)
      else match ls with
           | l :: ls' => (String c l :: ls', last)
           | [] => ([], String c last)
           end
  | EmptyString => ([], "")
  end.

(** The [while ((match = regex.exec(s)) !== null)] loop of a global
    regular expression that cannot match the empty string: the leftmost
    match at or after [lastIndex], then on from its end. [matchAt] matches
    the pattern at the start of its argument and returns what it captured
    and the text after the match; [skip] counts the characters left
    before [lastIndex]. *)
Fixpoint execAll {A} (matchAt : string -> option (A * string))
    (skip : nat) (s : string) : list A :=
  match s with
  | String _ t =>
      match skip with
      | S k => execAll matchAt k t
      | O =>
          match matchAt s with
          | Some (m, rest) =>
              m :: execAll matchAt (String.length t - String.length rest) t
          | None => execAll matchAt 0 t
          end
      end
  | EmptyString => []
  end.

End Str.

(** ** Plain objects: own properties in enumeration order *)

Module Object.

(** The value of a decimal numeral, digit after digit. *)
Fixpoint decimal (acc : N) (s : string) : option N :=
  match s with
  | String c t =>
      if Str.between 48 57 c
      then decimal (10 * acc + N.of_nat (Ascii.nat_of_ascii c - 48)) t
      else None
  | EmptyString => Some acc
  end.

(** [k] as an array index: the numeral, without a leading zero, of an
    integer below 2^32 - 1. *)
Definition arrayIndex (k : string) : option N :=
  match k with
  | EmptyString => None
  | String c rest =>
      if Ascii.eqb c "0" && negb (String.eqb rest "") then None
      else match decimal 0 k with
           | Some n => if N.ltb n 4294967295 then Some n else None
           | None => None
           end
  end.

(** The property names of [Object.prototype], which every plain object
    inherits: its methods and the accessor [__proto__]. *)
Definition prototypeMembers : list string :=
  ["constructor"; "__defineGetter__"; "__defineSetter__"; "hasOwnProperty";
   "__lookupGetter__"; "__lookupSetter__"; "isPrototypeOf";
   "propertyIsEnumerable"; "toString"; "valueOf"; "__proto__";
   "toLocaleString"].

(** [k] names a member of [Object.prototype]. *)
Definition inherited (k : string) : bool :=
  existsb (String.eqb k) prototypeMembers.

(** [k] may stand before [k'] among the own property names: the names
    differ, an array index comes before every other name, and a smaller
    index before a larger one. *)
Definition precedes (k k' : string) : bool :=
  negb (String.eqb k k') &&
  match arrayIndex k, arrayIndex k' with
  | Some n, Some n' => N.leb n n'
  | None, Some _ => false
  | _, None => true
  end.

(** [ks] lists distinct names as an object lists its own: the array
    indices in ascending order, then the other names. *)
Fixpoint enumerated (ks : list string) : bool :=
  match ks with
  | k :: rest => forallb (precedes k) rest && enumerated rest
  | [] => true
  end.

(** [ks] are the own property names of an object built by assignments to
    an empty object literal: enumerated, and none of them [__proto__]. *)
Definition assignable (ks : list string) : bool :=
  enumerated ks && forallb (fun k => negb (String.eqb k "__proto__")) ks.

Section Props.
Context {A : Type}.

(** [o[k]] on own properties. *)
Fixpoint get (o : list (string * A)) (k : string) : option A :=
  match o with
  | (k', v) :: rest => if String.eqb k' k then Some v else get rest k
  | [] => None
  end.

(** [k] is an own property of [o]. *)
Definition own (o : list (string * A)) (k : string) : bool :=
  match get o k with Some _ => true | None => false end.

(** The own property [k] written, [k] no array index: an existing
    property keeps its place, a new one goes last. *)
Fixpoint setNamed (o : list (string * A)) (k : string) (v : A) : list (string * A) :=
  match o with
  | (k', v') :: rest =>
      if String.eqb k' k then (k, v) :: rest else (k', v') :: setNamed rest k v
  | [] => [(k, v)]
  end.

(** The own property [k] written, [k] the array index [n]: an existing
    property keeps its place, a new one goes after the smaller indices. *)
Fixpoint setIndex (n : N) (o : list (string * A)) (k : string) (v : A)
  : list (string * A) :=
  match o with
  | (k', v') :: rest =>
      if String.eqb k' k then (k, v) :: rest
      else match arrayIndex k' with
           | Some n' =>
               if N.ltb n' n then (k', v') :: setIndex n rest k v
               else (k, v) :: o
           | None => (k, v) :: o
           end
  | [] => [(k, v)]
  end.

(** The own property [k] of [o] defined as [v], as a computed key
    [{[k]: v}] of an object literal defines it. *)
Definition define (o : list (string * A)) (k : string) (v : A) : list (string * A) :=
  match arrayIndex k with
  | Some n => setIndex n o k v
  | None => setNamed o k v
  end.

(** [o[k] = v], the own properties after it. The prototype of [o] is
    [Object.prototype], which holds data properties and the accessor
    [__proto__]: [o.__proto__ = v] changes the prototype (or nothing,
    when [v] is a primitive) and makes no own property, unless [o] has an
    own property of that name; every other name becomes or stays an own
    property. *)
Definition set (o : list (string * A)) (k : string) (v : A) : list (string * A) :=
  if String.eqb k "__proto__" && negb (own o k) then o else define o k v.

(** [Object.keys(o)]. *)
Definition keys (o : list (string * A)) : list string := map fst o.

(** The object a loop [for (const [k, v] of Object.entries(l)) o[k] = g(v)]
    makes of [acc]. *)
Definition assigned {B} (g : B -> A) (l : list (string * B)) (acc : list (string * A))
  : list (string * A) :=
  fold_left (fun o '(k, v) => set o k (g v)) l acc.

(** The same keys, each value through [h]. *)
Definition mapValues {B} (h : A -> B) (o : list (string * A)) : list (string * B) :=
  map (fun kv => (kv.1, h kv.2)) o.

End Props.
End Object.

(** ** JavaScript values and the host functions the sources rely on *)

Module Value.
Section Values.
Context {num : Type}.

Inductive t : Type :=
| Undefined
| Null
| Bool (b : bool)
| Num (n : num)
| Str (s : string)
| Arr (items : list t)
| Obj (props : list (string * t)).

End Values.
Arguments t : clear implicits.
End Value.

(** The JavaScript engine: numbers and their conversions, and [JSON.parse].
    [Number s] is [None] when the result is [NaN]; [JSON_parse s] is [None]
    when [JSON.parse] throws. *)
Class Host := {
  num : Type;
  num_truthy : num -> bool;
  num_of_nat : nat -> num;
  num_to_string : num -> string;
  Number : string -> option num;
  JSON_parse : string -> option (Value.t num)
}.

(** A host whose numbers are the integers, to evaluate the models on
    inputs that involve neither fractions nor JSON text: [Number] reads
    decimal digits and [JSON.parse] rejects every text. *)
Fixpoint digitsValue (acc : Z) (s : string) : option Z :=
  match s with
  | String c t =>
      if Str.between 48 57 c
      then digitsValue (10 * acc + Z.of_nat (Ascii.nat_of_ascii c - 48)) t
      else None
  | EmptyString => Some acc
  end.

Definition integerHost : Host := {|
  num := Z;
  num_truthy := fun n => negb (Z.eqb n 0);
  num_of_nat := Z.of_nat;
  num_to_string := pretty;
  Number := fun s => if String.eqb s "" then Some 0%Z else digitsValue 0 s;
  JSON_parse := fun _ => None
|}.

(** ** [api/routes/chats.ts]: [parsePythonObject] and [streamQuestion] *)

Module Chats.
Section WithHost.
Context {host : Host}.

Local Abbreviation value := (Value.t num).

(** The seven defaults [result] starts with. *)
Definition initialResult : list (string * value) :=
  [("status", Value.Str ""); ("response", Value.Str "");
   ("error", Value.Null); ("tool_name", Value.Null);
   ("tool_args", Value.Null); ("tool_result", Value.Null);
   ("info", Value.Null)].

(** What the second group of the regular expression matched: which
    alternative, and the text of [match[3]], [match[4]] or [match[2]]. *)
Inductive captured :=
| SingleQuoted (body : string)
| DoubleQuoted (body : string)
| Bare (fullValue : string).

(** A quoted string at the start of [s] (quote [q], any characters other
    than [q], greedily, then [q]): the body and the text after the closing
    quote. *)
Definition quoted (q : ascii) (s : string) : option (string * string) :=
  match s with
  | String c t =>
      if Ascii.eqb c q then
        match Str.span (fun x => negb (Ascii.eqb x q)) t with
        | (body, String _ rest) => Some (body, rest)
        | (_, EmptyString) => None
        end
      else None
  | EmptyString => None
  end.

(** A literal alternative ([None], [True], [False]). *)
Definition literal (lit s : string) : option string :=
  if Str.startsWith s lit then Some (Str.slice (String.length lit) s) else None.

(** [\w+] at the start of [s]. *)
Definition word (s : string) : option (string * string) :=
  match Str.span Str.isWord s with
  | (EmptyString, _) => None
  | (w, rest) => Some (w, rest)
  end.

(** The alternation of the second group: a single-quoted string, a
    double-quoted string, [None], [True], [False], or [\w+], tried in that
    order; nothing follows it in the pattern, so the first alternative that
    matches stands. *)
Definition matchValue (s : string) : option (captured * string) :=
  match quoted Str.squote s with
  | Some (body, rest) => Some (SingleQuoted body, rest)
  | None =>
  match quoted Str.dquote s with
  | Some (body, rest) => Some (DoubleQuoted body, rest)
  | None =>
  match literal "None" s with
  | Some rest => Some (Bare "None", rest)
  | None =>
  match literal "True" s with
  | Some rest => Some (Bare "True", rest)
  | None =>
  match literal "False" s with
  | Some rest => Some (Bare "False", rest)
  | None =>
  match word s with
  | Some (w, rest) => Some (Bare w, rest)
  | None => None
  end end end end end end.

(** The whole pattern, key [\w+], [=], value, at the start of [s]. The greedy [\w+]
    must stop right before [=]: a shorter key would need [=] where a word
    character stands. *)
Definition matchAt (s : string) : option ((string * captured) * string) :=
  match word s with
  | Some (key, String c afterEq) =>
      if Ascii.eqb c "="%char then
        match matchValue afterEq with
        | Some (v, rest) => Some ((key, v), rest)
        | None => None
        end
      else None
  | _ => None
  end.

(** The matches of the [while] loop, in order. *)
Definition allMatches (pythonStr : string) : list (string * captured) :=
  Str.execAll matchAt 0 pythonStr.

(** The [if]/[else] chain computing [value] from a match. *)
Definition valueOf (c : captured) : value :=
  match c with
  | SingleQuoted body => Value.Str body
  | DoubleQuoted body => Value.Str body
  | Bare fullValue =>
      if String.eqb fullValue "None" then Value.Null
      else if String.eqb fullValue "True" then Value.Bool true
      else if String.eqb fullValue "False" then Value.Bool false
      else match Number fullValue with
           | Some n => Value.Num n
           | None => Value.Str fullValue
           end
  end.

Definition isNull (v : value) : bool :=
  match v with Value.Null => true | _ => false end.

(** [result[key] = value] for one match. [reached] tells whether the
    prototype of [result] is still [Object.prototype]: an assignment to
    [__proto__] then reaches its accessor, which makes no own property; it
    sets the prototype to [null] when the value is [null], and leaves it
    for a string, a boolean or a number. Once the prototype is [null],
    [__proto__] is a name like any other. *)
Definition assignMatch (state : list (string * value) * bool)
    (m : string * captured) : list (string * value) * bool :=
  let '(result, reached) := state in
  let '(key, c) := m in
  if String.eqb key "__proto__" && reached && negb (Object.own result key)
  then (result, negb (isNull (valueOf c)))
  else (Object.define result key (valueOf c), reached).

Definition assignAll (matches : list (string * captured))
    (result : list (string * value)) : list (string * value) :=
  (fold_left assignMatch matches (result, true)).1.

Definition parsePythonObject (pythonStr : string) : list (string * value) :=
  assignAll (allMatches pythonStr) initialResult.

(** The payload of a [data:] line. *)
Definition dataStr (line : string) : string := Str.trim (Str.slice 5 line).

(** The [try] block: the value handed to [onMessage], if any. *)
Definition parseData (payload : string) : option value :=
  if Str.startsWith payload "{" then JSON_parse payload
  else Some (Value.Obj (parsePythonObject payload)).

(** One iteration of [for (const line of lines)]: the next [currentEvent]
    and the value passed to [onMessage], if any. *)
Definition processLine (currentEvent line : string) : string * option value :=
  if String.eqb line "" || Str.startsWith line ":" then (currentEvent, None)
  else if Str.startsWith line "event:" then (Str.trim (Str.slice 6 line), None)
  else if Str.startsWith line "data:" then
    if String.eqb (dataStr line) "" || String.eqb (dataStr line) "null"
    then (currentEvent, None)
    else ("message",
          if String.eqb currentEvent "message" then parseData (dataStr line)
          else None)
  else (currentEvent, None).

Fixpoint processLines (currentEvent : string) (lines : list string)
  : string * list value :=
  match lines with
  | line :: rest =>
      let '(next, delivered) := processLine currentEvent line in
      let '(final, more) := processLines next rest in
      (final, match delivered with Some v => v :: more | None => more end)
  | [] => (currentEvent, [])
  end.

(** The reader loop: [buffer] and [currentEvent] across chunks, and the
    values passed to [onMessage] in order. *)
Fixpoint readChunks (buffer currentEvent : string) (chunks : list string)
  : list value :=
  match chunks with
  | chunk :: rest =>
      let '(lines, buffer') := Str.splitLines (buffer +:+ chunk) in
      let '(next, delivered) := processLines currentEvent lines in
      delivered ++ readChunks buffer' next rest
  | [] => []
  end.

(** [streamQuestion] on a successful response whose body arrives as
    [chunks]. *)
Definition streamQuestion (chunks : list string) : list value :=
  readChunks "" "message" chunks.

(** The eight statuses of [StreamStatus]. *)
Definition protocolStatuses : list string :=
  ["searching"; "tool_call"; "tool_running"; "tool_result";
   "response"; "end_turn"; "keepalive"; "error"].

(** [v] is a string or [null]/[undefined]. *)
Definition nullableString (v : option value) : bool :=
  match v with
  | None | Some Value.Undefined | Some Value.Null | Some (Value.Str _) => true
  | Some _ => false
  end.

(** An event as [StreamMessageResponse] types it. *)
Definition wellTyped (v : value) : Prop :=
  exists props status response,
    v = Value.Obj props /\
    Object.get props "status" = Some (Value.Str status) /\
    status ∈ protocolStatuses /\
    Object.get props "response" = Some (Value.Str response) /\
    (status = "response" \/ response = "") /\
    nullableString (Object.get props "error") = true /\
    nullableString (Object.get props "tool_name") = true /\
    nullableString (Object.get props "tool_args") = true /\
    nullableString (Object.get props "tool_result") = true /\
    nullableString (Object.get props "info") = true.

(** The value the last assignment to [key] among [matches] gave it. *)
Definition lastAssigned (key : string) (matches : list (string * captured))
  : option value :=
  fold_left (fun acc '(k, c) => if String.eqb k key then Some (valueOf c) else acc)
            matches None.

(** The matches after the first one that gives [__proto__] the value
    [None]. *)
Fixpoint afterNullPrototype (matches : list (string * captured))
  : list (string * captured) :=
  match matches with
  | (k, c) :: rest =>
      if String.eqb k "__proto__" && isNull (valueOf c) then rest
      else afterNullPrototype rest
  | [] => []
  end.

(** The values [valueOf] can produce. *)
Definition scalar (v : value) : bool :=
  match v with
  | Value.Null | Value.Bool _ | Value.Num _ | Value.Str _ => true
  | _ => false
  end.

End WithHost.
End Chats.

(** ** [URLSearchParams]: the part of the URL standard [buildQueryString]
    uses, for strings of code units below 256 *)

Module URLSearchParams.

Definition t := list (string * string).

(** [searchParams.set(name, value)]: the first entry named [name] takes
    the value and the other entries of that name go; a new name is
    appended. *)
Fixpoint set (l : t) (name value : string) : t :=
  match l with
  | (n, v) :: rest =>
      if String.eqb n name
      then (name, value) :: filter (fun e => e.1 <> name) rest
      else (n, v) :: set rest name value
  | [] => [(name, value)]
  end.

Definition hexDigit (n : nat) : ascii :=
  Ascii.ascii_of_nat (if Nat.ltb n 10 then 48 + n else 55 + n).

Definition percentByte (b : nat) : string :=
  String "%" (String (hexDigit (b / 16)) (String (hexDigit (b mod 16)) "")).

(** The characters the form-urlencoded serializer leaves alone. *)
Definition unreserved (c : ascii) : bool :=
  Str.between 48 57 c || Str.between 65 90 c || Str.between 97 122 c ||
  Ascii.eqb c "*" || Ascii.eqb c "-" || Ascii.eqb c "." || Ascii.eqb c "_".

(** One code unit: kept, [+] for a space, or the percent-encoded bytes of
    its UTF-8 encoding (one byte below 128, two bytes from 128 to 255). *)
Definition encodeUnit (c : ascii) : string :=
  let n := Ascii.nat_of_ascii c in
  if unreserved c then String c ""
  else if Ascii.eqb c " " then "+"
  else if Nat.ltb n 128 then percentByte n
  else percentByte (192 + n / 64) +:+ percentByte (128 + n mod 64).

Fixpoint encode (s : string) : string :=
  match s with
  | String c t => encodeUnit c +:+ encode t
  | EmptyString => ""
  end.

Fixpoint join (sep : string) (l : list string) : string :=
  match l with
  | [] => ""
  | [x] => x
  | x :: rest => x +:+ sep +:+ join sep rest
  end.

(** One entry as [toString] writes it. *)
Definition piece (e : string * string) : string :=
  encode e.1 +:+ "=" +:+ encode e.2.

(** [searchParams.toString()]. *)
Definition toString (l : t) : string := join "&" (map piece l).

(** Reading a query string back, as the parser of the standard does on
    what the serializer writes: split at [&], drop empty pieces, split each
    piece at its first [=], decode [+] and the percent-encoded bytes. *)
Definition hexValue (c : ascii) : option nat :=
  let n := Ascii.nat_of_ascii c in
  if Str.between 48 57 c then Some (n - 48)
  else if Str.between 65 70 c then Some (n - 55)
  else if Str.between 97 102 c then Some (n - 87)
  else None.

Definition hexByte (h1 h2 : ascii) : option nat :=
  match hexValue h1, hexValue h2 with
  | Some a, Some b => Some (16 * a + b)
  | _, _ => None
  end.

Fixpoint decode (s : string) : string :=
  match s with
  | EmptyString => ""
  | String c t =>
      if Ascii.eqb c "+" then String " " (decode t)
      else if Ascii.eqb c "%" then
        match t with
        | String h1 (String h2 t2) =>
            match hexByte h1 h2 with
            | Some byte =>
                if Nat.ltb byte 128
                then String (Ascii.ascii_of_nat byte) (decode t2)
                else
                  match t2 with
                  | String p (String h3 (String h4 t3)) =>
                      match (if Ascii.eqb p "%" then hexByte h3 h4 else None) with
                      | Some low =>
                          String (Ascii.ascii_of_nat ((byte - 192) * 64 + (low - 128)))
                                 (decode t3)
                      | None => String c (decode t)
                      end
                  | _ => String c (decode t)
                  end
            | None => String c (decode t)
            end
        | _ => String c (decode t)
        end
      else String c (decode t)
  end.

Definition parsePair (piece : string) : string * string :=
  let '(name, rest) := Str.span (fun c => negb (Ascii.eqb c "=")) piece in
  (decode name, decode (Str.slice 1 rest)).

Definition parse (query : string) : t :=
  map parsePair (filter (fun piece => piece <> "") (Str.splitOn "&" query)).

End URLSearchParams.

(** ** [api/routes/utils.ts]: [buildQueryString] *)

Module Utils.
Section WithHost.
Context {host : Host}.

(** [string | number | boolean | null | undefined] *)
Inductive param :=
| PString (s : string)
| PNumber (n : num)
| PBoolean (b : bool)
| PNull
| PUndefined.

(** [value === undefined || value === null] *)
Definition isNullish (v : param) : bool :=
  match v with
  | PNull | PUndefined => true
  | _ => false
  end.

(** [String(value)] *)
Definition toStr (v : param) : string :=
  match v with
  | PString s => s
  | PNumber n => num_to_string n
  | PBoolean true => "true"
  | PBoolean false => "false"
  | PNull => "null"
  | PUndefined => "undefined"
  end.

(** [params] is [None] when the argument is left out, and otherwise the
    entries of the record as [Object.entries] lists them. *)
Definition buildQueryString (params : option (list (string * param))) : string :=
  match params with
  | None => ""
  | Some entries =>
      let searchParams :=
        fold_left
          (fun sp '(key, value) =>
             if isNullish value then sp
             else URLSearchParams.set sp key (toStr value))
          entries [] in
      let queryString := URLSearchParams.toString searchParams in
      if JS.truthy queryString then "?" +:+ queryString else ""
  end.

(** The keys whose values are neither [null] nor [undefined], each with
    its value converted by [String]. *)
Definition present (entries : list (string * param)) : list (string * string) :=
  omap (fun '(key, value) =>
          if isNullish value then None else Some (key, toStr value))
       entries.

End WithHost.
End Utils.

(** ** Dynamic typing: the operators the tool card applies to [any] *)

Module Dynamic.
Section WithHost.
Context {host : Host}.

Local Abbreviation value := (Value.t num).

(** [v] as a condition. *)
Definition truthy (v : value) : bool :=
  match v with
  | Value.Undefined | Value.Null => false
  | Value.Bool b => b
  | Value.Num n => num_truthy n
  | Value.Str s => JS.truthy s
  | Value.Arr _ | Value.Obj _ => true
  end.

(** [typeof v === "object"]. *)
Definition typeofObject (v : value) : bool :=
  match v with
  | Value.Null | Value.Arr _ | Value.Obj _ => true
  | _ => false
  end.

(** [v === "object"]. *)
Definition isStr (v : value) (s : string) : bool :=
  match v with
  | Value.Str s' => String.eqb s' s
  | _ => false
  end.

(** The index properties of an array or of a string. *)
Definition indexed (items : list value) : list (string * value) :=
  imap (fun i v => (pretty i, v)) items.

Fixpoint chars (s : string) : list value :=
  match s with
  | String c t => Value.Str (String c "") :: chars t
  | EmptyString => []
  end.

(** [v[k]] for a [v] that is neither [null] nor [undefined], on its own
    properties. A name found on a prototype instead reads as [undefined]
    here: it holds a method, or for [__proto__] the prototype, an object
    without own enumerable properties, and the one caller that computes
    the name, the loop of [buildPathParamsSchema], ends with the default
    type and description for either as it does for [undefined]. *)
Definition getProp (v : value) (k : string) : value :=
  match v with
  | Value.Obj props => default Value.Undefined (Object.get props k)
  | Value.Arr items =>
      if String.eqb k "length" then Value.Num (num_of_nat (length items))
      else default Value.Undefined (Object.get (indexed items) k)
  | Value.Str s =>
      if String.eqb k "length" then Value.Num (num_of_nat (String.length s))
      else default Value.Undefined (Object.get (indexed (chars s)) k)
  | _ => Value.Undefined
  end.

(** The properties copied by a spread of an object-typed, truthy [v]. *)
Definition spread (v : value) : list (string * value) :=
  match v with
  | Value.Obj props => props
  | Value.Arr items => indexed items
  | _ => []
  end.

End WithHost.
End Dynamic.

(** ** The tool card: [extractPathParams] and [buildPathParamsSchema] *)

Module ToolCard.

(** The pattern: an opening brace, one or more characters other than a
    closing brace, a closing brace. The greedy run must reach the closing
    brace: a shorter one would need it where another character stands. The
    result is [match[1]] and the text after the match. *)
Definition matchParam (s : string) : option (string * string) :=
  match s with
  | String c t =>
      if Ascii.eqb c "{" then
        match Str.span (fun x => negb (Ascii.eqb x "}")) t with
        | (EmptyString, _) => None
        | (body, String _ rest) => Some (body, rest)
        | (_, EmptyString) => None
        end
      else None
  | EmptyString => None
  end.

(** [names.add(name)] on a [Set] listed in insertion order. *)
Definition setAdd (names : list string) (name : string) : list string :=
  if bool_decide (name ∈ names) then names else names ++ [name].

Definition extractPathParams (url : string) : list string :=
  fold_left
    (fun names raw =>
       let name := Str.trim raw in
       if JS.truthy name then setAdd names name else names)
    (Str.execAll matchParam 0 url) [].

Definition schemaDescription : string :=
  "Schema que define a estrutura dos path parameters de um webhook.".

(** The template literal of the parameter description; its second
    letter a carries a circumflex, code unit 226. *)
Definition paramDescription (p : string) : string :=
  "Par" +:+ String (Ascii.ascii_of_nat 226) "metro de path '" +:+ p +:+ "'".

Section WithHost.
Context {host : Host}.

Local Abbreviation value := (Value.t num).

Definition currentIsObject (currentSchema : value) : bool :=
  Dynamic.truthy currentSchema && Dynamic.typeofObject currentSchema &&
  Dynamic.isStr (Dynamic.getProp currentSchema "type") "object".

Definition currentProps (currentSchema : value) : value :=
  if currentIsObject currentSchema then
    let props := Dynamic.getProp currentSchema "properties" in
    if Dynamic.truthy props then props else Value.Obj []
  else Value.Obj [].

Definition description (currentSchema : value) : value :=
  if currentIsObject currentSchema
     && Dynamic.truthy (Dynamic.getProp currentSchema "description")
  then Dynamic.getProp currentSchema "description"
  else Value.Str schemaDescription.

(** [!next.type] and [!next.description] *)
Definition missing (next : list (string * value)) (k : string) : bool :=
  negb (Dynamic.truthy (default Value.Undefined (Object.get next k))).

(** The body of the loop: [next] for the parameter [p]. *)
Definition nextFor (props : value) (p : string) : list (string * value) :=
  let existing := Dynamic.getProp props p in
  let next :=
    if Dynamic.truthy existing && Dynamic.typeofObject existing
    then Dynamic.spread existing
    else [("type", Value.Str "string");
          ("description", Value.Str (paramDescription p))] in
  let next :=
    if missing next "type" then Object.set next "type" (Value.Str "string")
    else next in
  if missing next "description"
  then Object.set next "description" (Value.Str (paramDescription p))
  else next.

Definition buildPathParamsSchema (paramNames : list string) (currentSchema : value)
  : list (string * value) :=
  let properties :=
    fold_left
      (fun properties p =>
         Object.set properties p (Value.Obj (nextFor (currentProps currentSchema) p)))
      paramNames [] in
  [("type", Value.Str "object");
   ("description", description currentSchema);
   ("properties", Value.Obj properties);
   ("required", Value.Arr (map Value.Str paramNames))].

(** *** The prior schema, as the properties stated of the built schema
    speak of it *)







End WithHost.

(** *** The parameter names of a URL, said without the regular expression *)

(** The pieces of [url] that end at a closing brace, without the brace. *)
Definition closedPieces (url : string) : list string :=
  removelast (Str.splitOn "}" url).

(** The text after the first opening brace of a piece, when there is some. *)
Definition afterBrace (piece : string) : option string :=
  match Str.span (fun x => negb (Ascii.eqb x "{")) piece with
  | (_, String _ (String c body)) => Some (String c body)
  | _ => None
  end.

(** Each element once, at its first occurrence. *)
Fixpoint firstOccurrences (l : list string) : list string :=
  match l with
  | x :: rest => x :: filter (fun y => y <> x) (firstOccurrences rest)
  | [] => []
  end.

(** The distinct non-empty trimmed names inside braces, in order of first
    occurrence. *)
Definition pathParamNames (url : string) : list string :=
  firstOccurrences
    (filter (fun name => name <> "")
            (map Str.trim (omap afterBrace (closedPieces url)))).

End ToolCard.

(** ** The JSON-schema editor: [enforceConstraintsOnNode] *)

Module JsonSchemaEditor.

Inductive PrimitiveType := string_t | number_t | integer_t.

(** [JsonSchemaNode]; [required] is optional on an object node. *)
Inductive JsonSchemaNode :=
| Primitive (type : PrimitiveType) (description : option string)
| ObjectNode (description : option string)
             (properties : list (string * JsonSchemaNode))
             (required : option (list string))
| ArrayNode (description : option string) (items : JsonSchemaNode).

Definition isObject (n : JsonSchemaNode) : bool :=
  match n with ObjectNode _ _ _ => true | _ => false end.

Definition isArray (n : JsonSchemaNode) : bool :=
  match n with ArrayNode _ _ => true | _ => false end.

Definition descriptionOf (n : JsonSchemaNode) : option string :=
  match n with
  | Primitive _ d | ObjectNode d _ _ | ArrayNode d _ => d
  end.

(** [depthAllowed != null && depth > depthAllowed] *)
Definition tooDeep (depth : Z) (depthAllowed : option Z) : bool :=
  match depthAllowed with
  | Some allowed => Z.ltb allowed depth
  | None => false
  end.

(** [nextProps[r] != null]: [r] is an own property, whose value is a
    node, or a member inherited from [Object.prototype], a method or the
    prototype. *)
Definition hasProp {A} (o : list (string * A)) (r : string) : bool :=
  Object.own o r || Object.inherited r.

Section Flags.
Variables (rootDepth : Z) (arrayAllowed : bool) (depthAllowed : option Z)
          (allFieldsRequired : bool).

Fixpoint enforceConstraintsOnNode (node : JsonSchemaNode) (depth : Z)
  : JsonSchemaNode :=
  if isArray node && negb arrayAllowed && negb (Z.eqb depth rootDepth)
  then Primitive string_t (descriptionOf node)
  else if (isObject node || isArray node) && tooDeep depth depthAllowed
  then Primitive string_t (descriptionOf node)
  else
    match node with
    | ObjectNode description properties required =>
        let nextProps :=
          fold_left
            (fun nextProps '(k, v) =>
               Object.set nextProps k (enforceConstraintsOnNode v (depth + 1)))
            properties [] in
        let nextReq :=
          if allFieldsRequired then Object.keys nextProps
          else List.filter (hasProp nextProps)
                           (match required with Some r => r | None => [] end) in
        ObjectNode description nextProps (Some nextReq)
    | ArrayNode description items =>
        ArrayNode description (enforceConstraintsOnNode items (depth + 1))
    | Primitive _ _ => node
    end.

(** The [nextProps] and [nextReq] of an object node. *)
Definition nextPropsOf (properties : list (string * JsonSchemaNode)) (depth : Z)
  : list (string * JsonSchemaNode) :=
  Object.assigned (fun v => enforceConstraintsOnNode v (depth + 1)) properties [].

Definition nextReqOf (nextProps : list (string * JsonSchemaNode))
    (required : option (list string)) : list string :=
  if allFieldsRequired then Object.keys nextProps
  else List.filter (hasProp nextProps)
                   (match required with Some r => r | None => [] end).

End Flags.

End JsonSchemaEditor.

(** ** The turn engine: recursion guard

    The engine that serves the stream is not among the sources; its guard
    follows the design of the agent executor and of the recursion guard. *)

Module RecursionGuard.

Definition agentId := string.

Inductive reason := cycle | depthExceeded.

Inductive verdict := allow | reject (why : reason).

(** Modelled from the spec: the recursion guard's [enter] is missing from
    the sources. The call stack lists the agent ids in flight, the latest
    first. Reject if [agentId] already appears in the stack; reject if the
    stack length would exceed the maximum depth; otherwise push and allow. *)
Definition enter (maxDepth : nat) (stack : list agentId) (a : agentId)
  : verdict * list agentId :=
  if bool_decide (a ∈ stack) then (reject cycle, stack)
  else if Nat.ltb maxDepth (length stack + 1) then (reject depthExceeded, stack)
  else (allow, a :: stack).

(** Modelled from the spec: the recursion guard's [leave] is missing from
    the sources. It pops the entry the matching [enter] pushed. *)
Definition leave (stack : list agentId) (a : agentId) : list agentId :=
  match stack with
  | _ :: rest => rest
  | [] => []
  end.

(** How a sub-turn ends. *)
Inductive exitPath := completed | errored | cancelled.

(** What a turn of an agent does as far as the guard sees it: it calls
    agent tools one after the other, each call a sub-turn of its target,
    then leaves by one of the exit paths. *)
Inductive turn := Turn (agent : agentId) (calls : list turn) (exit : exitPath).

(** The agent executor's result for one call. *)
Inductive result := finished (exit : exitPath) | rejected (why : reason).

(** Modelled from the spec: the agent executor is missing from the sources.
    It asks the guard before invoking; on rejection no sub-turn starts and
    an error result is returned; on acceptance the sub-turn runs, nested
    calls going through the same guard, and [leave] runs on every exit
    path. *)
Fixpoint invoke (maxDepth : nat) (t : turn) (stack : list agentId)
  : result * list agentId :=
  match t with
  | Turn agent calls exit =>
      match enter maxDepth stack agent with
      | (reject why, stack') => (rejected why, stack')
      | (allow, stack') =>
          let stack'' :=
            fold_left (fun st call => (invoke maxDepth call st).2) calls stack' in
          (finished exit, leave stack'' agent)
      end
  end.

End RecursionGuard.

(** ** The turn engine: orchestrator and streaming emitter *)

Module Emitter.

Inductive status :=
| searching | tool_call | tool_running | tool_result
| response | end_turn | keepalive | error.

(** A wire event, with the call id of the tool call it belongs to. *)
Record event := Event { statusOf : status; callOf : option nat }.

(** The output of one invocation of the model: a final answer streamed in
    fragments, a batch of tool calls (their ids in request order, the order
    in which their results complete, and the heartbeats sent while
    waiting), or a provider failure. *)
Inductive generation :=
| answer (fragments : nat)
| toolBatch (requested completion : list nat) (heartbeats : nat)
| providerError.

Definition requestedBy (g : generation) : list nat :=
  match g with toolBatch requested _ _ => requested | _ => [] end.

Definition toolEvent (s : status) (id : nat) : event := Event s (Some id).

(** Modelled from the spec: the turn orchestrator's generation loop and the
    events the streaming emitter writes for it are missing from the sources.
    Each iteration invokes the model once. A final answer is streamed as
    [response] fragments and closed by [end_turn]; a batch emits [tool_call]
    for each request, [tool_running] for each dispatch, and [tool_result] as
    results complete, then the model is invoked again; a provider failure
    emits [error]; reaching the maximum iteration count finalizes the turn
    with [end_turn]. *)
Fixpoint generating (model : nat -> generation) (iteration remaining : nat)
  : list event :=
  match remaining with
  | O => [Event end_turn None]
  | S r =>
      match model iteration with
      | answer fragments =>
          replicate fragments (Event response None) ++ [Event end_turn None]
      | toolBatch requested completion heartbeats =>
          map (toolEvent tool_call) requested ++
          map (toolEvent tool_running) requested ++
          replicate heartbeats (Event keepalive None) ++
          map (toolEvent tool_result) completion ++
          generating model (S iteration) r
      | providerError => [Event error None]
      end
  end.

(** Modelled from the spec: the orchestrator's [run] is missing from the
    sources. With knowledge bases attached the turn enters retrieval first
    and emits [searching]. *)
Definition run (knowledgeBases : bool) (model : nat -> generation)
    (maxIterations : nat) : list event :=
  (if knowledgeBases then [Event searching None] else []) ++
  generating model 0 maxIterations.

(** A turn with one batch of two calls, completed in reverse order, then
    the answer. *)
Definition sampleModel (iteration : nat) : generation :=
  match iteration with
  | O => toolBatch [1; 2] [2; 1] 1
  | S _ => answer 2
  end.

Definition terminal (e : event) : bool :=
  match statusOf e with
  | end_turn | error => true
  | _ => false
  end.

(** The statuses of the events of one tool call, in stream order. *)
Definition statusesFor (id : nat) (events : list event) : list status :=
  map statusOf (filter (fun e => callOf e = Some id) events).

(** Call ids are unique within the turn, and the results of a batch are the
    results of its requests. *)
Definition wellFormed (model : nat -> generation) : Prop :=
  (forall i, NoDup (requestedBy (model i))) /\
  (forall i j id, id ∈ requestedBy (model i) -> id ∈ requestedBy (model j) -> i = j) /\
  (forall i requested completion heartbeats,
     model i = toolBatch requested completion heartbeats ->
     completion ≡ₚ requested).

End Emitter.

(** * More of the sources *)

(** ** [pages/ChatPage.tsx]: what the page shows, and the expanded tool cards *)

Module ChatView.
Import ChatPage.

(** The text a step shows: [step.content] of a text step. *)
Definition textContribution (s : Step.t) : string :=
  if Step.is_text s then JS.or_else (Step.content s) "" else "".

(** The text of all the text steps, in order. *)
Definition shownText (steps : list Step.t) : string :=
  concatAll (map textContribution steps).

(** The number of tool steps with a spinner. *)
Definition runningCount (steps : list Step.t) : nat :=
  length (filter (fun s => Step.running s = true) steps).

Definition responseEvent (fragment : string) : Ev.t :=
  Ev.mk "response" None fragment None None None None.

(** The step pushed for a first fragment. *)
Definition textStep (content : string) : Step.t :=
  Step.mk Step.text (Some content) None None None None.

(** [toggleToolExpansion]: the next value of [expandedTools]. Only
    membership of the set is ever read. *)
Definition toggleToolExpansion (prev : gset string) (toolId : string) : gset string :=
  if bool_decide (toolId ∈ prev) then prev ∖ {[toolId]} else prev ∪ {[toolId]}.

End ChatView.

(** ** [api/routes/chats.ts]: lines in the textual object notation *)

Module Repr.
Import Chats.

(** A field as the textual notation writes it: [key=value], the value a
    quoted string or one of [None], [True], [False]. *)
Definition renderValue (c : captured) : string :=
  match c with
  | SingleQuoted body => String Str.squote (body +:+ String Str.squote "")
  | DoubleQuoted body => String Str.dquote (body +:+ String Str.dquote "")
  | Bare fullValue => fullValue
  end.

Definition renderField (f : string * captured) : string :=
  f.1 +:+ String "=" (renderValue f.2).

(** The fields separated by single spaces. *)
Definition renderLine (fields : list (string * captured)) : string :=
  URLSearchParams.join " " (map renderField fields).

(** The key is a non-empty word; a quoted body does not hold its own quote;
    a bare value is one of the three literals. *)
Definition wellFormedField (f : string * captured) : Prop :=
  f.1 <> "" /\ Str.allChars Str.isWord f.1 = true /\
  match f.2 with
  | SingleQuoted body => Str.allChars (Str.plain Str.squote) body = true
  | DoubleQuoted body => Str.allChars (Str.plain Str.dquote) body = true
  | Bare fullValue => fullValue ∈ ["None"; "True"; "False"]
  end.

End Repr.

(** ** The JSON-schema editor: defaults, coercion, and the object editor *)

Module SchemaEditor.
Import JsonSchemaEditor.

(** [AllowedType]: a primitive type, ["object"] or ["array"]. *)
Inductive AllowedType := primitive_t (t : PrimitiveType) | object_t | array_t.

#[global] Instance PrimitiveType_eq_dec : EqDecision PrimitiveType.
Proof. solve_decision. Defined.

#[global] Instance AllowedType_eq_dec : EqDecision AllowedType.
Proof. solve_decision. Defined.

(** [node.type] *)
Definition typeOf (n : JsonSchemaNode) : AllowedType :=
  match n with
  | Primitive t _ => primitive_t t
  | ObjectNode _ _ _ => object_t
  | ArrayNode _ _ => array_t
  end.

(** [cloneNode]. The loop over [Object.keys(node.properties)] reads each
    key's own value, so it goes over the entries; an array is truthy, so
    [required] is copied when it is there. *)
Fixpoint cloneNode (node : JsonSchemaNode) : JsonSchemaNode :=
  match node with
  | ObjectNode description properties required =>
      ObjectNode description
        (fold_left (fun props '(k, v) => Object.set props k (cloneNode v))
                   properties [])
        (match required with Some r => Some r | None => None end)
  | ArrayNode description items => ArrayNode description (cloneNode items)
  | Primitive type description => Primitive type description
  end.

Definition makeDefaultNode (type : AllowedType) : JsonSchemaNode :=
  match type with
  | object_t => ObjectNode None [] (Some [])
  | array_t => ArrayNode None (Primitive string_t None)
  | primitive_t t => Primitive t (Some "")
  end.

Definition coerceRootToType (node : option JsonSchemaNode) (targetType : AllowedType)
  : JsonSchemaNode :=
  match node with
  | Some n =>
      if bool_decide (typeOf n <> targetType) then makeDefaultNode targetType
      else cloneNode n
  | None => makeDefaultNode targetType
  end.

(** The property names of every object of the schema are those of an
    object built by assignments: distinct, the array indices first in
    ascending order, none of them [__proto__]. *)
Fixpoint distinctNames (node : JsonSchemaNode) : bool :=
  match node with
  | ObjectNode _ properties _ =>
      Object.assignable (Object.keys properties)
      && forallb (fun '(_, v) => distinctNames v) properties
  | ArrayNode _ items => distinctNames items
  | Primitive _ _ => true
  end.

(** [canAddComplexChild] of the editor, [depthAllowed] its prop. *)
Definition canAddComplexChild (depthAllowed : option Z) (currentDepth : Z) : bool :=
  match depthAllowed with
  | None => true
  | Some allowed => Z.leb (currentDepth + 1) (Z.max 1 allowed)
  end.

(** [typeOptions]: the types a dropdown offers, in order; the value and
    the label of an option are both the name of its type. *)
Definition typeOptions (allowArray allowComplex : bool) : list AllowedType :=
  (if allowComplex
   then object_t :: (if allowArray then [array_t] else [])
   else [])
  ++ map primitive_t [string_t; number_t; integer_t].

(** [next.description = description] *)
Definition withDescription (next : JsonSchemaNode) (description : string)
  : JsonSchemaNode :=
  match next with
  | Primitive t _ => Primitive t (Some description)
  | ObjectNode _ properties required =>
      ObjectNode (Some description) properties required
  | ArrayNode _ items => ArrayNode (Some description) items
  end.

(** The node a type dropdown puts in place of [current], a property or the
    items of an array: the default node of [nextType] with the description
    [current.description || ""]. *)
Definition chosenNode (nextType : AllowedType) (current : JsonSchemaNode)
  : JsonSchemaNode :=
  withDescription (makeDefaultNode nextType)
                  (JS.or_else (descriptionOf current) "").

(** The depth the editor gives its root. *)
Definition ROOT_DEPTH : Z := 1.

Section Flags.
Variables (rootDepth : Z) (arrayAllowed : bool) (depthAllowed : option Z)
          (allFieldsRequired : bool).

(** What the flags ask of a schema placed at [depth]: no object or array
    deeper than [depthAllowed]; no array off the root unless arrays are
    allowed; the properties of an object under the names of an object
    built by assignments (distinct, array indices first in ascending
    order, none of them [__proto__]); its [required] list present, naming
    only what [nextProps[r] != null] finds, a property or a member of
    [Object.prototype], and naming the properties, all and in order, when
    all fields are required. *)
Fixpoint conforms (node : JsonSchemaNode) (depth : Z) : bool :=
  match node with
  | Primitive _ _ => true
  | ObjectNode _ properties required =>
      negb (tooDeep depth depthAllowed)
      && Object.assignable (Object.keys properties)
      && forallb (fun '(_, v) => conforms v (depth + 1)) properties
      && match required with
         | Some r =>
             if allFieldsRequired then bool_decide (r = Object.keys properties)
             else forallb (hasProp properties) r
         | None => false
         end
  | ArrayNode _ items =>
      (arrayAllowed || Z.eqb depth rootDepth)
      && negb (tooDeep depth depthAllowed)
      && conforms items (depth + 1)
  end.

End Flags.

(** *** The object editor *)

Record PropertyRow := { id : string; key : string; value : JsonSchemaNode }.

(** [`${base}_${idx}`] *)
Definition candidate (idx : nat) : string := "campo_" +:+ pretty idx.

(** The [while (currentKeys.has(key))] loop of [addProperty], from [idx];
    [fuel] bounds the number of increments. *)
Fixpoint freshKey (fuel : nat) (currentKeys : list string) (idx : nat)
  : option string :=
  if bool_decide (candidate idx ∈ currentKeys) then
    match fuel with
    | S fuel' => freshKey fuel' currentKeys (idx + 1)
    | O => None
    end
  else Some (candidate idx).

(** The description of a new property; its letters with a cedilla and a
    tilde are the code units 231 and 227. *)
Definition defaultPropertyDescription : string :=
  "Descri" +:+ String (Ascii.ascii_of_nat 231) (String (Ascii.ascii_of_nat 227)
  ("o padr" +:+ String (Ascii.ascii_of_nat 227) "o")).

(** [new Set(array)], listed in insertion order. *)
Definition setOf (l : list string) : list string := fold_left ToolCard.setAdd l [].

(** [set.delete(name)] *)
Definition setDelete (names : list string) (name : string) : list string :=
  filter (fun y => y <> name) names.

(** [l.splice(idx, 1, newKey)] at [idx = l.indexOf(oldKey)], when there is
    such an index. *)
Fixpoint replaceFirst (oldKey newKey : string) (l : list string) : list string :=
  match l with
  | x :: rest =>
      if String.eqb x oldKey then newKey :: rest
      else x :: replaceFirst oldKey newKey rest
  | [] => []
  end.

(** [node[k] !== undefined] for a schema node: [k] is a field the node
    holds, or a member of [Object.prototype]. *)
Definition nodeMember (node : JsonSchemaNode) (k : string) : bool :=
  String.eqb k "type"
  || (String.eqb k "description"
      && match descriptionOf node with Some _ => true | None => false end)
  || match node with
     | ObjectNode _ _ required =>
         String.eqb k "properties"
         || (String.eqb k "required"
             && match required with Some _ => true | None => false end)
     | ArrayNode _ _ => String.eqb k "items"
     | Primitive _ _ => false
     end
  || Object.inherited k.

(** The prototype the assignments [nextProps[row.key] = row.value] leave
    [nextProps] with, when it is not [Object.prototype]: the value of the
    last row named [__proto__]. *)
Definition assignedPrototype (rows : list PropertyRow) : option JsonSchemaNode :=
  fold_left
    (fun proto row =>
       if String.eqb (key row) "__proto__" then Some (value row) else proto)
    rows None.

Section ObjectEditor.
(** [props.node], an object node, and [props.allFieldsRequired]. *)
Variables (description : option string)
          (properties : list (string * JsonSchemaNode))
          (required : option (list string))
          (allFieldsRequired : bool).

(** The node [notifyChange] passes to [props.onChange]. A row named
    [__proto__] makes no property of [nextProps] and becomes its
    prototype; [nextProps[k] !== undefined] then finds what that node
    holds. *)
Definition notifyChange (newRows : list PropertyRow) : JsonSchemaNode :=
  let nextProps :=
    fold_left (fun nextProps row => Object.set nextProps (key row) (value row))
              newRows [] in
  let nextReq := match required with Some r => r | None => [] end in
  let nextReq :=
    if allFieldsRequired then Object.keys nextProps
    else List.filter
           (fun k =>
              Object.own nextProps k ||
              match assignedPrototype newRows with
              | Some node => nodeMember node k
              | None => Object.inherited k
              end)
           nextReq in
  ObjectNode description nextProps (Some nextReq).

(** [addProperty]: the next rows and the node passed to [props.onChange];
    [newId] is the id made for the row. The next properties are those of
    the literal [{ ...props.node.properties, [key]: newRow.value }], whose
    computed key defines an own property. *)
Definition addProperty (fuel : nat) (newId : string) (rows : list PropertyRow)
  : option (list PropertyRow * JsonSchemaNode) :=
  match freshKey fuel (map key rows) 1 with
  | Some key =>
      let newRow :=
        {| id := newId; key := key;
           value := Primitive string_t (Some defaultPropertyDescription) |} in
      let nextRows := rows ++ [newRow] in
      let nextProps := Object.define properties key (value newRow) in
      let nextReq :=
        if allFieldsRequired then Some (Object.keys nextProps) else required in
      Some (nextRows, ObjectNode description nextProps nextReq)
  | None => None
  end.

(** [updateRowKey]: the next rows and the node passed up. The old key is
    the key of the first row with the id; every row with the id gets the
    new key. *)
Definition updateRowKey (rowId newKey : string) (rows : list PropertyRow)
  : list PropertyRow * JsonSchemaNode :=
  let oldKey := option_map key (List.find (fun r => String.eqb (id r) rowId) rows) in
  let nextRows :=
    map (fun r => if String.eqb (id r) rowId
                  then {| id := id r; key := newKey; value := value r |}
                  else r)
        rows in
  let nextProps :=
    fold_left (fun nextProps row => Object.set nextProps (key row) (value row))
              nextRows [] in
  let nextReq := match required with Some r => r | None => [] end in
  let nextReq :=
    if allFieldsRequired then Object.keys nextProps
    else match oldKey with
         | Some old =>
             if JS.truthy old then replaceFirst old newKey nextReq else nextReq
         | None => nextReq
         end in
  (nextRows, ObjectNode description nextProps (Some nextReq)).

(** [removeRow]: the next rows and the node passed up. *)
Definition removeRow (rowId : string) (rows : list PropertyRow)
  : list PropertyRow * JsonSchemaNode :=
  let nextRows := filter (fun r => id r <> rowId) rows in
  (nextRows, notifyChange nextRows).

(** [toggleRequired]: the node passed to [props.onChange], if any. *)
Definition toggleRequired (key : string) (required' : bool) : option JsonSchemaNode :=
  if allFieldsRequired then None
  else
    let current := setOf (match required with Some r => r | None => [] end) in
    let current :=
      if required' then ToolCard.setAdd current key else setDelete current key in
    Some (ObjectNode description properties (Some current)).

End ObjectEditor.

End SchemaEditor.

(** ** The key-value editor *)

Module KeyValueEditor.

Record KeyValuePair := { id : string; key : string; value : string }.

(** [toRecord]: the record of the rows, a row with a blank key left out. *)
Definition toRecord (rows : list KeyValuePair) : list (string * string) :=
  fold_left
    (fun acc row =>
       let k := Str.trim (key row) in
       if JS.truthy k then Object.set acc k (value row) else acc)
    rows [].

(** [initialPairs]: a row for each entry of [props.keyValuePairs]; [newId]
    gives the id made for the row at each position. *)
Definition initialPairs (newId : nat -> string) (keyValuePairs : list (string * string))
  : list KeyValuePair :=
  imap (fun i '(k, v) => {| id := newId i; key := k; value := v |}) keyValuePairs.

(** [removeKeyValuePair] *)
Definition removeKeyValuePair (rowId : string) (prev : list KeyValuePair)
  : list KeyValuePair :=
  filter (fun r => id r <> rowId) prev.

(** A key the record can hold as it is: not blank at either end, not empty. *)
Definition cleanKey (k : string) : Prop := k <> "" /\ Str.trim k = k.

End KeyValueEditor.

(** * Properties *)

(** ** The chat page callback *)

Section ChatPageFacts.
Import ChatPage.

Lemma truthy_false_empty s : JS.truthy s = false -> s = "".
Proof.
  unfold JS.truthy. intros H. apply negb_false_iff in H.
  by apply String.eqb_eq in H.
Qed.

Lemma append_nil_l s : "" +:+ s = s.
Proof. reflexivity. Qed.

Lemma append_cons c s t : String c s +:+ t = String c (s +:+ t).
Proof. reflexivity. Qed.

Lemma append_empty_r s : s +:+ "" = s.
Proof. induction s as [|c s IH]; [done | by rewrite append_cons, IH]. Qed.

Lemma append_assoc (a b c : string) : (a +:+ b) +:+ c = a +:+ (b +:+ c).
Proof.
  induction a as [|x a IH]; [done |]. by rewrite !append_cons, IH.
Qed.

Lemma or_else_some_empty s : JS.or_else (Some s) "" = s.
Proof.
  unfold JS.or_else. destruct (JS.truthy s) eqn:E; [done |].
  by rewrite (truthy_false_empty _ E).
Qed.

Lemma updateMessage_id data msg : Msg.id (updateMessage data msg) = Msg.id msg.
Proof. unfold updateMessage. repeat case_match; done. Qed.

Lemma updateMessage_steps data msg :
  Msg.steps_or_empty (updateMessage data msg) = stepsAfter data (Msg.steps_or_empty msg).
Proof. unfold updateMessage, stepsAfter. repeat case_match; done. Qed.

(** One event appends its fragment when its status is [response] and
    leaves the response text alone otherwise. *)
Lemma updateMessage_response_text data msg :
  Msg.response_text (updateMessage data msg) =
  Msg.response_text msg +:+ concatAll (responseFragments [data]).
Proof.
  unfold updateMessage, responseFragments. simpl.
  destruct (String.eqb (Ev.status data) "response") eqn:Hs.
  - apply String.eqb_eq in Hs.
    rewrite filter_cons_True, filter_nil by done. simpl.
    rewrite append_empty_r.
    destruct (JS.truthy (Ev.response data)) eqn:Ht.
    + unfold Msg.response_text at 1. simpl. apply or_else_some_empty.
    + rewrite (truthy_false_empty _ Ht), append_empty_r. done.
  - apply String.eqb_neq in Hs.
    rewrite filter_cons_False, filter_nil by done. simpl.
    rewrite append_empty_r. repeat case_match; done.
Qed.

Lemma responseFragments_cons data events :
  concatAll (responseFragments (data :: events)) =
  concatAll (responseFragments [data]) +:+ concatAll (responseFragments events).
Proof.
  unfold responseFragments.
  destruct (decide (Ev.status data = "response")) as [H|H].
  - rewrite !filter_cons_True, filter_nil by done. simpl.
    by rewrite append_empty_r.
  - rewrite !filter_cons_False, filter_nil by done. done.
Qed.

Lemma updateAll_id events msg : Msg.id (updateAll events msg) = Msg.id msg.
Proof.
  revert msg. induction events as [|d ev IH]; intros msg; simpl; [done |].
  unfold updateAll in *. simpl. by rewrite IH, updateMessage_id.
Qed.

Lemma updateAll_response_text events msg :
  Msg.response_text (updateAll events msg) =
  Msg.response_text msg +:+ concatAll (responseFragments events).
Proof.
  revert msg. induction events as [|d ev IH]; intros msg.
  - simpl. by rewrite append_empty_r.
  - unfold updateAll in *. simpl. rewrite IH, updateMessage_response_text.
    by rewrite append_assoc, <- responseFragments_cons.
Qed.

Lemma updateAll_response_some events msg :
  is_Some (Msg.response msg) -> is_Some (Msg.response (updateAll events msg)).
Proof.
  revert msg. induction events as [|d ev IH]; intros msg Hm; [done |].
  unfold updateAll in *. simpl. apply IH.
  unfold updateMessage. repeat case_match; simpl; eauto.
Qed.

Lemma updateAll_steps events msg :
  Msg.steps_or_empty (updateAll events msg) =
  fold_left (fun st data => stepsAfter data st) events (Msg.steps_or_empty msg).
Proof.
  revert msg. induction events as [|d ev IH]; intros msg; [done |].
  unfold updateAll in *. simpl. by rewrite IH, updateMessage_steps.
Qed.

(** The list-level callback updates, message by message, exactly the
    messages whose id is [tempId]. *)
Lemma onMessages_map tempId events prev :
  onMessages tempId events prev =
  map (fun msg => if Z.eqb (Msg.id msg) tempId then updateAll events msg else msg) prev.
Proof.
  revert prev. induction events as [|d ev IH]; intros prev.
  - simpl. induction prev as [|m prev IHp]; simpl; [done |].
    rewrite <- IHp. by case_match.
  - unfold onMessages in *. simpl. rewrite IH. unfold onMessage.
    rewrite map_map. apply map_ext. intros m.
    destruct (Z.eqb (Msg.id m) tempId) eqn:Hid.
    + rewrite updateMessage_id, Hid. done.
    + by rewrite Hid.
Qed.

Lemma onMessages_last tempId events prev msg :
  Msg.id msg = tempId ->
  last (onMessages tempId events (prev ++ [msg])) = Some (updateAll events msg).
Proof.
  intros Hid. rewrite onMessages_map, map_app. simpl.
  rewrite last_snoc. by rewrite Hid, Z.eqb_refl.
Qed.

(** *** Attaching a result: the last running tool step *)

Lemma attachResultFrom_skip data steps n k :
  (k <= n)%nat ->
  (forall i s, (k <= i < n)%nat -> steps !! i = Some s -> Step.running s = false) ->
  attachResultFrom n steps data = attachResultFrom k steps data.
Proof.
  induction n as [|n IH]; intros Hk Hno.
  - by replace k with O by lia.
  - destruct (decide (k = S n)) as [->|Hne]; [done |].
    simpl. destruct (steps !! n) as [s|] eqn:Hs.
    + rewrite (Hno n s) by (done || lia). apply IH; [lia |].
      intros i s' Hi. apply Hno. lia.
    + apply IH; [lia |]. intros i s' Hi. apply Hno. lia.
Qed.

Lemma attachResult_none data steps :
  Forall (fun s => Step.running s = false) steps ->
  attachResult steps data = steps.
Proof.
  intros Hall. unfold attachResult.
  rewrite (attachResultFrom_skip data steps (length steps) 0); [done | lia |].
  intros i s _ Hs. by eapply (proj1 (Forall_lookup _ _) Hall).
Qed.

Lemma attachResult_last_running data pre s post :
  Step.running s = true ->
  Forall (fun s => Step.running s = false) post ->
  attachResult (pre ++ s :: post) data = pre ++ finishStep s data :: post.
Proof.
  intros Hs Hpost. unfold attachResult.
  rewrite (attachResultFrom_skip data _ _ (S (length pre))).
  - simpl. rewrite list_lookup_middle by done. rewrite Hs.
    replace (length pre) with (length pre + 0)%nat at 1 by lia.
    by rewrite insert_app_r.
  - rewrite length_app. simpl. lia.
  - intros i s' Hi Hl. rewrite lookup_app_r in Hl by lia.
    destruct (i - length pre)%nat as [|j] eqn:Hj; [lia |].
    simpl in Hl. by eapply (proj1 (Forall_lookup _ _) Hpost).
Qed.


Lemma running_callStep c : Step.running (callStep c) = true.
Proof. done. Qed.

Lemma running_finishStep s r : Step.running (finishStep s r) = false.
Proof. unfold Step.running. simpl. by destruct (Step.type s). Qed.


(** C6: after the events of one question have been processed, the response
    text of the question's message is the concatenation, in arrival order,
    of the [response] fields of the events whose status is [response];
    events of any other status contribute nothing. *)
Theorem C6_response_text_is_concatenation
    (tempId : Z) (now question chatId : string)
    (events : list Ev.t) (prev : list Msg.t) :
  exists m,
    last (onMessages tempId events
            (prev ++ [optimisticMessage tempId now question chatId])) = Some m /\
    Msg.response m = Some (concatAll (responseFragments events)).
Proof.
  set (opt := optimisticMessage tempId now question chatId).
  exists (updateAll events opt). split.
  - by apply onMessages_last.
  - assert (Hsome : is_Some (Msg.response (updateAll events opt)))
      by (apply updateAll_response_some; eauto).
    destruct Hsome as [r Hr]. rewrite Hr. f_equal.
    pose proof (updateAll_response_text events opt) as Ht.
    unfold Msg.response_text in Ht. rewrite Hr, or_else_some_empty in Ht.
    rewrite Ht. done.
Qed.

(** C7: an event whose status is [keepalive] leaves the chat messages as
    they are: every message keeps its fields, its response text, its token
    counters and its steps, and no step is added. *)
Theorem C7_keepalive_leaves_messages_unchanged
    (tempId : Z) (data : Ev.t) (prev : list Msg.t) :
  Ev.status data = "keepalive" ->
  Forall2 sameContent prev (onMessage tempId data prev) /\
  ((forall m, m ∈ prev -> Msg.id m = tempId -> is_Some (Msg.steps m)) ->
   onMessage tempId data prev = prev).
Proof.
  intros Hs.
  assert (Hupd : forall m, updateMessage data m = Msg.with_steps m (Msg.steps_or_empty m)).
  { intros m. unfold updateMessage. by rewrite Hs. }
  split.
  - unfold onMessage. induction prev as [|m prev IH]; simpl; constructor; [| done].
    destruct (Z.eqb (Msg.id m) tempId); [| by repeat split].
    rewrite Hupd. by repeat split.
  - intros Hdef. unfold onMessage.
    induction prev as [|m prev IH]; simpl; [done |].
    rewrite IH by (intros m' Hin; apply Hdef; by right).
    f_equal. destruct (Z.eqb (Msg.id m) tempId) eqn:Hid; [| done].
    apply Z.eqb_eq in Hid.
    destruct (Hdef m) as [st Hst]; [by left | done |].
    rewrite Hupd. destruct m; simpl in *. unfold Msg.with_steps, Msg.steps_or_empty.
    simpl. by rewrite Hst.
Qed.

Lemma C7_keepalive_witness :
  onMessage 7 keepaliveEvent [optimisticMessage 7 "" "Hello" "c1"] =
  [optimisticMessage 7 "" "Hello" "c1"].
Proof.
  apply (proj2 (C7_keepalive_leaves_messages_unchanged
                  7 keepaliveEvent [optimisticMessage 7 "" "Hello" "c1"] eq_refl)).
  intros m Hm _. apply list_elem_of_singleton in Hm. subst m. simpl. eauto.
Defined.




End ChatPageFacts.

(** ** Plain objects *)

Section IndexFacts.

Local Open Scope N_scope.

Local Abbreviation digit c := (N.of_nat (Ascii.nat_of_ascii c - 48)).

Lemma digit_bound c : Str.between 48 57 c = true -> digit c <= 9.
Proof.
  unfold Str.between. intros H. apply andb_prop in H as [H1 H2].
  apply Nat.leb_le in H1, H2. lia.
Qed.

Lemma digit_inj c c' :
  Str.between 48 57 c = true -> Str.between 48 57 c' = true ->
  digit c = digit c' -> c = c'.
Proof.
  unfold Str.between. intros H H' Hd.
  apply andb_prop in H as [H1 _]. apply andb_prop in H' as [H1' _].
  apply Nat.leb_le in H1, H1'.
  assert (Hn : Ascii.nat_of_ascii c = Ascii.nat_of_ascii c') by lia.
  apply (f_equal Ascii.ascii_of_nat) in Hn.
  by rewrite !Ascii.ascii_nat_embedding in Hn.
Qed.

Lemma decimal_bounds s : forall acc n,
  Object.decimal acc s = Some n ->
  acc * 10 ^ N.of_nat (String.length s) <= n /\
  n < (acc + 1) * 10 ^ N.of_nat (String.length s).
Proof.
  induction s as [|c s IH]; intros acc n; simpl.
  - intros [= <-]. lia.
  - destruct (Str.between 48 57 c) eqn:Hc; [| done].
    intros H. apply IH in H as [Hlo Hhi].
    pose proof (digit_bound c Hc) as Hd.
    rewrite Nat2N.inj_succ, N.pow_succ_r'. nia.
Qed.

Lemma decimal_same_length s : forall s' acc acc' n,
  String.length s = String.length s' ->
  Object.decimal acc s = Some n -> Object.decimal acc' s' = Some n ->
  acc = acc' /\ s = s'.
Proof.
  induction s as [|c s IH]; intros [|c' s'] acc acc' n Hlen; simpl; try done.
  - intros [= <-] [= <-]. done.
  - destruct (Str.between 48 57 c) eqn:Hc; [| done].
    destruct (Str.between 48 57 c') eqn:Hc'; [| done].
    intros H H'. simpl in Hlen.
    destruct (IH s' _ _ n ltac:(lia) H H') as [Hacc ->].
    pose proof (digit_bound c Hc). pose proof (digit_bound c' Hc').
    assert (Hd : digit c = digit c') by lia.
    split; [lia |]. f_equal. by apply digit_inj.
Qed.

Lemma pow10_length a b n :
  10 ^ a <= n -> n < 10 ^ (a + 1) -> 10 ^ b <= n -> n < 10 ^ (b + 1) -> a = b.
Proof.
  intros Ha Ha' Hb Hb'.
  destruct (N.lt_trichotomy a b) as [Hlt|[-> |Hlt]]; [| done |]; exfalso.
  - assert (10 ^ (a + 1) <= 10 ^ b) by (apply N.pow_le_mono_r; lia). lia.
  - assert (10 ^ (b + 1) <= 10 ^ a) by (apply N.pow_le_mono_r; lia). lia.
Qed.

(** What [arrayIndex] accepts, spelled out. *)
Lemma arrayIndex_Some c rest n :
  Object.arrayIndex (String c rest) = Some n ->
  Str.between 48 57 c = true /\
  Object.decimal (digit c) rest = Some n /\
  (c = "0"%char /\ rest = "" \/ 1 <= digit c).
Proof.
  unfold Object.arrayIndex.
  destruct (Ascii.eqb c "0" && negb (String.eqb rest "")) eqn:Hz; [done |].
  simpl. destruct (Str.between 48 57 c) eqn:Hc; [| done].
  replace (10 * 0 + digit c) with (digit c) by lia.
  destruct (Object.decimal (digit c) rest) as [m|] eqn:Hm; [| done].
  destruct (N.ltb m 4294967295); [| done]. intros [= ->].
  split; [done |]. split; [done |].
  destruct (Ascii.eqb c "0") eqn:E0.
  - apply Ascii.eqb_eq in E0. simpl in Hz. apply negb_false_iff in Hz.
    apply String.eqb_eq in Hz. by left.
  - right. apply Ascii.eqb_neq in E0.
    unfold Str.between in Hc. apply andb_prop in Hc as [H1 _].
    apply Nat.leb_le in H1.
    assert (Ascii.nat_of_ascii c <> 48%nat); [| lia].
    intros H48. apply E0. apply (f_equal Ascii.ascii_of_nat) in H48.
    by rewrite Ascii.ascii_nat_embedding in H48.
Qed.

(** An array index has one numeral. *)
Lemma arrayIndex_inj k k' n :
  Object.arrayIndex k = Some n -> Object.arrayIndex k' = Some n -> k = k'.
Proof.
  destruct k as [|c rest]; [done |]. destruct k' as [|c' rest']; [done |].
  intros H H'.
  apply arrayIndex_Some in H as (Hc & Hd & Hcanon).
  apply arrayIndex_Some in H' as (Hc' & Hd' & Hcanon').
  pose proof (decimal_bounds _ _ _ Hd) as [Hlo Hhi].
  pose proof (decimal_bounds _ _ _ Hd') as [Hlo' Hhi'].
  pose proof (digit_bound c Hc). pose proof (digit_bound c' Hc').
  destruct Hcanon as [[-> ->]|Hpos]; destruct Hcanon' as [[-> ->]|Hpos'].
  - done.
  - simpl in *. injection Hd as <-. exfalso.
    assert (1 <= 10 ^ N.of_nat (String.length rest')) by (apply N.pow_lower_bound; lia).
    nia.
  - simpl in *. injection Hd' as <-. exfalso.
    assert (1 <= 10 ^ N.of_nat (String.length rest)) by (apply N.pow_lower_bound; lia).
    nia.
  - assert (Hlen : N.of_nat (String.length rest) = N.of_nat (String.length rest')).
    { apply (pow10_length _ _ n).
      - nia.
      - rewrite N.add_1_r, N.pow_succ_r'. nia.
      - nia.
      - rewrite N.add_1_r, N.pow_succ_r'. nia. }
    destruct (decimal_same_length rest rest' _ _ n ltac:(lia) Hd Hd') as [Hdig ->].
    f_equal. by apply digit_inj.
Qed.

(** A name that starts with a letter is no array index. *)
Lemma arrayIndex_letter c rest :
  Str.between 48 57 c = false -> Object.arrayIndex (String c rest) = None.
Proof.
  intros Hc. unfold Object.arrayIndex.
  destruct (Ascii.eqb c "0" && negb (String.eqb rest "")); [done |].
  simpl. by rewrite Hc.
Qed.

End IndexFacts.

Section ObjectFacts.
Context {A : Type}.
Implicit Types (o : list (string * A)) (k : string) (v : A).

Lemma get_setNamed_eq o k v : Object.get (Object.setNamed o k v) k = Some v.
Proof.
  induction o as [|[k' v'] o IH]; simpl.
  - by rewrite String.eqb_refl.
  - destruct (String.eqb k' k) eqn:E; simpl.
    + by rewrite String.eqb_refl.
    + by rewrite E.
Qed.

Lemma get_setNamed_ne o k k' v :
  k <> k' -> Object.get (Object.setNamed o k v) k' = Object.get o k'.
Proof.
  intros Hne. induction o as [|[k0 v0] o IH]; simpl.
  - by rewrite (proj2 (String.eqb_neq k k')).
  - destruct (String.eqb k0 k) eqn:E; simpl.
    + apply String.eqb_eq in E. subst k0.
      by rewrite (proj2 (String.eqb_neq k k')).
    + by rewrite IH.
Qed.

Lemma get_setIndex_eq n o k v : Object.get (Object.setIndex n o k v) k = Some v.
Proof.
  induction o as [|[k' v'] o IH]; simpl.
  - by rewrite String.eqb_refl.
  - destruct (String.eqb k' k) eqn:E; simpl.
    + by rewrite String.eqb_refl.
    + destruct (Object.arrayIndex k') as [n'|]; [destruct (N.ltb n' n) |];
        simpl; by rewrite ?E, ?String.eqb_refl.
Qed.

Lemma get_setIndex_ne n o k k' v :
  k <> k' -> Object.get (Object.setIndex n o k v) k' = Object.get o k'.
Proof.
  intros Hne. pose proof (proj2 (String.eqb_neq k k') Hne) as Hk.
  induction o as [|[k0 v0] o IH]; simpl.
  - by rewrite Hk.
  - destruct (String.eqb k0 k) eqn:E; simpl.
    + apply String.eqb_eq in E. subst k0. by rewrite Hk.
    + destruct (Object.arrayIndex k0) as [n'|]; [destruct (N.ltb n' n) |];
        simpl; by rewrite ?Hk, ?IH.
Qed.

Lemma get_define_eq o k v : Object.get (Object.define o k v) k = Some v.
Proof.
  unfold Object.define. destruct (Object.arrayIndex k);
    [apply get_setIndex_eq | apply get_setNamed_eq].
Qed.

Lemma get_define_ne o k k' v :
  k <> k' -> Object.get (Object.define o k v) k' = Object.get o k'.
Proof.
  intros Hne. unfold Object.define. destruct (Object.arrayIndex k);
    [by apply get_setIndex_ne | by apply get_setNamed_ne].
Qed.

(** An assignment to [__proto__] leaves the own properties as they are
    when there is none of that name. *)
Lemma set_proto o v :
  Object.get o "__proto__" = None -> Object.set o "__proto__" v = o.
Proof. intros H. unfold Object.set, Object.own. by rewrite H. Qed.

Lemma set_define o k v : k <> "__proto__" -> Object.set o k v = Object.define o k v.
Proof.
  intros Hk. unfold Object.set. by rewrite (proj2 (String.eqb_neq _ _) Hk).
Qed.

(** A name other than [__proto__] and array indices is written in place or
    appended. *)
Lemma set_named o k v :
  k <> "__proto__" -> Object.arrayIndex k = None ->
  Object.set o k v = Object.setNamed o k v.
Proof.
  intros Hk Hi. rewrite set_define by done. unfold Object.define. by rewrite Hi.
Qed.

Lemma get_set_eq o k v :
  k <> "__proto__" -> Object.get (Object.set o k v) k = Some v.
Proof. intros Hk. rewrite set_define by done. apply get_define_eq. Qed.

Lemma get_set_ne o k k' v :
  k <> k' -> Object.get (Object.set o k v) k' = Object.get o k'.
Proof.
  intros Hne. unfold Object.set.
  destruct (String.eqb k "__proto__" && negb (Object.own o k)); [done |].
  by apply get_define_ne.
Qed.

Lemma get_Some_In o k v : Object.get o k = Some v -> In (k, v) o.
Proof.
  induction o as [|[k0 v0] o IH]; simpl; [done |].
  destruct (String.eqb k0 k) eqn:E.
  - apply String.eqb_eq in E. intros [= ->]. left. by subst.
  - intros H. right. by apply IH.
Qed.

Lemma get_None_keys o k : Object.get o k = None <-> ~ In k (Object.keys o).
Proof.
  induction o as [|[k0 v0] o IH]; simpl; [tauto |].
  destruct (String.eqb k0 k) eqn:E.
  - apply String.eqb_eq in E. split; [done | intros H; destruct H; by left].
  - apply String.eqb_neq in E. rewrite IH. tauto.
Qed.

Lemma own_keys o k : Object.own o k = true <-> k ∈ Object.keys o.
Proof.
  unfold Object.own, Object.keys.
  induction o as [|[k0 v0] o IH]; simpl.
  - split; [done | intros H; by apply elem_of_nil in H].
  - destruct (String.eqb k0 k) eqn:E.
    + apply String.eqb_eq in E. subst. split; [intros _; by left | done].
    + apply String.eqb_neq in E. rewrite IH.
      split; [intros H; by right |].
      intros H. apply elem_of_cons in H as [->|H]; done.
Qed.

End ObjectFacts.

Section EnumerationFacts.
Context {A : Type}.
Implicit Types (o : list (string * A)) (k : string) (v : A).

Lemma setNamed_pairs (Q : string * A -> Prop) o k v :
  Forall Q o -> Q (k, v) -> Forall Q (Object.setNamed o k v).
Proof.
  intros Ho Hk. induction Ho as [|[k0 v0] o H0 Ho IH]; simpl.
  - by constructor.
  - destruct (String.eqb k0 k); by constructor.
Qed.

Lemma setIndex_pairs (Q : string * A -> Prop) n o k v :
  Forall Q o -> Q (k, v) -> Forall Q (Object.setIndex n o k v).
Proof.
  intros Ho Hk. induction Ho as [|[k0 v0] o H0 Ho IH]; simpl.
  - by constructor.
  - destruct (String.eqb k0 k); [by constructor |].
    destruct (Object.arrayIndex k0) as [n'|]; [destruct (N.ltb n' n) |];
      repeat constructor; done.
Qed.

(** Whatever holds of the properties of [o] and of the one written holds
    of the properties after the assignment. *)
Lemma define_pairs (Q : string * A -> Prop) o k v :
  Forall Q o -> Q (k, v) -> Forall Q (Object.define o k v).
Proof.
  intros Ho Hk. unfold Object.define.
  destruct (Object.arrayIndex k);
    [by apply setIndex_pairs | by apply setNamed_pairs].
Qed.

Lemma set_pairs (Q : string * A -> Prop) o k v :
  Forall Q o -> Q (k, v) -> Forall Q (Object.set o k v).
Proof.
  intros Ho Hk. unfold Object.set.
  destruct (String.eqb k "__proto__" && negb (Object.own o k)); [done |].
  by apply define_pairs.
Qed.

Lemma set_Forall (P : A -> Prop) o k v :
  P v -> Forall (fun kv => P kv.2) o -> Forall (fun kv => P kv.2) (Object.set o k v).
Proof. intros Hv Ho. by apply (set_pairs (fun kv => P kv.2)). Qed.

Lemma keys_pairs (Q : string -> Prop) o :
  Forall (fun kv => Q kv.1) o <-> Forall Q (Object.keys o).
Proof. unfold Object.keys. by rewrite Forall_fmap. Qed.

Lemma keys_setNamed (Q : string -> Prop) o k v :
  Forall Q (Object.keys o) -> Q k -> Forall Q (Object.keys (Object.setNamed o k v)).
Proof.
  rewrite <- !keys_pairs. intros Ho Hk.
  by apply (setNamed_pairs (fun kv => Q kv.1)).
Qed.

Lemma keys_setIndex (Q : string -> Prop) n o k v :
  Forall Q (Object.keys o) -> Q k -> Forall Q (Object.keys (Object.setIndex n o k v)).
Proof.
  rewrite <- !keys_pairs. intros Ho Hk.
  by apply (setIndex_pairs (fun kv => Q kv.1)).
Qed.

(** An assignment adds no name but the one assigned. *)
Lemma keys_set (Q : string -> Prop) o k v :
  Forall Q (Object.keys o) -> Q k -> Forall Q (Object.keys (Object.set o k v)).
Proof.
  rewrite <- !keys_pairs. intros Ho Hk.
  by apply (set_pairs (fun kv => Q kv.1)).
Qed.

Lemma forallb_Forall {X} (f : X -> bool) l :
  forallb f l = true <-> Forall (fun x => f x = true) l.
Proof.
  induction l as [|x l IH]; simpl.
  - split; [constructor | done].
  - rewrite andb_true_iff, IH, Forall_cons. done.
Qed.

Lemma precedes_ne k k' : Object.precedes k k' = true -> k <> k'.
Proof.
  unfold Object.precedes. intros H. apply andb_prop in H as [H _].
  apply negb_true_iff in H. by apply String.eqb_neq.
Qed.

Lemma enumerated_app_l a b :
  Object.enumerated (a ++ b) = true -> Object.enumerated a = true.
Proof.
  induction a as [|k a IH]; simpl; [done |].
  rewrite forallb_app, !andb_true_iff. intros [[H _] He]. auto.
Qed.

Lemma enumerated_NoDup ks : Object.enumerated ks = true -> NoDup ks.
Proof.
  induction ks as [|k ks IH]; simpl; [constructor |].
  rewrite andb_true_iff. intros [Hall He]. constructor; [| by apply IH].
  intros Hin. rewrite forallb_Forall, Forall_forall in Hall.
  by apply (precedes_ne k k (Hall k Hin)).
Qed.

Lemma assignable_app_l a b :
  Object.assignable (a ++ b) = true -> Object.assignable a = true.
Proof.
  unfold Object.assignable. rewrite forallb_app, !andb_true_iff.
  intros [He [Ha _]]. split; [by apply (enumerated_app_l a b) | done].
Qed.

Lemma assignable_NoDup ks : Object.assignable ks = true -> NoDup ks.
Proof.
  unfold Object.assignable. rewrite andb_true_iff. intros [He _].
  by apply enumerated_NoDup.
Qed.

Lemma assignable_proto ks : Object.assignable ks = true -> "__proto__" ∉ ks.
Proof.
  unfold Object.assignable. rewrite andb_true_iff. intros [_ Hp] Hin.
  rewrite forallb_Forall, Forall_forall in Hp. specialize (Hp _ Hin).
  by rewrite String.eqb_refl in Hp.
Qed.

Lemma setNamed_enumerated o k v :
  Object.arrayIndex k = None ->
  Object.enumerated (Object.keys o) = true ->
  Object.enumerated (Object.keys (Object.setNamed o k v)) = true.
Proof.
  intros Hi. induction o as [|[k0 v0] o IH]; simpl; [done |].
  rewrite andb_true_iff. intros [Hall He].
  destruct (String.eqb k0 k) eqn:E; simpl.
  - apply String.eqb_eq in E. subst k0. by rewrite Hall, He.
  - rewrite (IH He), andb_true_r. apply forallb_Forall.
    apply keys_setNamed; [by apply forallb_Forall |].
    unfold Object.precedes. rewrite E, Hi. simpl.
    by destruct (Object.arrayIndex k0).
Qed.

(** A new index goes before a name that an index of no smaller value may
    precede. *)
Lemma precedes_insert k k0 x n :
  Object.arrayIndex k = Some n -> k <> k0 ->
  match Object.arrayIndex k0 with Some n' => N.leb n n' = true | None => True end ->
  Object.precedes k0 x = true -> Object.precedes k x = true.
Proof.
  intros Hi Hne H0 Hx. unfold Object.precedes in *.
  apply andb_prop in Hx as [Hx1 Hx2]. rewrite Hi.
  destruct (Object.arrayIndex x) as [m|] eqn:Em.
  - destruct (Object.arrayIndex k0) as [n'|] eqn:E0; [| done].
    apply N.leb_le in H0, Hx2.
    apply andb_true_intro. split; [| apply N.leb_le; lia].
    apply negb_true_iff, String.eqb_neq. intros ->.
    rewrite Hi in Em. injection Em as <-.
    assert (n' = n) as -> by lia.
    apply Hne. symmetry. by apply (arrayIndex_inj k0 x n).
  - rewrite andb_true_r. apply negb_true_iff, String.eqb_neq. intros ->.
    congruence.
Qed.

Lemma setIndex_enumerated n o k v :
  Object.arrayIndex k = Some n ->
  Object.enumerated (Object.keys o) = true ->
  Object.enumerated (Object.keys (Object.setIndex n o k v)) = true.
Proof.
  intros Hi. induction o as [|[k0 v0] o IH]; simpl; [done |].
  rewrite andb_true_iff. intros [Hall He].
  destruct (String.eqb k0 k) eqn:E.
  - apply String.eqb_eq in E. subst k0. simpl. by rewrite Hall, He.
  - assert (Hne : k <> k0) by (intros ->; by rewrite String.eqb_refl in E).
    assert (Hins : match Object.arrayIndex k0 with
                   | Some n' => N.leb n n' = true
                   | None => True
                   end ->
                   Object.enumerated (k :: k0 :: Object.keys o) = true).
    { intros H0. simpl. rewrite Hall, He, !andb_true_r.
      apply andb_true_intro. split.
      - unfold Object.precedes. rewrite Hi.
        rewrite (proj2 (String.eqb_neq k k0) Hne). simpl.
        by destruct (Object.arrayIndex k0).
      - apply forallb_Forall. apply forallb_Forall in Hall.
        eapply Forall_impl; [exact Hall |]. intros x Hx.
        by apply (precedes_insert k k0 x n). }
    destruct (Object.arrayIndex k0) as [n'|] eqn:E0.
    + destruct (N.ltb n' n) eqn:Hlt.
      * simpl. rewrite (IH He), andb_true_r. apply forallb_Forall.
        apply keys_setIndex; [by apply forallb_Forall |].
        unfold Object.precedes. rewrite E, E0, Hi. simpl.
        apply N.ltb_lt in Hlt. apply N.leb_le. lia.
      * apply Hins. apply N.ltb_ge in Hlt. by apply N.leb_le.
    + by apply Hins.
Qed.

Lemma define_enumerated o k v :
  Object.enumerated (Object.keys o) = true ->
  Object.enumerated (Object.keys (Object.define o k v)) = true.
Proof.
  unfold Object.define. destruct (Object.arrayIndex k) eqn:Hi.
  - by apply setIndex_enumerated.
  - by apply setNamed_enumerated.
Qed.

(** Assignments keep the own names as an object lists them. *)
Lemma set_assignable o k v :
  Object.assignable (Object.keys o) = true ->
  Object.assignable (Object.keys (Object.set o k v)) = true.
Proof.
  intros Ha. destruct (decide (k = "__proto__")) as [->|Hk].
  - rewrite set_proto; [done |].
    apply get_None_keys. rewrite <- list_elem_of_In. by apply assignable_proto.
  - rewrite set_define by done. unfold Object.assignable in *.
    apply andb_prop in Ha as [He Hp].
    apply andb_true_intro. split; [by apply define_enumerated |].
    apply forallb_Forall. rewrite <- (set_define o k v) by done.
    apply keys_set; [by apply forallb_Forall |].
    by apply negb_true_iff, String.eqb_neq.
Qed.

(** A name that may come last is appended. *)
Lemma define_last o k v :
  Object.enumerated (Object.keys o ++ [k]) = true ->
  Object.define o k v = o ++ [(k, v)].
Proof.
  unfold Object.define. destruct (Object.arrayIndex k) as [n|] eqn:Hi;
    induction o as [|[k0 v0] o IH]; simpl; try done;
    rewrite forallb_app, !andb_true_iff; simpl; rewrite andb_true_r;
    intros [[_ Hk] He]; pose proof (precedes_ne _ _ Hk) as Hne;
    rewrite (proj2 (String.eqb_neq k0 k) Hne).
  - unfold Object.precedes in Hk. rewrite Hi in Hk.
    apply andb_prop in Hk as [_ Hk].
    destruct (Object.arrayIndex k0) as [n'|] eqn:E0; [| done].
    apply N.leb_le in Hk.
    assert (Hlt : N.ltb n' n = true).
    { apply N.ltb_lt. assert (n' <> n); [| lia].
      intros ->. apply Hne. by apply (arrayIndex_inj k0 k n). }
    rewrite Hlt. f_equal. by apply IH.
  - f_equal. by apply IH.
Qed.

Lemma set_last o k v :
  Object.assignable (Object.keys o ++ [k]) = true ->
  Object.set o k v = o ++ [(k, v)].
Proof.
  unfold Object.assignable. rewrite forallb_app, !andb_true_iff. simpl.
  rewrite andb_true_r. intros [He [_ Hk]].
  apply negb_true_iff, String.eqb_neq in Hk.
  rewrite set_define by done. by apply define_last.
Qed.

Lemma get_mapValues {B} (h : A -> B) o k :
  Object.get (Object.mapValues h o) k = option_map h (Object.get o k).
Proof.
  induction o as [|[k0 v0] o IH]; simpl; [done |].
  by destruct (String.eqb k0 k).
Qed.

Lemma mapValues_setNamed {B} (h : A -> B) o k v :
  Object.mapValues h (Object.setNamed o k v) =
  Object.setNamed (Object.mapValues h o) k (h v).
Proof.
  induction o as [|[k0 v0] o IH]; simpl; [done |].
  destruct (String.eqb k0 k); simpl; [done | by rewrite IH].
Qed.

Lemma mapValues_setIndex {B} (h : A -> B) n o k v :
  Object.mapValues h (Object.setIndex n o k v) =
  Object.setIndex n (Object.mapValues h o) k (h v).
Proof.
  induction o as [|[k0 v0] o IH]; simpl; [done |].
  destruct (String.eqb k0 k); simpl; [done |].
  destruct (Object.arrayIndex k0) as [n'|]; [destruct (N.ltb n' n) |];
    simpl; by rewrite ?IH.
Qed.

Lemma mapValues_set {B} (h : A -> B) o k v :
  Object.mapValues h (Object.set o k v) = Object.set (Object.mapValues h o) k (h v).
Proof.
  unfold Object.set, Object.define, Object.own. rewrite get_mapValues.
  destruct (Object.get o k); simpl;
    destruct (String.eqb k "__proto__"); simpl; try done;
    destruct (Object.arrayIndex k);
    by rewrite ?mapValues_setIndex, ?mapValues_setNamed.
Qed.

End EnumerationFacts.

Section AssignedFacts.
Context {A B : Type}.

Lemma assigned_assignable (g : A -> B) l : forall acc,
  Object.assignable (Object.keys acc) = true ->
  Object.assignable (Object.keys (Object.assigned g l acc)) = true.
Proof.
  induction l as [|[k v] l IH]; intros acc Ha; [done |].
  unfold Object.assigned in *. simpl. apply IH. by apply set_assignable.
Qed.

Lemma assigned_values (Q : B -> Prop) (g : A -> B) l : forall acc,
  Forall (fun kv => Q kv.2) acc -> Forall (fun kv => Q (g kv.2)) l ->
  Forall (fun kv => Q kv.2) (Object.assigned g l acc).
Proof.
  induction l as [|[k v] l IH]; intros acc Hacc Hl; [done |].
  unfold Object.assigned in *. simpl. inversion Hl; subst.
  apply IH; [| done]. by apply (set_Forall Q).
Qed.

Lemma assigned_ext (g g' : A -> B) l acc :
  Forall (fun kv => g kv.2 = g' kv.2) l ->
  Object.assigned g l acc = Object.assigned g' l acc.
Proof.
  intros Hall. revert acc.
  induction Hall as [|[k v] l Hv _ IH]; intros acc; [done |].
  unfold Object.assigned in *. simpl in *. by rewrite Hv, IH.
Qed.

(** Assigning the properties of an object in their order to an object
    they may follow lists them after its own: over an object, the loop is
    a map on values. *)
Lemma assigned_object (h : A -> B) (o : list (string * A)) : forall acc,
  Object.assignable (Object.keys acc ++ Object.keys o) = true ->
  Object.assigned h o acc = acc ++ Object.mapValues h o.
Proof.
  induction o as [|[k v] o IH]; intros acc Ha.
  - simpl. by rewrite app_nil_r.
  - unfold Object.assigned in *. simpl.
    assert (Hk : Object.assignable (Object.keys acc ++ [k]) = true).
    { apply (assignable_app_l _ (Object.keys o)).
      by rewrite <- app_assoc. }
    rewrite set_last by done.
    rewrite IH; [by rewrite <- app_assoc |].
    unfold Object.keys in *. rewrite map_app. simpl.
    by rewrite <- app_assoc.
Qed.

End AssignedFacts.

Section AssignedTwice.
Context {A B C : Type}.

Lemma mapValues_assigned (h : B -> C) (g : A -> B) l : forall acc,
  Object.mapValues h (Object.assigned g l acc) =
  Object.assigned (fun v => h (g v)) l (Object.mapValues h acc).
Proof.
  induction l as [|[k v] l IH]; intros acc; [done |].
  unfold Object.assigned in *. simpl. by rewrite IH, mapValues_set.
Qed.

End AssignedTwice.

(** ** The stream client *)

Section ChatsFacts.
Context {host : Host}.
Import Chats.

Lemma valueOf_scalar c : scalar (valueOf c) = true.
Proof.
  destruct c as [b|b|w]; simpl; try done.
  repeat case_match; done.
Qed.

Lemma lastAssigned_from key matches acc :
  fold_left (fun acc '(k, c) => if String.eqb k key then Some (valueOf c) else acc)
            matches acc =
  match lastAssigned key matches with Some v => Some v | None => acc end.
Proof.
  unfold lastAssigned. revert acc.
  induction matches as [|[k c] ms IH]; intros acc; simpl; [done |].
  rewrite IH. rewrite (IH (if String.eqb k key then _ else None)).
  destruct (fold_left _ ms None); [done |]. by destruct (String.eqb k key).
Qed.

Lemma lastAssigned_cons key k c matches :
  lastAssigned key ((k, c) :: matches) =
  match lastAssigned key matches with
  | Some v => Some v
  | None => if String.eqb k key then Some (valueOf c) else None
  end.
Proof. unfold lastAssigned at 1. simpl. apply lastAssigned_from. Qed.

(** A field other than [__proto__] holds what the last match for its key
    assigned, and what it held before when no match names it. *)
Lemma assignMatch_get key matches :
  key <> "__proto__" ->
  forall result reached,
  Object.get (fold_left assignMatch matches (result, reached)).1 key =
  match lastAssigned key matches with
  | Some v => Some v
  | None => Object.get result key
  end.
Proof.
  intros Hkey.
  induction matches as [|[k c] ms IH]; intros result reached; [done |].
  rewrite lastAssigned_cons. cbn [fold_left]. unfold assignMatch at 2.
  destruct (String.eqb k "__proto__" && reached && negb (Object.own result k))
    eqn:Hc.
  - rewrite IH. destruct (lastAssigned key ms); [done |].
    apply andb_prop in Hc as [Hc _]. apply andb_prop in Hc as [Hc _].
    apply String.eqb_eq in Hc. subst k.
    destruct (String.eqb_spec "__proto__" key) as [E|E]; [by subst | done].
  - rewrite IH. destruct (lastAssigned key ms); [done |].
    destruct (String.eqb_spec k key) as [E|E].
    + subst. apply get_define_eq.
    + by apply get_define_ne.
Qed.

Lemma assignAll_get key matches result :
  key <> "__proto__" ->
  Object.get (assignAll matches result) key =
  match lastAssigned key matches with
  | Some v => Some v
  | None => Object.get result key
  end.
Proof. intros Hkey. by apply assignMatch_get. Qed.

(** Once the prototype is [null], [__proto__] is assigned like any field. *)
Lemma assignMatch_unreached key matches :
  forall result,
  Object.get (fold_left assignMatch matches (result, false)).1 key =
  match lastAssigned key matches with
  | Some v => Some v
  | None => Object.get result key
  end.
Proof.
  induction matches as [|[k c] ms IH]; intros result; [done |].
  rewrite lastAssigned_cons. cbn [fold_left]. unfold assignMatch at 2.
  rewrite andb_false_r. cbn [andb]. rewrite IH.
  destruct (lastAssigned key ms); [done |].
  destruct (String.eqb_spec k key) as [E|E].
  - subst. apply get_define_eq.
  - by apply get_define_ne.
Qed.

(** The result has an own property [__proto__] only from the matches that
    follow one setting the prototype to [null]. *)
Lemma assignAll_proto matches :
  forall result,
  Object.get result "__proto__" = None ->
  Object.get (assignAll matches result) "__proto__" =
  lastAssigned "__proto__" (afterNullPrototype matches).
Proof.
  unfold assignAll.
  induction matches as [|[k c] ms IH]; intros result Hr; [done |].
  cbn [fold_left afterNullPrototype]. unfold assignMatch at 2.
  unfold Object.own.
  destruct (String.eqb_spec k "__proto__") as [E|E]; cbn [andb negb].
  - subst k. rewrite Hr. cbn [negb andb].
    destruct (isNull (valueOf c)); cbn [negb].
    + rewrite assignMatch_unreached, Hr.
      by destruct (lastAssigned "__proto__" ms).
    + by apply IH.
  - destruct (Object.get result k); cbn [negb andb]; apply IH;
      by rewrite get_define_ne.
Qed.

Lemma assignMatch_scalar matches :
  forall result reached,
  Forall (fun kv => scalar kv.2 = true) result ->
  Forall (fun kv => scalar kv.2 = true)
         (fold_left assignMatch matches (result, reached)).1.
Proof.
  induction matches as [|[k c] ms IH]; intros result reached Hr; [done |].
  cbn [fold_left]. unfold assignMatch at 2.
  destruct (String.eqb k "__proto__" && reached && negb (Object.own result k));
    apply IH; [done |].
  apply (define_pairs (fun kv => scalar kv.2 = true)); [done |].
  apply valueOf_scalar.
Qed.

Lemma assignAll_scalar matches result :
  Forall (fun kv => scalar kv.2 = true) result ->
  Forall (fun kv => scalar kv.2 = true) (assignAll matches result).
Proof. apply assignMatch_scalar. Qed.

Lemma startsWith_head c s a p :
  Str.startsWith (String c s) (String a p) = true -> a = c.
Proof.
  simpl. intros H. apply andb_prop in H as [H _]. by apply Ascii.eqb_eq.
Qed.

(** What [processLine] delivers, case by case. *)
Lemma processLine_delivers currentEvent line v :
  (processLine currentEvent line).2 = Some v <->
  Str.startsWith line "data:" = true /\
  dataStr line <> "" /\ dataStr line <> "null" /\
  currentEvent = "message" /\
  parseData (dataStr line) = Some v.
Proof.
  unfold processLine.
  destruct (Str.startsWith line "data:") eqn:Hd.
  - assert (H0 : String.eqb line "" = false) by (by destruct line).
    assert (Hc : Str.startsWith line ":" = false).
    { destruct line as [|c l]; [done |].
      destruct (Str.startsWith (String c l) ":") eqn:X; [| done].
      apply startsWith_head in X, Hd. congruence. }
    assert (He : Str.startsWith line "event:" = false).
    { destruct line as [|c l]; [done |].
      destruct (Str.startsWith (String c l) "event:") eqn:X; [| done].
      apply startsWith_head in X, Hd. congruence. }
    rewrite H0, Hc, He. cbn [orb].
    destruct (String.eqb (dataStr line) "") eqn:E1; cbn [orb snd].
    { apply String.eqb_eq in E1. split; [done | tauto]. }
    destruct (String.eqb (dataStr line) "null") eqn:E2; cbn [snd].
    { apply String.eqb_eq in E2. split; [done | tauto]. }
    apply String.eqb_neq in E1, E2.
    destruct (String.eqb currentEvent "message") eqn:E3.
    + apply String.eqb_eq in E3. tauto.
    + apply String.eqb_neq in E3. split; [done | tauto].
  - destruct (String.eqb line "" || Str.startsWith line ":");
      [| destruct (Str.startsWith line "event:")];
      cbn [snd]; (split; [done | by intros [? _]]).
Qed.

Lemma splitLines_app a b :
  Str.splitLines (a +:+ b) =
  let '(la, ra) := Str.splitLines a in
  let '(lb, rb) := Str.splitLines (ra +:+ b) in
  (la ++ lb, rb).
Proof.
  induction a as [|c a IH].
  { simpl. rewrite !append_nil_l. by destruct (Str.splitLines b). }
  rewrite append_cons. simpl. rewrite IH.
  destruct (Str.splitLines a) as [la ra].
  destruct (Ascii.eqb c Str.newline) eqn:Hc.
  - by destruct (Str.splitLines (ra +:+ b)) as [lb rb].
  - destruct la as [|l la].
    + rewrite append_cons. simpl. rewrite Hc.
      by destruct (Str.splitLines (ra +:+ b)) as [[|l lb] rb].
    + by destruct (Str.splitLines (ra +:+ b)) as [lb rb].
Qed.

(** What [buffer] holds between chunks has no line feed in it. *)
Lemma splitLines_remainder s :
  Str.splitLines (Str.splitLines s).2 = ([], (Str.splitLines s).2).
Proof.
  induction s as [|c s IH]; [done |]. simpl.
  destruct (Str.splitLines s) as [ls last]. simpl in IH.
  destruct (Ascii.eqb c Str.newline) eqn:Hc; [done |].
  destruct ls as [|l ls]; [| done].
  simpl. by rewrite IH, Hc.
Qed.

Lemma processLines_app currentEvent l1 l2 :
  processLines currentEvent (l1 ++ l2) =
  let '(next, d1) := processLines currentEvent l1 in
  let '(final, d2) := processLines next l2 in
  (final, d1 ++ d2).
Proof.
  revert currentEvent. induction l1 as [|line l1 IH]; intros cur; simpl.
  - by destruct (processLines cur l2).
  - destruct (processLine cur line) as [next delivered].
    rewrite IH. destruct (processLines next l1) as [n1 d1].
    destruct (processLines n1 l2) as [n2 d2]. by destruct delivered.
Qed.

Lemma readChunks_whole chunks : forall buffer currentEvent,
  Str.splitLines buffer = ([], buffer) ->
  readChunks buffer currentEvent chunks =
  (processLines currentEvent
     (Str.splitLines (buffer +:+ ChatPage.concatAll chunks)).1).2.
Proof.
  induction chunks as [|chunk chunks IH]; intros buffer cur Hb.
  - simpl. by rewrite append_empty_r, Hb.
  - simpl. rewrite <- append_assoc.
    rewrite (splitLines_app (buffer +:+ chunk)).
    pose proof (splitLines_remainder (buffer +:+ chunk)) as Hrem.
    destruct (Str.splitLines (buffer +:+ chunk)) as [lines buffer'].
    simpl in Hrem.
    destruct (Str.splitLines (buffer' +:+ ChatPage.concatAll chunks))
      as [lb rb] eqn:Hrest.
    simpl. rewrite processLines_app.
    destruct (processLines cur lines) as [next delivered].
    rewrite (IH buffer' next Hrem), Hrest. simpl.
    by destruct (processLines next lb).
Qed.

(** What [processLine] makes of the event type. *)
Lemma processLine_event currentEvent line :
  (processLine currentEvent line).1 =
    if Str.startsWith line "data:"
    then if String.eqb (dataStr line) "" || String.eqb (dataStr line) "null"
         then currentEvent else "message"
    else if Str.startsWith line "event:" then Str.trim (Str.slice 6 line)
    else currentEvent.
Proof.
  unfold processLine.
  destruct (Str.startsWith line "data:") eqn:Hd.
  - assert (H0 : String.eqb line "" = false) by (by destruct line).
    assert (Hc : Str.startsWith line ":" = false).
    { destruct line as [|c l]; [done |].
      destruct (Str.startsWith (String c l) ":") eqn:X; [| done].
      apply startsWith_head in X, Hd. congruence. }
    assert (He : Str.startsWith line "event:" = false).
    { destruct line as [|c l]; [done |].
      destruct (Str.startsWith (String c l) "event:") eqn:X; [| done].
      apply startsWith_head in X, Hd. congruence. }
    rewrite H0, Hc, He. cbn [orb].
    by destruct (String.eqb (dataStr line) "" || String.eqb (dataStr line) "null").
  - destruct (String.eqb line "" || Str.startsWith line ":") eqn:Hskip;
      [| by destruct (Str.startsWith line "event:")].
    destruct (Str.startsWith line "event:") eqn:He; [| done].
    exfalso. apply orb_prop in Hskip as [Hs|Hs].
    + apply String.eqb_eq in Hs. by subst.
    + destruct line as [|c l]; [done |].
      apply startsWith_head in Hs, He. congruence.
Qed.

(** The events a run of lines delivers, each by its line and the event
    type the lines before it leave. *)
Lemma processLines_delivered currentEvent lines v :
  v ∈ (processLines currentEvent lines).2 <->
  exists before line after,
    lines = before ++ line :: after /\
    (processLine (processLines currentEvent before).1 line).2 = Some v.
Proof.
  revert currentEvent. induction lines as [|l lines IH]; intros cur; simpl.
  - split.
    + intros H. by apply elem_of_nil in H.
    + intros (before & line & after & Heq & _). by destruct before.
  - destruct (processLine cur l) as [next delivered] eqn:E1.
    destruct (processLines next lines) as [final more] eqn:E2. simpl.
    assert (Hmore : v ∈ more <->
              exists before line after,
                lines = before ++ line :: after /\
                (processLine (processLines next before).1 line).2 = Some v).
    { rewrite <- (IH next). by rewrite E2. }
    assert (Hstep : forall P : Prop,
              (v ∈ match delivered with Some w => w :: more | None => more end <->
               delivered = Some v \/ v ∈ more)).
    { intros _. destruct delivered as [w|].
      - rewrite elem_of_cons. split; intros [H|H]; auto; [left | left]; congruence.
      - split; [by right | by intros [H|H]]. }
    rewrite (Hstep True), Hmore. split.
    + intros [->|(before & line & after & -> & Hd)].
      * exists [], l, lines. split; [done |]. simpl. by rewrite E1.
      * exists (l :: before), line, after. split; [done |].
        simpl. rewrite E1. by destruct (processLines next before).
    + intros (before & line & after & Heq & Hd).
      destruct before as [|l' before]; simpl in Heq; injection Heq as <- ->.
      * left. simpl in Hd. by rewrite E1 in Hd.
      * right. exists before, line, after. split; [done |].
        simpl in Hd. rewrite E1 in Hd. by destruct (processLines next before).
Qed.

(** C1, amended: a data line delivers an event exactly when its payload is
    neither empty nor [null] and the current event type is [message]; the
    event is the result of [JSON.parse] when the payload starts with a
    brace (and nothing is delivered when [JSON.parse] throws), and the
    object built by [parsePythonObject] otherwise. The event type is
    [message] at first and after a data line with a payload; an [event:]
    line sets it. The events [streamQuestion] delivers are exactly those
    of the complete lines of the body, each under the event type the lines
    before it leave: every event comes from such a data line, and every
    such data line delivers its event. *)
Theorem C1_delivery_by_json_or_fallback :
  (forall currentEvent line v,
     (processLine currentEvent line).2 = Some v <->
     Str.startsWith line "data:" = true /\
     dataStr line <> "" /\ dataStr line <> "null" /\
     currentEvent = "message" /\
     (Str.startsWith (dataStr line) "{" = true /\
        JSON_parse (dataStr line) = Some v \/
      Str.startsWith (dataStr line) "{" = false /\
        v = Value.Obj (parsePythonObject (dataStr line)))) /\
  (forall currentEvent line,
     (processLine currentEvent line).1 =
       if Str.startsWith line "data:"
       then if String.eqb (dataStr line) "" || String.eqb (dataStr line) "null"
            then currentEvent else "message"
       else if Str.startsWith line "event:" then Str.trim (Str.slice 6 line)
       else currentEvent) /\
  (forall chunks v,
     v ∈ streamQuestion chunks <->
     exists before line after,
       (Str.splitLines (ChatPage.concatAll chunks)).1 = before ++ line :: after /\
       (processLines "message" before).1 = "message" /\
       Str.startsWith line "data:" = true /\
       dataStr line <> "" /\ dataStr line <> "null" /\
       (Str.startsWith (dataStr line) "{" = true /\
          JSON_parse (dataStr line) = Some v \/
        Str.startsWith (dataStr line) "{" = false /\
          v = Value.Obj (parsePythonObject (dataStr line)))).
Proof.
  assert (Hparse : forall payload v,
            parseData payload = Some v <->
            (Str.startsWith payload "{" = true /\ JSON_parse payload = Some v \/
             Str.startsWith payload "{" = false /\
               v = Value.Obj (parsePythonObject payload))).
  { intros payload v. unfold parseData.
    destruct (Str.startsWith payload "{").
    - split; [by left | by intros [[_ ?]|[? _]]].
    - split; [intros [= <-]; by right | intros [[? _]|[_ ->]]; done]. }
  split; [| split].
  - intros cur line v. rewrite processLine_delivers, Hparse. tauto.
  - apply processLine_event.
  - intros chunks v. unfold streamQuestion.
    rewrite (readChunks_whole chunks "" "message") by reflexivity.
    rewrite append_nil_l, processLines_delivered.
    split.
    + intros (before & line & after & Hl & Hd).
      apply processLine_delivers in Hd as (Hs & H1 & H2 & Hc & Hp).
      exists before, line, after. rewrite <- Hparse. tauto.
    + intros (before & line & after & Hl & Hc & Hs & H1 & H2 & Hp).
      exists before, line, after. split; [done |].
      apply processLine_delivers. rewrite Hparse. tauto.
Qed.

(** C3, amended: the events are not validated. An event built by the
    fallback parser has the seven protocol fields; each holds the value of
    the last [key=value] match for it in the line, a string, [null], a
    boolean or a number, and otherwise its default, the empty string for
    [status] and [response] and [null] for the five others. A match for
    another key adds a field of that name; a match for [__proto__] adds
    one only when it follows a match [__proto__=None], which leaves the
    event without a prototype. *)
Theorem C3_fallback_event_fields (payload key : string) :
  Object.get (parsePythonObject payload) key =
    (if String.eqb key "__proto__"
     then lastAssigned key (afterNullPrototype (allMatches payload))
     else match lastAssigned key (allMatches payload) with
          | Some v => Some v
          | None => Object.get initialResult key
          end) /\
  (key ∈ ["status"; "response"; "error"; "tool_name"; "tool_args";
          "tool_result"; "info"] ->
   is_Some (Object.get (parsePythonObject payload) key)) /\
  Forall (fun kv => scalar kv.2 = true) (parsePythonObject payload).
Proof.
  split; [| split].
  - destruct (String.eqb key "__proto__") eqn:E.
    + apply String.eqb_eq in E. subst. by apply assignAll_proto.
    + apply String.eqb_neq in E. by apply assignAll_get.
  - intros Hin. unfold parsePythonObject.
    assert (Hkey : key <> "__proto__").
    { intros ->. repeat (apply elem_of_cons in Hin as [Hin|Hin]; [done |]).
      by apply elem_of_nil in Hin. }
    rewrite (assignAll_get key _ _ Hkey).
    destruct (lastAssigned key (allMatches payload)); [eauto |].
    repeat (apply elem_of_cons in Hin as [->|Hin]; [simpl; eauto |]).
    by apply elem_of_nil in Hin.
  - apply assignAll_scalar. repeat constructor.
Qed.

End ChatsFacts.

Section ChatsCounterexamples.
Import Chats.

(** C1 as stated fails: the data line of the docstring of
    [parsePythonObject] is not JSON, and its event is delivered all the
    same, built by the fallback parser. *)
Lemma C1_fallback_delivers_non_json :
  exists line : string, forall host : Host,
    Str.startsWith (dataStr line) "{" = false /\
    (processLine "message" line).2 =
      Some (Value.Obj
              [("status", Value.Str "response"); ("response", Value.Str "hello");
               ("error", Value.Null); ("tool_name", Value.Null);
               ("tool_args", Value.Null); ("tool_result", Value.Null);
               ("info", Value.Null)]).
Proof.
  exists "data: status='response' error=None response='hello' tool_name=None".
  intros h. split; reflexivity.
Qed.

(** C3 as stated fails: the fallback parser copies whatever status the
    line spells, with a response text beside it. *)
Lemma C3_delivered_event_not_typed :
  exists line : string, forall host : Host,
    exists v, (processLine "message" line).2 = Some v /\ ~ wellTyped v.
Proof.
  exists "data: status='thinking' response='partial'".
  intros h. eexists. split; [reflexivity |].
  intros (props & st & resp & Hv & Hs & Hin & _).
  injection Hv as <-. injection Hs as <-.
  unfold protocolStatuses in Hin.
  repeat (apply elem_of_cons in Hin as [Hin|Hin]; [discriminate Hin |]).
  by apply elem_of_nil in Hin.
Qed.

End ChatsCounterexamples.

(** ** Query strings *)

Section URLSearchParamsFacts.
Import URLSearchParams.

Lemma set_fresh (l : t) name value :
  ~ In name (map fst l) -> set l name value = l ++ [(name, value)].
Proof.
  induction l as [|[n v] l IH]; simpl; [done |].
  intros Hn. destruct (String.eqb n name) eqn:E.
  - apply String.eqb_eq in E. destruct Hn. by left.
  - f_equal. apply IH. tauto.
Qed.

Lemma allChars_app p a b :
  Str.allChars p (a +:+ b) = Str.allChars p a && Str.allChars p b.
Proof.
  induction a as [|c a IH]; [done |].
  rewrite append_cons. simpl. by rewrite IH, andb_assoc.
Qed.

Lemma encodeUnit_plain c :
  Str.allChars (Str.plain "&") (encodeUnit c) = true /\
  Str.allChars (Str.plain "=") (encodeUnit c) = true.
Proof. destruct c as [[] [] [] [] [] [] [] []]; split; reflexivity. Qed.

Lemma encode_plain s :
  Str.allChars (Str.plain "&") (encode s) = true /\
  Str.allChars (Str.plain "=") (encode s) = true.
Proof.
  induction s as [|c s [IH1 IH2]]; [done |].
  simpl. rewrite !allChars_app, IH1, IH2.
  by destruct (encodeUnit_plain c) as [-> ->].
Qed.

Lemma decode_encodeUnit c rest :
  decode (encodeUnit c +:+ rest) = String c (decode rest).
Proof. destruct c as [[] [] [] [] [] [] [] []]; reflexivity. Qed.

Lemma decode_encode s : decode (encode s) = s.
Proof.
  induction s as [|c s IH]; [done |].
  simpl. by rewrite decode_encodeUnit, IH.
Qed.

Lemma span_plain sep a b :
  Str.allChars (Str.plain sep) a = true ->
  Str.span (Str.plain sep) (a +:+ String sep b) = (a, String sep b).
Proof.
  induction a as [|c a IH]; intros Ha.
  - rewrite append_nil_l. simpl. unfold Str.plain. by rewrite Ascii.eqb_refl.
  - simpl in Ha. apply andb_prop in Ha as [Hc Ha].
    rewrite append_cons. simpl. by rewrite Hc, IH.
Qed.

Lemma splitOn_plain sep a :
  Str.allChars (Str.plain sep) a = true -> Str.splitOn sep a = [a].
Proof.
  induction a as [|c a IH]; [done |].
  simpl. intros Ha. apply andb_prop in Ha as [Hc Ha].
  unfold Str.plain in Hc. apply negb_true_iff in Hc. by rewrite Hc, IH.
Qed.

Lemma splitOn_app sep a b :
  Str.allChars (Str.plain sep) a = true ->
  Str.splitOn sep (a +:+ String sep b) = a :: Str.splitOn sep b.
Proof.
  induction a as [|c a IH]; intros Ha.
  - rewrite append_nil_l. simpl. by rewrite Ascii.eqb_refl.
  - simpl in Ha. apply andb_prop in Ha as [Hc Ha].
    unfold Str.plain in Hc. apply negb_true_iff in Hc.
    rewrite append_cons. simpl. by rewrite Hc, IH.
Qed.

Lemma piece_plain e : Str.allChars (Str.plain "&") (piece e) = true.
Proof.
  unfold piece. rewrite !allChars_app.
  destruct (encode_plain e.1) as [-> _]. by destruct (encode_plain e.2) as [-> _].
Qed.

Lemma piece_nonempty e : piece e <> "".
Proof.
  unfold piece. destruct (encode e.1); [| by rewrite append_cons].
  by rewrite append_nil_l.
Qed.

Lemma parsePair_piece e : parsePair (piece e) = e.
Proof.
  unfold parsePair, piece. destruct e as [n v]. simpl.
  replace ("=" +:+ encode v) with (String "=" (encode v)) by done.
  fold (Str.plain "=").
  rewrite span_plain by apply encode_plain.
  simpl. by rewrite !decode_encode.
Qed.

(** Parsing what [toString] wrote gives the entries back. *)
Lemma parse_toString (l : t) : parse (toString l) = l.
Proof.
  unfold parse, toString.
  induction l as [|e l IH]; [done |].
  destruct l as [|e' l].
  - simpl. rewrite splitOn_plain by apply piece_plain.
    rewrite filter_cons_True by apply piece_nonempty.
    rewrite filter_nil. simpl. by rewrite parsePair_piece.
  - change (join "&" (map piece (e :: e' :: l)))
      with (piece e +:+ String "&" (join "&" (map piece (e' :: l)))).
    rewrite splitOn_app by apply piece_plain.
    rewrite filter_cons_True by apply piece_nonempty.
    rewrite map_cons, parsePair_piece. by f_equal.
Qed.

Lemma toString_truthy (l : t) : l <> [] -> JS.truthy (toString l) = true.
Proof.
  destruct l as [|e l]; [done |]. intros _.
  unfold toString. simpl.
  pose proof (piece_nonempty e) as Hne.
  destruct (piece e) as [|c p] eqn:Hp; [done |].
  destruct (map _ l); [done |]. by rewrite append_cons.
Qed.

End URLSearchParamsFacts.

Section UtilsFacts.
Context {host : Host}.
Import Utils.

Lemma present_keys entries k :
  In k (map fst (present entries)) -> In k (map fst entries).
Proof.
  induction entries as [|[key value] entries IH]; simpl; [done |].
  unfold present in *. simpl.
  destruct (isNullish value); simpl; [by right; apply IH |].
  intros [->|H]; [by left | right; by apply IH].
Qed.

(** On a record, whose keys are distinct, [set] only ever appends. *)
Lemma searchParams_present entries : forall acc,
  NoDup (map fst entries) ->
  (forall k, In k (map fst acc) -> ~ In k (map fst entries)) ->
  fold_left
    (fun sp '(key, value) =>
       if isNullish value then sp
       else URLSearchParams.set sp key (toStr value))
    entries acc = acc ++ present entries.
Proof.
  induction entries as [|[key value] entries IH]; intros acc Hnd Hacc.
  - simpl. by rewrite app_nil_r.
  - apply NoDup_cons in Hnd as [Hkey Hnd]. simpl.
    rewrite list_elem_of_In in Hkey.
    unfold present. simpl. fold (present entries).
    destruct (isNullish value).
    + apply IH; [done |]. intros k Hk Hin. apply (Hacc k Hk). by right.
    + rewrite set_fresh by (intros Hin; apply (Hacc key Hin); by left).
      rewrite IH; [by rewrite <- app_assoc | done |].
      intros k Hk Hin. rewrite map_app in Hk. apply in_app_or in Hk as [Hk|Hk].
      * apply (Hacc k Hk). by right.
      * simpl in Hk. destruct Hk as [<-|[]]. done.
Qed.

Lemma present_nil entries :
  Forall (fun e => isNullish e.2 = true) entries -> present entries = [].
Proof.
  induction 1 as [|[k v] entries Hv _ IH]; [done |].
  unfold present in *. simpl in *. by rewrite Hv.
Qed.

Lemma present_cons entries :
  Exists (fun e => isNullish e.2 = false) entries -> present entries <> [].
Proof.
  induction 1 as [[k v] entries Hv|[k v] entries _ IH];
    unfold present in *; simpl in *.
  - by rewrite Hv.
  - by destruct (isNullish v).
Qed.

(** C9: [buildQueryString] returns the empty string when [params] is left
    out or every value in it is [null] or [undefined]; otherwise it returns
    [?] followed by a query string whose entries, read back, are exactly
    the keys with a value that is neither, each value converted with
    [String]. The keys of a record are distinct. *)
Theorem C9_buildQueryString_entries (entries : list (string * param)) :
  NoDup (map fst entries) ->
  buildQueryString None = "" /\
  (Forall (fun e => isNullish e.2 = true) entries ->
   buildQueryString (Some entries) = "") /\
  (Exists (fun e => isNullish e.2 = false) entries ->
   exists query,
     buildQueryString (Some entries) = "?" +:+ query /\
     query = URLSearchParams.toString (present entries) /\
     URLSearchParams.parse query = present entries).
Proof.
  intros Hnd. split; [done |].
  assert (Hfold := searchParams_present entries [] Hnd (fun k H => False_ind _ H)).
  rewrite app_nil_l in Hfold.
  split.
  - intros Hall. unfold buildQueryString. rewrite Hfold.
    by rewrite present_nil.
  - intros Hex. exists (URLSearchParams.toString (present entries)).
    split; [| split; [done | apply parse_toString]].
    unfold buildQueryString. rewrite Hfold.
    by rewrite toString_truthy by (by apply present_cons).
Qed.

End UtilsFacts.

Lemma C9_buildQueryString_witness :
  @Utils.buildQueryString integerHost
     (Some [("page_number", @Utils.PNumber integerHost 2%Z);
            ("page_size", Utils.PUndefined)]) =
  "?page_number=2".
Proof.
  destruct (@C9_buildQueryString_entries integerHost
              [("page_number", @Utils.PNumber integerHost 2%Z);
               ("page_size", Utils.PUndefined)]) as (_ & _ & H).
  - compute_done.
  - destruct H as (query & Hq & -> & _); [by left |].
    rewrite Hq. reflexivity.
Defined.

(** ** Global regular expressions *)

Section ExecAllFacts.
Context {A : Type} (matchAt : string -> option (A * string)).

Lemma length_append a b :
  String.length (a +:+ b) = (String.length a + String.length b)%nat.
Proof. induction a as [|c a IH]; [done |]. rewrite append_cons. simpl. by rewrite IH. Qed.

Lemma execAll_skip a b :
  Str.execAll matchAt (String.length a) (a +:+ b) = Str.execAll matchAt 0 b.
Proof.
  induction a as [|c a IH]; [by destruct b |].
  rewrite append_cons. simpl. apply IH.
Qed.

(** After a match the loop goes on from the end of the match. *)
Lemma execAll_match c t a x rest :
  matchAt (String c t) = Some (x, rest) ->
  t = a +:+ rest ->
  Str.execAll matchAt 0 (String c t) = x :: Str.execAll matchAt 0 rest.
Proof.
  intros Hm ->. simpl. rewrite Hm. f_equal.
  rewrite length_append.
  replace (String.length a + String.length rest - String.length rest)%nat
    with (String.length a) by lia.
  apply execAll_skip.
Qed.

Lemma execAll_nomatch c t :
  matchAt (String c t) = None ->
  Str.execAll matchAt 0 (String c t) = Str.execAll matchAt 0 t.
Proof. intros Hm. simpl. by rewrite Hm. Qed.

(** A stretch where the pattern matches nowhere is passed over. *)
Lemma execAll_pass a b :
  (forall a1 c a2, a = a1 +:+ String c a2 -> matchAt (String c (a2 +:+ b)) = None) ->
  Str.execAll matchAt 0 (a +:+ b) = Str.execAll matchAt 0 b.
Proof.
  induction a as [|c a IH]; intros Hno; [done |].
  rewrite append_cons, execAll_nomatch by (by apply (Hno "")).
  apply IH. intros a1 c' a2 ->. by apply (Hno (String c a1)).
Qed.

End ExecAllFacts.

(** ** The tool card *)

Section ToolCardFacts.
Import ToolCard.

Lemma span_spec p s :
  exists a r,
    Str.span p s = (a, r) /\ s = a +:+ r /\ Str.allChars p a = true /\
    (r = "" \/ exists c r', r = String c r' /\ p c = false).
Proof.
  induction s as [|c s (a & r & Hs & -> & Ha & Hr)].
  - exists "", "". split; [done |]. split; [done |]. split; [done | by left].
  - simpl. destruct (p c) eqn:Hc.
    + exists (String c a), r. rewrite Hs.
      split; [done |]. split; [done |]. split; [| done].
      simpl. by rewrite Hc, Ha.
    + exists "", (String c (a +:+ r)).
      split; [done |]. split; [done |]. split; [done |]. right. eauto.
Qed.

(** A string either lacks the separator or splits at its first one. *)
Lemma first_separator sep s :
  Str.allChars (Str.plain sep) s = true \/
  exists a b, s = a +:+ String sep b /\ Str.allChars (Str.plain sep) a = true.
Proof.
  destruct (span_spec (Str.plain sep) s) as (a & r & _ & -> & Ha & [->|(c & r' & -> & Hc)]).
  - left. by rewrite append_empty_r.
  - right. exists a, r'. split; [| done].
    unfold Str.plain in Hc. apply negb_false_iff, Ascii.eqb_eq in Hc. by subst.
Qed.

Lemma span_all p s : Str.allChars p s = true -> Str.span p s = (s, "").
Proof.
  induction s as [|c s IH]; [done |]. simpl.
  intros H. apply andb_prop in H as [-> H]. by rewrite IH.
Qed.

Lemma matchParam_not_brace c t :
  Ascii.eqb c "{" = false -> matchParam (String c t) = None.
Proof. intros H. simpl. by rewrite H. Qed.

Lemma matchParam_unclosed c t :
  Str.allChars (Str.plain "}") t = true -> matchParam (String c t) = None.
Proof.
  intros Ht. simpl. destruct (Ascii.eqb c "{"); [| done].
  fold (Str.plain "}"). rewrite span_all by done. by destruct t.
Qed.

Lemma matchParam_closed body rest :
  Str.allChars (Str.plain "}") body = true ->
  matchParam (String "{" (body +:+ String "}" rest)) =
  match body with
  | EmptyString => None
  | _ => Some (body, rest)
  end.
Proof.
  intros Hb. simpl. fold (Str.plain "}"). rewrite span_plain by done.
  by destruct body.
Qed.

Lemma allChars_suffix p a c b :
  Str.allChars p (a +:+ String c b) = true ->
  p c = true /\ Str.allChars p b = true.
Proof.
  rewrite allChars_app. simpl. intros H.
  apply andb_prop in H as [_ H]. by apply andb_prop in H.
Qed.

Lemma splitOn_nonempty sep s : Str.splitOn sep s <> [].
Proof.
  destruct s as [|c s]; [done |]. simpl.
  destruct (Ascii.eqb c sep); [done |]. by destruct (Str.splitOn sep s).
Qed.

Lemma closedPieces_plain url :
  Str.allChars (Str.plain "}") url = true -> closedPieces url = [].
Proof. intros H. unfold closedPieces. by rewrite splitOn_plain. Qed.

Lemma closedPieces_cons seg url :
  Str.allChars (Str.plain "}") seg = true ->
  closedPieces (seg +:+ String "}" url) = seg :: closedPieces url.
Proof.
  intros H. unfold closedPieces. rewrite splitOn_app by done.
  pose proof (splitOn_nonempty "}" url).
  simpl. by destruct (Str.splitOn "}" url).
Qed.

Lemma afterBrace_plain seg :
  Str.allChars (Str.plain "{") seg = true -> afterBrace seg = None.
Proof. intros H. unfold afterBrace. fold (Str.plain "{"). by rewrite span_all. Qed.

Lemma afterBrace_split a body :
  Str.allChars (Str.plain "{") a = true ->
  afterBrace (a +:+ String "{" body) =
  match body with
  | EmptyString => None
  | _ => Some body
  end.
Proof.
  intros H. unfold afterBrace. fold (Str.plain "{"). rewrite span_plain by done.
  by destruct body.
Qed.

(** In a stretch without an opening brace the pattern matches nowhere. *)
Lemma execAll_no_open a b :
  Str.allChars (Str.plain "{") a = true ->
  Str.execAll matchParam 0 (a +:+ b) = Str.execAll matchParam 0 b.
Proof.
  intros Ha. apply execAll_pass. intros a1 c a2 ->.
  apply allChars_suffix in Ha as [Hc _].
  apply matchParam_not_brace. unfold Str.plain in Hc. by apply negb_true_iff.
Qed.

(** The matches of the regular expression are the texts after the first
    opening brace of each piece closed by a brace. *)
Lemma execAll_matchParam url :
  Str.execAll matchParam 0 url = omap afterBrace (closedPieces url).
Proof.
  remember (String.length url) as n eqn:Hn.
  revert url Hn. induction n as [n IH] using lt_wf_ind. intros url Hn.
  destruct (first_separator "}" url) as [Hplain|(seg & url' & -> & Hseg)].
  - rewrite closedPieces_plain by done. simpl.
    rewrite <- (append_empty_r url). rewrite (execAll_pass matchParam url ""); [done |].
    intros a1 c a2 ->. apply allChars_suffix in Hplain as [_ Hp].
    rewrite append_empty_r. by apply matchParam_unclosed.
  - rewrite closedPieces_cons by done.
    assert (Hrec : Str.execAll matchParam 0 url' = omap afterBrace (closedPieces url')).
    { apply (IH (String.length url')); [| done].
      rewrite Hn, length_append. simpl. lia. }
    assert (Hclose : Str.execAll matchParam 0 (String "}" url') =
                     Str.execAll matchParam 0 url')
      by (by apply execAll_nomatch).
    destruct (first_separator "{" seg) as [Hno|(a & body & -> & Ha)].
    + rewrite execAll_no_open by done. rewrite Hclose, Hrec.
      simpl. by rewrite afterBrace_plain.
    + rewrite append_assoc, execAll_no_open by done.
      rewrite append_cons. apply allChars_suffix in Hseg as [_ Hbody].
      simpl omap. rewrite afterBrace_split by done.
      destruct body as [|c body].
      * rewrite append_nil_l, execAll_nomatch by reflexivity.
        by rewrite Hclose, Hrec.
      * rewrite (execAll_match matchParam "{" _ (String c body +:+ "}") (String c body) url').
        -- by rewrite Hrec.
        -- by rewrite (matchParam_closed (String c body) url').
        -- by rewrite append_assoc.
Qed.

Lemma truthy_iff s : JS.truthy s = true <-> s <> "".
Proof.
  unfold JS.truthy. rewrite negb_true_iff. apply String.eqb_neq.
Qed.

Lemma names_fold raws acc :
  fold_left
    (fun names raw =>
       let name := Str.trim raw in
       if JS.truthy name then setAdd names name else names)
    raws acc =
  fold_left setAdd (filter (fun name => name <> "") (map Str.trim raws)) acc.
Proof.
  revert acc. induction raws as [|raw raws IH]; intros acc; [done |].
  simpl. destruct (JS.truthy (Str.trim raw)) eqn:Ht.
  - rewrite filter_cons_True by (by apply truthy_iff). simpl. apply IH.
  - rewrite filter_cons_False; [apply IH |].
    intros Hne. apply truthy_iff in Hne. congruence.
Qed.

Lemma filter_all (P : string -> Prop) `{forall x, Decision (P x)} (l : list string) :
  (forall x, x ∈ l -> P x) -> filter P l = l.
Proof.
  induction l as [|x l IH]; intros Hall; [done |].
  rewrite filter_cons_True by (apply Hall; by left).
  f_equal. apply IH. intros y Hy. apply Hall. by right.
Qed.

(** Adding to the set one by one keeps the first occurrences. *)
Lemma setAdd_fold l : forall acc,
  fold_left setAdd l acc = acc ++ filter (fun y => y ∉ acc) (firstOccurrences l).
Proof.
  induction l as [|x l IH]; intros acc.
  - simpl. by rewrite app_nil_r.
  - simpl. rewrite IH. unfold setAdd. case_bool_decide as Hx.
    + rewrite filter_cons_False by (intros Hn; by apply Hn).
      f_equal. rewrite list_filter_filter. apply list_filter_iff.
      intros y. split; [| tauto]. intros Hy. split; [done |].
      intros ->. by apply Hy.
    + rewrite filter_cons_True by done.
      rewrite <- app_assoc. simpl. do 2 f_equal.
      rewrite list_filter_filter. apply list_filter_iff.
      intros y. rewrite not_elem_of_app, list_elem_of_singleton. tauto.
Qed.

Lemma firstOccurrences_NoDup l : NoDup (firstOccurrences l).
Proof.
  induction l as [|x l IH]; simpl; constructor.
  - rewrite list_elem_of_filter. tauto.
  - by apply NoDup_filter.
Qed.

(** The names [extractPathParams] returns are the distinct non-empty
    trimmed names inside braces, in order of first occurrence. *)
Lemma extractPathParams_names url : extractPathParams url = pathParamNames url.
Proof.
  unfold extractPathParams, pathParamNames.
  rewrite names_fold, setAdd_fold, execAll_matchParam. simpl.
  apply filter_all. intros x _ Hx. by apply elem_of_nil in Hx.
Qed.

End ToolCardFacts.

Section NamesFold.
Context {A : Type}.
Implicit Types (o acc : list (string * A)) (k p : string).

(** Names that are no array index. *)
Local Abbreviation named := (fun p : string => Object.arrayIndex p = None).


Lemma setNamed_fresh o k (v : A) :
  k ∉ Object.keys o -> Object.setNamed o k v = o ++ [(k, v)].
Proof.
  induction o as [|[k0 v0] o IH]; simpl; [done |].
  intros Hn. apply not_elem_of_cons in Hn as [Hne Hn].
  rewrite (proj2 (String.eqb_neq k0 k)) by done. f_equal. by apply IH.
Qed.



Variable f : string -> A.

Local Abbreviation build :=
  (fun names acc => fold_left (fun o p => Object.set o p (f p)) names acc).

(** The property a run of assignments leaves under a name. *)
Lemma get_build names : forall acc p,
  Object.get acc "__proto__" = None ->
  Object.get (build names acc) p =
  if bool_decide (p ∈ names /\ p <> "__proto__") then Some (f p)
  else Object.get acc p.
Proof.
  induction names as [|q names IH]; intros acc p Hacc; cbn [fold_left].
  - rewrite bool_decide_eq_false_2; [done |]. intros [H _].
    by apply elem_of_nil in H.
  - assert (Hacc' : Object.get (Object.set acc q (f q)) "__proto__" = None).
    { destruct (decide (q = "__proto__")) as [->|Hq].
      - by rewrite set_proto.
      - by rewrite get_set_ne. }
    rewrite (IH _ p Hacc').
    case_bool_decide as H1; case_bool_decide as H2; try done.
    + destruct H2. split; [right |]; tauto.
    + destruct H2 as [H2 Hp].
      apply elem_of_cons in H2 as [->|H2]; [| tauto].
      by apply get_set_eq.
    + destruct (decide (q = p)) as [->|Hne]; [| by apply get_set_ne].
      destruct (decide (p = "__proto__")) as [->|Hp]; [by rewrite set_proto |].
      destruct H2. split; [by left | done].
Qed.



End NamesFold.

Section NamesFoldExt.
Context {A : Type}.

(** The values assigned to [__proto__] do not matter. *)
Lemma build_ext (f g : string -> A) names : forall acc,
  Object.get acc "__proto__" = None ->
  (forall p, p ∈ names -> p <> "__proto__" -> f p = g p) ->
  fold_left (fun o p => Object.set o p (f p)) names acc =
  fold_left (fun o p => Object.set o p (g p)) names acc.
Proof.
  induction names as [|q names IH]; intros acc Hacc Hfg; [done |].
  simpl. destruct (decide (q = "__proto__")) as [->|Hq].
  - rewrite !set_proto by done. apply IH; [done |].
    intros p Hp. apply Hfg. by right.
  - rewrite (Hfg q) by (done || by left). apply IH.
    + by rewrite get_set_ne.
    + intros p Hp. apply Hfg. by right.
Qed.

End NamesFoldExt.

Section NumeralFacts.




End NumeralFacts.

Section PathSchemaFacts.
Context {host : Host}.
Import ToolCard.







Lemma paramDescription_truthy p :
  Dynamic.truthy (Value.Str (paramDescription p)) = true.
Proof. reflexivity. Qed.


(** An object without own properties is filled to the default. *)
Lemma nextFor_empty props p :
  Dynamic.getProp props p = Value.Obj [] ->
  nextFor props p =
    [("type", Value.Str "string"); ("description", Value.Str (paramDescription p))].
Proof. intros He. unfold nextFor. rewrite He. reflexivity. Qed.



End PathSchemaFacts.

Section PathSchemaCounterexamples.
Import ToolCard.


End PathSchemaCounterexamples.

(** ** The JSON-schema editor *)

Section NodeInduction.
Import JsonSchemaEditor.
Variable P : JsonSchemaNode -> Prop.
Hypothesis P_primitive : forall t d, P (Primitive t d).
Hypothesis P_object :
  forall d props req, Forall (fun kv => P kv.2) props -> P (ObjectNode d props req).
Hypothesis P_array : forall d items, P items -> P (ArrayNode d items).

(** Induction on a schema with the hypothesis on every property. *)
Lemma node_induction (n : JsonSchemaNode) : P n.
Proof.
  revert n. fix IH 1. intros [t d|d props req|d items].
  - apply P_primitive.
  - apply P_object. induction props as [|[k v] props IHp].
    + constructor.
    + constructor; [apply IH | apply IHp].
  - apply P_array, IH.
Qed.

End NodeInduction.


Section EnforceFacts.
Import JsonSchemaEditor.
Variables (rootDepth : Z) (arrayAllowed : bool) (depthAllowed : option Z)
          (allFieldsRequired : bool).

Local Abbreviation enforce :=
  (enforceConstraintsOnNode rootDepth arrayAllowed depthAllowed allFieldsRequired).
Local Abbreviation propsOf :=
  (nextPropsOf rootDepth arrayAllowed depthAllowed allFieldsRequired).
Local Abbreviation reqOf := (nextReqOf allFieldsRequired).

Lemma enforce_primitive t d depth : enforce (Primitive t d) depth = Primitive t d.
Proof. reflexivity. Qed.

Lemma enforce_object d props req depth :
  enforce (ObjectNode d props req) depth =
  if tooDeep depth depthAllowed then Primitive string_t d
  else ObjectNode d (propsOf props depth)
                  (Some (reqOf (propsOf props depth) req)).
Proof. reflexivity. Qed.

Lemma enforce_array d items depth :
  enforce (ArrayNode d items) depth =
  if negb arrayAllowed && negb (Z.eqb depth rootDepth) then Primitive string_t d
  else if tooDeep depth depthAllowed then Primitive string_t d
  else ArrayNode d (enforce items (depth + 1)).
Proof. reflexivity. Qed.

Lemma filter_twice {X} (f : X -> bool) l :
  List.filter f (List.filter f l) = List.filter f l.
Proof.
  induction l as [|x l IH]; [done |]. simpl.
  destruct (f x) eqn:E; simpl; [by rewrite E, IH | done].
Qed.

Lemma nextPropsOf_twice props depth :
  Forall (fun kv => forall depth, enforce (enforce kv.2 depth) depth = enforce kv.2 depth)
         props ->
  propsOf (propsOf props depth) depth = propsOf props depth.
Proof.
  intros Hall. unfold propsOf at 1.
  rewrite (assigned_object _ (propsOf props depth) []).
  - rewrite app_nil_l. unfold propsOf.
    rewrite (mapValues_assigned (fun v => enforce v (depth + 1))).
    apply assigned_ext. eapply Forall_impl; [exact Hall |].
    intros kv Hkv. apply Hkv.
  - rewrite app_nil_l. by apply assigned_assignable.
Qed.

Lemma nextReqOf_twice nextProps req :
  reqOf nextProps (Some (reqOf nextProps req)) = reqOf nextProps req.
Proof.
  unfold reqOf. destruct allFieldsRequired; [done |]. apply filter_twice.
Qed.

Lemma enforce_twice node :
  forall depth, enforce (enforce node depth) depth = enforce node depth.
Proof.
  induction node as [t d|d props req IH|d items IH] using node_induction;
    intros depth.
  - by rewrite !enforce_primitive.
  - rewrite enforce_object. destruct (tooDeep depth depthAllowed) eqn:Hdeep.
    + apply enforce_primitive.
    + rewrite enforce_object, Hdeep.
      by rewrite nextPropsOf_twice, nextReqOf_twice.
  - rewrite enforce_array.
    destruct (negb arrayAllowed && negb (Z.eqb depth rootDepth)) eqn:Harr.
    + apply enforce_primitive.
    + destruct (tooDeep depth depthAllowed) eqn:Hdeep.
      * apply enforce_primitive.
      * by rewrite enforce_array, Harr, Hdeep, IH.
Qed.

(** C10: [enforceConstraintsOnNode] is idempotent. For every schema node
    and every choice of [arrayAllowed], [depthAllowed] and
    [allFieldsRequired], enforcing the constraints from the root depth a
    second time gives the schema the first pass gave. *)
Theorem C10_enforceConstraintsOnNode_idempotent (node : JsonSchemaNode) :
  enforceConstraintsOnNode rootDepth arrayAllowed depthAllowed allFieldsRequired
    (enforceConstraintsOnNode rootDepth arrayAllowed depthAllowed allFieldsRequired
       node rootDepth)
    rootDepth =
  enforceConstraintsOnNode rootDepth arrayAllowed depthAllowed allFieldsRequired
    node rootDepth.
Proof. apply enforce_twice. Qed.

End EnforceFacts.

(** ** The recursion guard *)

Section RecursionGuardFacts.
Import RecursionGuard.
Variable maxDepth : nat.

Lemma enter_reject_keeps stack a why stack' :
  enter maxDepth stack a = (reject why, stack') -> stack' = stack.
Proof.
  unfold enter. repeat case_match; intros [= <- <-] || intros [=]; done.
Qed.

Lemma enter_allow_pushes stack a stack' :
  enter maxDepth stack a = (allow, stack') -> stack' = a :: stack.
Proof. unfold enter. repeat case_match; intros [=]; done. Qed.

(** A call leaves the stack as it found it, whatever happens below it. *)
Lemma invoke_restores : forall t stack, (invoke maxDepth t stack).2 = stack.
Proof.
  fix IH 1. intros [agent calls exit] stack. simpl.
  destruct (enter maxDepth stack agent) as [[|why] stack'] eqn:He; simpl.
  - apply enter_allow_pushes in He. subst stack'.
    assert (Hcalls : forall st,
              fold_left (fun st call => (invoke maxDepth call st).2) calls st = st).
    { induction calls as [|call calls IHc]; intros st; [done |].
      simpl. rewrite IH. apply IHc. }
    by rewrite Hcalls.
  - by apply enter_reject_keeps in He.
Qed.

(** C4: [enter] rejects an agent id that is already in the call stack and
    rejects a push that would exceed the maximum depth; otherwise it pushes
    and allows, so the stack holds no agent twice and never more than the
    maximum depth. A sub-turn that completes, fails or is cancelled, like a
    call that is rejected, leaves the stack as it was before the call: its
    length is the one before the call and no entry stays behind. *)
Theorem C4_guard_rejects_and_releases :
  (forall stack a, a ∈ stack -> enter maxDepth stack a = (reject cycle, stack)) /\
  (forall stack a, a ∉ stack -> maxDepth < length stack + 1 ->
     enter maxDepth stack a = (reject depthExceeded, stack)) /\
  (forall stack a, a ∉ stack -> length stack + 1 <= maxDepth ->
     enter maxDepth stack a = (allow, a :: stack)) /\
  (forall stack a stack',
     enter maxDepth stack a = (allow, stack') ->
     NoDup stack -> NoDup stack' /\ length stack' <= maxDepth) /\
  (forall agent calls exit stack,
     (invoke maxDepth (Turn agent calls exit) stack).2 = stack /\
     length (invoke maxDepth (Turn agent calls exit) stack).2 = length stack) /\
  (forall agent calls exit stack,
     (invoke maxDepth (Turn agent calls exit) stack).1 =
       match (enter maxDepth stack agent).1 with
       | allow => finished exit
       | reject why => rejected why
       end).
Proof.
  split; [| split; [| split; [| split; [| split]]]].
  - intros stack a Hin. unfold enter. by rewrite bool_decide_eq_true_2.
  - intros stack a Hin Hd. unfold enter. rewrite bool_decide_eq_false_2 by done.
    by rewrite (proj2 (Nat.ltb_lt _ _)).
  - intros stack a Hin Hd. unfold enter. rewrite bool_decide_eq_false_2 by done.
    by rewrite (proj2 (Nat.ltb_ge _ _)).
  - intros stack a stack' He Hnd. unfold enter in He.
    case_bool_decide as Hin; [done |].
    destruct (Nat.ltb maxDepth (length stack + 1)) eqn:Hd; [done |].
    injection He as <-. apply Nat.ltb_ge in Hd.
    split; [by constructor | simpl; lia].
  - intros agent calls exit stack. by rewrite invoke_restores.
  - intros agent calls exit stack. simpl.
    destruct (enter maxDepth stack agent) as [[|why] stack']; done.
Qed.

End RecursionGuardFacts.

(** ** The streaming emitter *)

Section EmitterFacts.
Import Emitter.
Variable model : nat -> generation.

Lemma Forall_replicate_plain n s :
  s <> end_turn -> s <> error ->
  Forall (fun e => terminal e = false) (replicate n (Event s None)).
Proof.
  intros H1 H2. apply Forall_replicate. unfold terminal. simpl. by destruct s.
Qed.

Lemma Forall_tool_plain s l :
  s <> end_turn -> s <> error ->
  Forall (fun e => terminal e = false) (map (toolEvent s) l).
Proof.
  intros H1 H2. apply Forall_forall. intros e He.
  apply list_elem_of_fmap in He as (id & -> & _).
  unfold terminal. simpl. by destruct s.
Qed.

(** The generation loop ends the stream with its only closing event. *)
Lemma generating_closed remaining : forall iteration,
  exists before last,
    generating model iteration remaining = before ++ [last] /\
    terminal last = true /\
    Forall (fun e => terminal e = false) before.
Proof.
  induction remaining as [|r IH]; intros iteration; simpl.
  - by exists [], (Event end_turn None).
  - destruct (model iteration) as [fragments|requested completion heartbeats|].
    + exists (replicate fragments (Event response None)), (Event end_turn None).
      split; [done |]. split; [done |]. by apply Forall_replicate_plain.
    + destruct (IH (S iteration)) as (before & last & -> & Hl & Hb).
      exists (map (toolEvent tool_call) requested ++
              map (toolEvent tool_running) requested ++
              replicate heartbeats (Event keepalive None) ++
              map (toolEvent tool_result) completion ++ before), last.
      split; [by rewrite <- !app_assoc |]. split; [done |].
      repeat (apply Forall_app; split); try done;
        first [by apply Forall_tool_plain | by apply Forall_replicate_plain].
    + by exists [], (Event error None).
Qed.

Lemma statusesFor_app id l1 l2 :
  statusesFor id (l1 ++ l2) = statusesFor id l1 ++ statusesFor id l2.
Proof. unfold statusesFor. by rewrite filter_app, map_app. Qed.

Lemma statusesFor_replicate id n s :
  statusesFor id (replicate n (Event s None)) = [].
Proof.
  induction n as [|n IH]; [done |]. simpl. unfold statusesFor in *.
  by rewrite filter_cons_False.
Qed.

Lemma statusesFor_absent id s l :
  id ∉ l -> statusesFor id (map (toolEvent s) l) = [].
Proof.
  induction l as [|x l IH]; intros Hid; [done |].
  apply not_elem_of_cons in Hid as [Hne Hid]. simpl. unfold statusesFor in *.
  rewrite filter_cons_False by (simpl; congruence). by apply IH.
Qed.

Lemma statusesFor_once id s l :
  NoDup l -> id ∈ l -> statusesFor id (map (toolEvent s) l) = [s].
Proof.
  induction 1 as [|x l Hx Hnd IH]; intros Hid.
  - by apply elem_of_nil in Hid.
  - simpl. apply elem_of_cons in Hid as [->|Hid].
    + unfold statusesFor. rewrite filter_cons_True by done. simpl. f_equal.
      by apply (statusesFor_absent x s l).
    + assert (id <> x) by (intros ->; done).
      unfold statusesFor in *. rewrite filter_cons_False by (simpl; congruence).
      by apply IH.
Qed.

(** Later iterations that never request [id] emit nothing for it. *)
Lemma statusesFor_later id remaining : forall iteration,
  (forall i requested completion heartbeats,
     model i = toolBatch requested completion heartbeats ->
     completion ≡ₚ requested) ->
  (forall j, iteration <= j -> id ∉ requestedBy (model j)) ->
  statusesFor id (generating model iteration remaining) = [].
Proof.
  induction remaining as [|r IH]; intros iteration Hperm Hlater; [done |].
  simpl. pose proof (Hlater iteration (le_n _)) as Hhere.
  destruct (model iteration) as [fragments|requested completion heartbeats|] eqn:Hm.
  - by rewrite statusesFor_app, statusesFor_replicate.
  - simpl in Hhere.
    assert (id ∉ completion) by (by rewrite (Hperm _ _ _ _ Hm)).
    rewrite !statusesFor_app, statusesFor_replicate, !statusesFor_absent by done.
    simpl. apply IH; [done |]. intros j Hj. apply Hlater. lia.
  - done.
Qed.

Lemma statusesFor_generating id remaining : forall iteration,
  wellFormed model ->
  statusesFor id (generating model iteration remaining) = [] \/
  statusesFor id (generating model iteration remaining) =
    [tool_call; tool_running; tool_result].
Proof.
  induction remaining as [|r IH]; intros iteration Hwf; [by left |].
  destruct Hwf as (Hnd & Huniq & Hperm).
  simpl. pose proof (Hnd iteration) as Hnd'.
  destruct (model iteration) as [fragments|requested completion heartbeats|] eqn:Hm.
  - left. by rewrite statusesFor_app, statusesFor_replicate.
  - simpl in Hnd'. pose proof (Hperm _ _ _ _ Hm) as Hp.
    rewrite !statusesFor_app, statusesFor_replicate.
    destruct (decide (id ∈ requested)) as [Hin|Hout].
    + right.
      rewrite !statusesFor_once by (done || by rewrite Hp).
      rewrite statusesFor_later; [done | done |].
      intros j Hj Hin'.
      assert (iteration = j); [| lia].
      apply (Huniq iteration j id); [by rewrite Hm | done].
    + assert (id ∉ completion) by (by rewrite Hp).
      rewrite !statusesFor_absent by done. simpl.
      by apply IH.
  - by left.
Qed.

(** C5: the stream of a turn ends with an [end_turn] or [error] event, and
    that event is the only one of the two kinds in the stream, so nothing
    follows it; the events of each tool call id come in the order
    [tool_call], [tool_running], [tool_result]. *)
Theorem C5_one_closing_event_and_tool_order
    (knowledgeBases : bool) (maxIterations : nat) :
  wellFormed model ->
  (exists before last,
     run knowledgeBases model maxIterations = before ++ [last] /\
     terminal last = true /\
     Forall (fun e => terminal e = false) before) /\
  (forall id,
     statusesFor id (run knowledgeBases model maxIterations) = [] \/
     statusesFor id (run knowledgeBases model maxIterations) =
       [tool_call; tool_running; tool_result]).
Proof.
  intros Hwf. unfold run. split.
  - destruct (generating_closed maxIterations 0) as (before & last & -> & Hl & Hb).
    exists ((if knowledgeBases then [Event searching None] else []) ++ before), last.
    split; [by rewrite <- app_assoc |]. split; [done |].
    apply Forall_app. split; [| done]. destruct knowledgeBases; by repeat constructor.
  - intros id. rewrite statusesFor_app.
    replace (statusesFor id (if knowledgeBases then [Event searching None] else []))
      with (@nil status) by (by destruct knowledgeBases).
    by apply statusesFor_generating.
Qed.

End EmitterFacts.

Lemma sampleModel_wellFormed : Emitter.wellFormed Emitter.sampleModel.
Proof.
  split; [| split].
  - intros [|i]; simpl; [compute_done | constructor].
  - intros [|i] [|j] id Hi Hj; simpl in *; try done.
    + by apply elem_of_nil in Hj.
    + by apply elem_of_nil in Hi.
    + by apply elem_of_nil in Hi.
  - intros [|i] requested completion heartbeats; simpl; [| done].
    intros [= <- <- <-]. apply Permutation_swap.
Qed.

Lemma C5_stream_witness :
  (exists before last,
     Emitter.run true Emitter.sampleModel 5 = before ++ [last] /\
     Emitter.terminal last = true /\
     Forall (fun e => Emitter.terminal e = false) before) /\
  (forall id,
     Emitter.statusesFor id (Emitter.run true Emitter.sampleModel 5) = [] \/
     Emitter.statusesFor id (Emitter.run true Emitter.sampleModel 5) =
       [Emitter.tool_call; Emitter.tool_running; Emitter.tool_result]).
Proof.
  exact (C5_one_closing_event_and_tool_order Emitter.sampleModel true 5
           sampleModel_wellFormed).
Defined.

(** * Further properties *)

(** ** The chat page: frame, shown text, loading steps *)

Section ChatViewFacts.
Import ChatPage ChatView.

(** X1: the events of a stream never add, remove or reorder messages, and a
    message whose id is not the one of the question stays as it is. *)
Theorem onMessages_frame (tempId : Z) (events : list Ev.t) (prev : list Msg.t) :
  length (onMessages tempId events prev) = length prev /\
  map Msg.id (onMessages tempId events prev) = map Msg.id prev /\
  (forall i m, prev !! i = Some m -> Msg.id m <> tempId ->
     onMessages tempId events prev !! i = Some m).
Proof.
  rewrite onMessages_map. split; [| split].
  - apply length_map.
  - rewrite map_map. apply map_ext. intros m.
    destruct (Z.eqb (Msg.id m) tempId); [apply updateAll_id | done].
  - intros i m Hi Hid. rewrite list_lookup_fmap, Hi. simpl.
    by rewrite (proj2 (Z.eqb_neq _ _) Hid).
Qed.

Lemma concatAll_app a b : concatAll (a ++ b) = concatAll a +:+ concatAll b.
Proof.
  induction a as [|x a IH]; [done |]. simpl. by rewrite IH, append_assoc.
Qed.

Lemma shownText_app a b : shownText (a ++ b) = shownText a +:+ shownText b.
Proof. unfold shownText. by rewrite map_app, concatAll_app. Qed.

Lemma shownText_single s : shownText [s] = textContribution s.
Proof. unfold shownText. simpl. apply append_empty_r. Qed.

Lemma last_elem_Some_split {A} (l : list A) x :
  JS.last_elem l = Some x -> exists init, l = init ++ [x].
Proof.
  destruct l as [|y l _] using rev_ind; [done |].
  unfold JS.last_elem. rewrite length_app. simpl.
  replace (length l + 1 - 1)%nat with (length l + 0)%nat by lia.
  rewrite lookup_app_r by lia.
  replace (length l + 0 - length l)%nat with O by lia.
  intros [= ->]. eauto.
Qed.

Lemma last_elem_snoc {A} (l : list A) x : JS.last_elem (l ++ [x]) = Some x.
Proof.
  unfold JS.last_elem. rewrite length_app. simpl.
  replace (length l + 1 - 1)%nat with (length l + 0)%nat by lia.
  rewrite lookup_app_r by lia.
  by replace (length l + 0 - length l)%nat with O by lia.
Qed.

Lemma insert_last {A} (init : list A) x y :
  <[(length (init ++ [x]) - 1)%nat := y]> (init ++ [x]) = init ++ [y].
Proof.
  rewrite length_app. simpl.
  replace (length init + 1 - 1)%nat with (length init + 0)%nat by lia.
  by rewrite insert_app_r.
Qed.

(** The two shapes of [appendText]. *)
Lemma appendText_cases steps fragment :
  (exists init lastStep,
     steps = init ++ [lastStep] /\ Step.is_text lastStep = true /\
     appendText steps fragment =
       init ++ [Step.mk (Step.type lastStep)
                        (Some (JS.or_else (Step.content lastStep) "" +:+ fragment))
                        (Step.toolName lastStep) (Step.toolArgs lastStep)
                        (Step.toolResult lastStep) (Step.isLoading lastStep)]) \/
  ((forall lastStep, JS.last_elem steps = Some lastStep -> Step.is_text lastStep = false) /\
   appendText steps fragment = steps ++ [textStep fragment]).
Proof.
  unfold appendText. destruct (JS.last_elem steps) as [ls|] eqn:Hl.
  - destruct (Step.is_text ls) eqn:Ht.
    + left. destruct (last_elem_Some_split _ _ Hl) as [init ->].
      exists init, ls. split; [done |]. split; [done |]. apply insert_last.
    + right. split; [| done]. by intros ? [= <-].
  - right. split; [| done]. by intros ? [=].
Qed.

Lemma shownText_appendText steps fragment :
  shownText (appendText steps fragment) = shownText steps +:+ fragment.
Proof.
  destruct (appendText_cases steps fragment)
    as [(init & ls & -> & Ht & ->)|[_ ->]].
  - rewrite !shownText_app, !shownText_single.
    assert (H1 : textContribution ls = JS.or_else (Step.content ls) "")
      by (unfold textContribution; by rewrite Ht).
    rewrite H1, append_assoc. f_equal.
    unfold textContribution, Step.is_text in *. cbn [Step.type Step.content].
    destruct (Step.type ls); [| done]. apply or_else_some_empty.
  - rewrite shownText_app, shownText_single. f_equal.
    apply or_else_some_empty.
Qed.

(** The steps either hold no running tool step, or split at the last one. *)
Lemma running_split steps :
  Forall (fun s => Step.running s = false) steps \/
  exists pre s post,
    steps = pre ++ s :: post /\ Step.running s = true /\
    Forall (fun s => Step.running s = false) post.
Proof.
  induction steps as [|x steps IH] using rev_ind; [by left |].
  destruct (Step.running x) eqn:Hx.
  - right. exists steps, x, []. by split; [| split].
  - destruct IH as [Hall|(pre & s & post & -> & Hs & Hpost)].
    + left. apply Forall_app. split; [done |]. by constructor.
    + right. exists pre, s, (post ++ [x]).
      split; [by rewrite <- app_assoc |]. split; [done |].
      apply Forall_app. split; [done |]. by constructor.
Qed.

Lemma textContribution_finishStep s data :
  textContribution (finishStep s data) = textContribution s.
Proof. done. Qed.

Lemma shownText_attachResult steps data :
  shownText (attachResult steps data) = shownText steps.
Proof.
  destruct (running_split steps) as [Hall|(pre & s & post & -> & Hs & Hpost)].
  - by rewrite attachResult_none.
  - rewrite attachResult_last_running by done.
    rewrite !shownText_app. f_equal.
Qed.

Lemma shownText_stepsAfter data steps :
  shownText (stepsAfter data steps) =
  shownText steps +:+ concatAll (responseFragments [data]).
Proof.
  unfold stepsAfter, responseFragments.
  destruct (String.eqb (Ev.status data) "response") eqn:Hs.
  - apply String.eqb_eq in Hs. rewrite filter_cons_True, filter_nil by done.
    simpl. rewrite append_empty_r.
    destruct (JS.truthy (Ev.response data)) eqn:Ht.
    + apply shownText_appendText.
    + by rewrite (truthy_false_empty _ Ht), append_empty_r.
  - apply String.eqb_neq in Hs. rewrite filter_cons_False, filter_nil by done.
    simpl. rewrite append_empty_r.
    destruct (String.eqb (Ev.status data) "tool_call").
    + unfold pushToolCall. rewrite shownText_app, shownText_single.
      apply append_empty_r.
    + destruct (String.eqb (Ev.status data) "tool_result"); [| done].
      apply shownText_attachResult.
Qed.

Lemma updateAll_shown events : forall msg,
  Msg.response_text msg = shownText (Msg.steps_or_empty msg) ->
  Msg.response_text (updateAll events msg) =
  shownText (Msg.steps_or_empty (updateAll events msg)).
Proof.
  induction events as [|d events IH]; intros msg Hinv; [done |].
  unfold updateAll in *. simpl. apply IH.
  by rewrite updateMessage_response_text, updateMessage_steps,
    shownText_stepsAfter, Hinv.
Qed.

(** X2: whatever the events of the stream, the response text of the
    question's message is the text of its text steps, in order: the bubbles
    the page shows add up to the stored response. *)
Theorem response_is_shown_text
    (tempId : Z) (now question chatId : string)
    (events : list Ev.t) (prev : list Msg.t) :
  exists m,
    last (onMessages tempId events
            (prev ++ [optimisticMessage tempId now question chatId])) = Some m /\
    Msg.response m = Some (shownText (Msg.steps_or_empty m)).
Proof.
  set (opt := optimisticMessage tempId now question chatId).
  exists (updateAll events opt). split; [by apply onMessages_last |].
  destruct (updateAll_response_some events opt) as [r Hr]; [by eexists |].
  pose proof (updateAll_shown events opt eq_refl) as Hinv.
  unfold Msg.response_text in Hinv at 1.
  rewrite Hr, or_else_some_empty in Hinv. by rewrite Hr, Hinv.
Qed.

Lemma stepsAfter_fragments fragments : forall pre content,
  Forall (fun f => JS.truthy f = true) fragments ->
  fold_left (fun st data => stepsAfter data st) (map responseEvent fragments)
            (pre ++ [textStep content]) =
  pre ++ [textStep (content +:+ concatAll fragments)].
Proof.
  induction fragments as [|f fragments IH]; intros pre content Hall.
  - simpl. by rewrite append_empty_r.
  - apply Forall_cons in Hall as [Hf Hall]. simpl.
    unfold stepsAfter at 2. simpl. rewrite Hf.
    destruct (appendText_cases (pre ++ [textStep content]) f)
      as [(init & ls & Heq & _ & ->)|[Hno _]].
    + apply app_inj_tail in Heq as [<- <-].
      cbn [textStep Step.type Step.content Step.toolName Step.toolArgs
           Step.toolResult Step.isLoading].
      rewrite or_else_some_empty. fold (textStep (content +:+ f)).
      rewrite IH by done. by rewrite append_assoc.
    + specialize (Hno (textStep content) (last_elem_snoc _ _)). done.
Qed.

(** X3: consecutive [response] events with non-empty fragments end up in a
    single text step whose content is the fragments put together. *)
Theorem fragments_merge_into_one_step
    (tempId : Z) (fragments : list string) (prev : list Msg.t) :
  fragments <> [] ->
  Forall (fun f => JS.truthy f = true) fragments ->
  shownSteps tempId (map responseEvent fragments) prev =
  Some [textStep (concatAll fragments)].
Proof.
  intros Hne Hall. unfold shownSteps.
  rewrite onMessages_last by done. simpl. f_equal.
  rewrite updateAll_steps. simpl.
  destruct fragments as [|f fragments]; [done |].
  apply Forall_cons in Hall as [Hf Hall]. simpl.
  unfold stepsAfter at 2. simpl. rewrite Hf.
  change (appendText _ f) with ([] ++ [textStep f]).
  by rewrite stepsAfter_fragments.
Qed.

Lemma fragments_merge_witness :
  shownSteps 1 (map responseEvent ["Hel"; "lo"]) [] = Some [textStep "Hello"].
Proof.
  apply (fragments_merge_into_one_step 1 ["Hel"; "lo"] []).
  - discriminate.
  - repeat constructor.
Defined.




Lemma runningCount_app a b : runningCount (a ++ b) = (runningCount a + runningCount b)%nat.
Proof. unfold runningCount. by rewrite filter_app, length_app. Qed.

Lemma runningCount_none steps :
  Forall (fun s => Step.running s = false) steps -> runningCount steps = O.
Proof.
  intros Hall. unfold runningCount.
  induction Hall as [|s steps Hs _ IH]; [done |].
  rewrite filter_cons_False by congruence. done.
Qed.

Lemma runningCount_single s :
  runningCount [s] = if Step.running s then 1%nat else O.
Proof.
  unfold runningCount. destruct (Step.running s) eqn:Hs.
  - by rewrite filter_cons_True.
  - by rewrite filter_cons_False by congruence.
Qed.

Lemma runningCount_appendText steps fragment :
  runningCount (appendText steps fragment) = runningCount steps.
Proof.
  destruct (appendText_cases steps fragment)
    as [(init & ls & -> & Ht & ->)|[_ ->]].
  - rewrite !runningCount_app. f_equal.
    assert (Htext : forall s, Step.is_text s = true -> Step.running s <> true).
    { intros s. unfold Step.is_text, Step.running. by destruct (Step.type s). }
    unfold runningCount. rewrite !filter_cons_False; [done | | ].
    + by apply Htext.
    + by apply Htext.
  - rewrite runningCount_app. unfold runningCount at 2.
    rewrite filter_cons_False by done. simpl. lia.
Qed.

Lemma runningCount_attachResult steps data :
  runningCount (attachResult steps data) = pred (runningCount steps).
Proof.
  destruct (running_split steps) as [Hall|(pre & s & post & -> & Hs & Hpost)].
  - by rewrite attachResult_none, runningCount_none.
  - rewrite attachResult_last_running by done.
    rewrite !runningCount_app.
    change (finishStep s data :: post) with ([finishStep s data] ++ post).
    change (s :: post) with ([s] ++ post).
    rewrite !runningCount_app, (runningCount_none post) by done.
    rewrite (runningCount_single (finishStep s data)), (runningCount_single s).
    rewrite running_finishStep, Hs. lia.
Qed.

(** X5: a [tool_call] event adds one loading tool step, a [tool_result]
    event clears one if there is any and is ignored otherwise, and no other
    event changes the number of loading steps. *)
Theorem loading_steps_count (data : Ev.t) (msg : Msg.t) :
  runningCount (Msg.steps_or_empty (updateMessage data msg)) =
    if String.eqb (Ev.status data) "tool_call"
    then S (runningCount (Msg.steps_or_empty msg))
    else if String.eqb (Ev.status data) "tool_result"
    then pred (runningCount (Msg.steps_or_empty msg))
    else runningCount (Msg.steps_or_empty msg).
Proof.
  rewrite updateMessage_steps. unfold stepsAfter.
  destruct (String.eqb (Ev.status data) "response") eqn:Hs.
  - apply String.eqb_eq in Hs. rewrite Hs. simpl.
    destruct (JS.truthy (Ev.response data)); [| done].
    apply runningCount_appendText.
  - destruct (String.eqb (Ev.status data) "tool_call").
    + unfold pushToolCall. rewrite runningCount_app.
      unfold runningCount at 2. rewrite filter_cons_True by done. simpl. lia.
    + destruct (String.eqb (Ev.status data) "tool_result"); [| done].
      apply runningCount_attachResult.
Qed.

Set Warnings "-clear-no-such-hyp".

(** X6: toggling a tool card twice restores the set of expanded cards, and
    toggling one card never changes whether another is expanded. *)
Theorem toggleToolExpansion_involutive (prev : gset string) (toolId other : string) :
  toggleToolExpansion (toggleToolExpansion prev toolId) toolId = prev /\
  (toolId ∈ toggleToolExpansion prev toolId <-> toolId ∉ prev) /\
  (other <> toolId -> (other ∈ toggleToolExpansion prev toolId <-> other ∈ prev)).
Proof.
  unfold toggleToolExpansion.
  destruct (decide (toolId ∈ prev)) as [Hin|Hout].
  - rewrite (bool_decide_eq_true_2 _ Hin).
    rewrite bool_decide_eq_false_2 by set_solver.
    split; [| split].
    + apply set_eq. intros x. destruct (decide (x = toolId)); set_solver.
    + set_solver.
    + set_solver.
  - rewrite (bool_decide_eq_false_2 _ Hout).
    rewrite bool_decide_eq_true_2 by set_solver.
    split; [| split]; set_solver.
Qed.

End ChatViewFacts.

(** ** The stream client: chunks and the textual notation *)

Section StreamBodyFacts.
Context {host : Host}.
Import Chats.

(** X7: what [streamQuestion] delivers depends on the body only, not on how
    it is cut into chunks: it is what the complete lines of the whole body
    deliver. The text after the last line feed is never processed. *)
Theorem streamQuestion_chunking (chunks : list string) :
  streamQuestion chunks =
  (processLines "message" (Str.splitLines (ChatPage.concatAll chunks)).1).2.
Proof. unfold streamQuestion. by rewrite readChunks_whole. Qed.

Lemma span_stop p a c b :
  Str.allChars p a = true -> p c = false ->
  Str.span p (a +:+ String c b) = (a, String c b).
Proof.
  induction a as [|x a IH]; intros Ha Hc.
  - rewrite append_nil_l. simpl. by rewrite Hc.
  - simpl in Ha. apply andb_prop in Ha as [Hx Ha].
    rewrite append_cons. simpl. by rewrite Hx, IH.
Qed.

Lemma span_decompose p s : s = (Str.span p s).1 +:+ (Str.span p s).2.
Proof.
  induction s as [|c s IH]; [done |]. simpl.
  destruct (p c); [| done]. destruct (Str.span p s) as [a b]. simpl in *.
  by rewrite append_cons, <- IH.
Qed.

(** Without an equals sign the pattern matches nowhere. *)
Lemma matchAt_no_equals s :
  Str.allChars (Str.plain "=") s = true -> matchAt s = None.
Proof.
  intros Hs. unfold matchAt, word.
  pose proof (span_decompose Str.isWord s) as Hd.
  destruct (Str.span Str.isWord s) as [w rest]. simpl in Hd.
  destruct w as [|x w]; [done |]. destruct rest as [|c rest]; [done |].
  destruct (Ascii.eqb c "=") eqn:Hc; [| done].
  rewrite Hd in Hs. apply allChars_suffix in Hs as [Hp _].
  unfold Str.plain in Hp. by rewrite Hc in Hp.
Qed.

(** X8: a payload without an equals sign assigns nothing: the fallback
    parser returns its defaults, an event with the empty status. *)
Theorem parsePythonObject_without_equals (payload : string) :
  Str.allChars (Str.plain "=") payload = true ->
  parsePythonObject payload = initialResult.
Proof.
  intros Hp. unfold parsePythonObject, allMatches.
  rewrite <- (append_empty_r payload).
  rewrite (execAll_pass matchAt payload ""); [done |].
  intros a1 c a2 ->. apply matchAt_no_equals. rewrite append_empty_r.
  rewrite allChars_app in Hp. by apply andb_prop in Hp as [_ Hp].
Qed.

End StreamBodyFacts.

Lemma parsePythonObject_without_equals_witness :
  @Chats.parsePythonObject integerHost "hello world" =
  @Chats.initialResult integerHost.
Proof.
  apply (@parsePythonObject_without_equals integerHost "hello world").
  reflexivity.
Defined.

Section ReprFacts.
Context {host : Host}.
Import Chats Repr.

Lemma startsWith_append lit rest : Str.startsWith (lit +:+ rest) lit = true.
Proof.
  induction lit as [|c lit IH]; [by destruct rest |].
  rewrite append_cons. simpl. by rewrite Ascii.eqb_refl, IH.
Qed.

Lemma slice_append lit rest : Str.slice (String.length lit) (lit +:+ rest) = rest.
Proof.
  induction lit as [|c lit IH]; [by destruct rest |].
  by rewrite append_cons.
Qed.

Lemma literal_match lit rest : literal lit (lit +:+ rest) = Some rest.
Proof. unfold literal. by rewrite startsWith_append, slice_append. Qed.

Lemma matchValue_render c rest :
  match c with
  | SingleQuoted body => Str.allChars (Str.plain Str.squote) body = true
  | DoubleQuoted body => Str.allChars (Str.plain Str.dquote) body = true
  | Bare fullValue => fullValue ∈ ["None"; "True"; "False"]
  end ->
  matchValue (renderValue c +:+ rest) = Some (c, rest).
Proof.
  destruct c as [body|body|w]; intros Hc.
  - unfold renderValue. rewrite append_cons, append_assoc, append_cons, append_nil_l.
    unfold matchValue, quoted. rewrite Ascii.eqb_refl.
    fold (Str.plain Str.squote). by rewrite span_plain.
  - unfold renderValue. rewrite append_cons, append_assoc, append_cons, append_nil_l.
    unfold matchValue, quoted.
    replace (Ascii.eqb Str.dquote Str.squote) with false by reflexivity.
    rewrite Ascii.eqb_refl.
    fold (Str.plain Str.dquote). by rewrite span_plain.
  - unfold renderValue, matchValue.
    repeat (apply elem_of_cons in Hc as [->|Hc];
            [ replace (quoted Str.squote (_ +:+ rest))
                with (@None (string * string)) by reflexivity;
              replace (quoted Str.dquote (_ +:+ rest))
                with (@None (string * string)) by reflexivity;
              repeat first
                [ by rewrite literal_match
                | match goal with
                  | |- context [literal ?lit (?w +:+ rest)] =>
                      replace (literal lit (w +:+ rest)) with (@None string)
                        by reflexivity
                  end ] |]).
    by apply elem_of_nil in Hc.
Qed.

Lemma matchAt_render f rest :
  wellFormedField f -> matchAt (renderField f +:+ rest) = Some (f, rest).
Proof.
  destruct f as [key c]. intros (Hne & Hword & Hc). simpl in *.
  unfold renderField, matchAt, word. simpl.
  rewrite append_assoc, append_cons.
  rewrite span_stop by done.
  destruct key as [|x key]; [done |].
  rewrite Ascii.eqb_refl. by rewrite matchValue_render.
Qed.

Lemma execAll_render f rest :
  wellFormedField f ->
  Str.execAll matchAt 0 (renderField f +:+ rest) = f :: Str.execAll matchAt 0 rest.
Proof.
  intros Hf. pose proof (matchAt_render f rest Hf) as Hm.
  destruct f as [key c]. destruct Hf as (Hne & _ & _). simpl in Hne.
  destruct key as [|x key]; [done |].
  unfold renderField in *. simpl in *.
  rewrite append_cons in *.
  by apply (execAll_match matchAt x _ (key +:+ String "=" (renderValue c))).
Qed.

Lemma allMatches_render fields :
  Forall wellFormedField fields -> allMatches (renderLine fields) = fields.
Proof.
  unfold allMatches, renderLine.
  induction 1 as [|f fields Hf Hall IH]; [done |].
  destruct fields as [|f' fields].
  - simpl. rewrite <- (append_empty_r (renderField f)).
    by rewrite execAll_render.
  - change (URLSearchParams.join " " (map renderField (f :: f' :: fields)))
      with (renderField f +:+ String " " (URLSearchParams.join " " (map renderField (f' :: fields)))).
    rewrite execAll_render by done. f_equal.
    rewrite execAll_nomatch by reflexivity. exact IH.
Qed.

(** X9: the fallback parser reads back a line written in the textual
    notation. For fields whose keys are words and whose values are quoted
    strings or [None], [True], [False], written [key=value] and separated
    by spaces, the matches are exactly the fields, in order, so the result
    is the defaults overridden by those fields. *)
Theorem parsePythonObject_reads_notation (fields : list (string * captured)) :
  Forall wellFormedField fields ->
  allMatches (renderLine fields) = fields /\
  parsePythonObject (renderLine fields) = assignAll fields initialResult.
Proof.
  intros Hf. split; [by apply allMatches_render |].
  unfold parsePythonObject. by rewrite allMatches_render.
Qed.

End ReprFacts.

Lemma parsePythonObject_reads_notation_witness :
  @Chats.allMatches
    (Repr.renderLine
       [("status", Chats.SingleQuoted "response"); ("error", Chats.Bare "None");
        ("response", Chats.DoubleQuoted "hello")]) =
    [("status", Chats.SingleQuoted "response"); ("error", Chats.Bare "None");
     ("response", Chats.DoubleQuoted "hello")] /\
  @Chats.parsePythonObject integerHost
    (Repr.renderLine
       [("status", Chats.SingleQuoted "response"); ("error", Chats.Bare "None");
        ("response", Chats.DoubleQuoted "hello")]) =
    @Chats.assignAll integerHost
      [("status", Chats.SingleQuoted "response"); ("error", Chats.Bare "None");
       ("response", Chats.DoubleQuoted "hello")]
      (@Chats.initialResult integerHost).
Proof.
  apply (@parsePythonObject_reads_notation integerHost).
  repeat constructor; simpl; try done; set_solver.
Defined.

(** ** The tool card: the extracted names and the rebuilt schema *)

Section PathNamesFacts.
Import ToolCard.

Lemma trimStart_head c s :
  Str.isSpace c = false -> Str.trimStart (String c s) = String c s.
Proof. intros Hc. unfold Str.trimStart. simpl. by rewrite Hc. Qed.

Lemma trimStart_cases s :
  Str.trimStart s = "" \/
  exists c t, Str.trimStart s = String c t /\ Str.isSpace c = false.
Proof.
  unfold Str.trimStart.
  destruct (span_spec Str.isSpace s) as (a & r & -> & _ & _ & [->|(c & r' & -> & Hc)]);
    simpl; eauto.
Qed.

Lemma trimEnd_head c s :
  Str.isSpace c = false -> exists t, Str.trimEnd (String c s) = String c t.
Proof.
  intros Hc. simpl. destruct (Str.trimEnd s); [rewrite Hc |]; eauto.
Qed.

Lemma trimEnd_twice s : Str.trimEnd (Str.trimEnd s) = Str.trimEnd s.
Proof.
  induction s as [|c s IH]; [done |]. simpl.
  destruct (Str.trimEnd s) as [|x r] eqn:Ht.
  - destruct (Str.isSpace c) eqn:Hc; [done |]. simpl. by rewrite Hc.
  - change (Str.trimEnd (String c (String x r)))
      with (match Str.trimEnd (String x r) with
            | EmptyString => if Str.isSpace c then "" else String c ""
            | t' => String c t'
            end).
    by rewrite IH.
Qed.

(** [trim] leaves a trimmed string alone. *)
Lemma trim_twice s : Str.trim (Str.trim s) = Str.trim s.
Proof.
  unfold Str.trim.
  destruct (trimStart_cases s) as [->|(c & t & -> & Hc)]; [done |].
  destruct (trimEnd_head c t Hc) as [t' Ht]. rewrite Ht.
  rewrite trimStart_head by done. rewrite <- Ht. apply trimEnd_twice.
Qed.

Lemma allChars_span p q s :
  Str.allChars p s = true -> Str.allChars p (Str.span q s).2 = true.
Proof.
  induction s as [|c s IH]; [done |]. simpl. intros H.
  destruct (q c); [| done]. apply andb_prop in H as [_ H].
  destruct (Str.span q s). by apply IH.
Qed.

Lemma allChars_trimEnd p s :
  Str.allChars p s = true -> Str.allChars p (Str.trimEnd s) = true.
Proof.
  induction s as [|c s IH]; [done |]. simpl. intros H.
  apply andb_prop in H as [Hc H]. specialize (IH H).
  destruct (Str.trimEnd s); [destruct (Str.isSpace c) |]; simpl; by rewrite ?Hc.
Qed.

Lemma allChars_trim p s :
  Str.allChars p s = true -> Str.allChars p (Str.trim s) = true.
Proof. intros H. by apply allChars_trimEnd, allChars_span. Qed.

Lemma closedPieces_plain_pieces url :
  Forall (fun piece => Str.allChars (Str.plain "}") piece = true) (closedPieces url).
Proof.
  remember (String.length url) as n eqn:Hn.
  revert url Hn. induction n as [n IH] using lt_wf_ind. intros url Hn.
  destruct (first_separator "}" url) as [Hplain|(seg & url' & -> & Hseg)].
  - by rewrite closedPieces_plain.
  - rewrite closedPieces_cons by done. constructor; [done |].
    apply (IH (String.length url')); [| done].
    rewrite Hn, length_append. simpl. lia.
Qed.

Lemma afterBrace_plain_body piece body :
  Str.allChars (Str.plain "}") piece = true ->
  afterBrace piece = Some body ->
  Str.allChars (Str.plain "}") body = true.
Proof.
  intros Hp. unfold afterBrace.
  pose proof (allChars_span (Str.plain "}") (fun x => negb (Ascii.eqb x "{")) piece Hp) as Hs.
  destruct (Str.span _ piece) as [a r]. simpl in Hs.
  destruct r as [|c [|c' r]]; try done. intros [= <-].
  simpl in Hs. by apply andb_prop in Hs as [_ Hs].
Qed.

(** X10: the names [extractPathParams] returns are distinct; each is
    non-empty, has no white space at either end and holds no closing
    brace. *)
Theorem extractPathParams_names_clean (url : string) :
  NoDup (extractPathParams url) /\
  Forall (fun name => JS.truthy name = true /\ Str.trim name = name /\
                      Str.allChars (Str.plain "}") name = true)
         (extractPathParams url).
Proof.
  rewrite extractPathParams_names. unfold pathParamNames.
  split; [apply firstOccurrences_NoDup |].
  set (raws := omap afterBrace (closedPieces url)).
  assert (Hraws : Forall (fun raw => Str.allChars (Str.plain "}") raw = true) raws).
  { apply Forall_forall. intros raw Hin.
    apply list_elem_of_omap in Hin as (piece & Hin & Hsome).
    eapply afterBrace_plain_body; [| exact Hsome].
    by eapply (proj1 (Forall_forall _ _) (closedPieces_plain_pieces url)). }
  set (names := filter (fun name => name <> "") (map Str.trim raws)).
  assert (Hnames : Forall (fun name => JS.truthy name = true /\ Str.trim name = name /\
                                       Str.allChars (Str.plain "}") name = true) names).
  { apply Forall_forall. intros name Hin.
    apply list_elem_of_filter in Hin as [Hne Hin].
    apply list_elem_of_fmap in Hin as (raw & -> & Hraw).
    split; [by apply truthy_iff |]. split; [apply trim_twice |].
    apply allChars_trim. by apply (proj1 (Forall_forall _ _) Hraws). }
  clearbody names. clear raws Hraws.
  induction Hnames as [|x names Hx _ IH]; [constructor |].
  simpl. constructor; [done |].
  apply Forall_forall. intros y Hy. apply list_elem_of_filter in Hy as [_ Hy].
  by apply (proj1 (Forall_forall _ _) IH).
Qed.

(** X11: a URL without an opening brace, or without a closing brace, has
    no path parameters. *)
Theorem extractPathParams_without_braces (url : string) :
  Str.allChars (Str.plain "{") url = true \/
  Str.allChars (Str.plain "}") url = true ->
  extractPathParams url = [].
Proof.
  intros [Hopen|Hclose]; unfold extractPathParams.
  - rewrite <- (append_empty_r url), execAll_no_open by done. done.
  - by rewrite execAll_matchParam, closedPieces_plain.
Qed.

Lemma extractPathParams_without_braces_witness :
  extractPathParams "https://api.example.com/webhook" = [].
Proof.
  apply (extractPathParams_without_braces "https://api.example.com/webhook").
  left. reflexivity.
Defined.

End PathNamesFacts.

Section RebuiltSchemaFacts.
Context {host : Host}.
Import ToolCard.

Lemma missing_set_eq (next : list (string * Value.t num)) k v :
  k <> "__proto__" ->
  Dynamic.truthy v = true -> missing (Object.set next k v) k = false.
Proof. intros Hk Hv. unfold missing. by rewrite get_set_eq; simpl; rewrite ?Hv. Qed.

Lemma missing_set_ne (next : list (string * Value.t num)) k k' v :
  k <> k' -> missing (Object.set next k v) k' = missing next k'.
Proof. intros Hne. unfold missing. by rewrite get_set_ne. Qed.

(** After the two defaults, [next] has a type and a description. *)
Lemma nextFor_filled props p :
  missing (nextFor props p) "type" = false /\
  missing (nextFor props p) "description" = false.
Proof.
  unfold nextFor.
  set (next0 := if Dynamic.truthy (Dynamic.getProp props p)
                   && Dynamic.typeofObject (Dynamic.getProp props p)
                then Dynamic.spread (Dynamic.getProp props p)
                else [("type", Value.Str "string");
                      ("description", Value.Str (paramDescription p))]).
  set (next1 := if missing next0 "type"
                then Object.set next0 "type" (Value.Str "string") else next0).
  assert (H1 : missing next1 "type" = false).
  { unfold next1. destruct (missing next0 "type") eqn:Hm; [| done].
    by apply missing_set_eq. }
  destruct (missing next1 "description") eqn:Hd.
  - split; [by rewrite missing_set_ne |].
    apply missing_set_eq; [done | apply paramDescription_truthy].
  - done.
Qed.

(** A property that already has a type and a description is kept as it
    is. *)
Lemma nextFor_keeps props p next :
  Dynamic.getProp props p = Value.Obj next ->
  missing next "type" = false -> missing next "description" = false ->
  nextFor props p = next.
Proof.
  intros He Ht Hd. unfold nextFor. rewrite He. simpl. by rewrite Ht, Hd.
Qed.

Lemma description_truthy (s : Value.t num) : Dynamic.truthy (description s) = true.
Proof.
  unfold description.
  destruct (currentIsObject s && Dynamic.truthy (Dynamic.getProp s "description")) eqn:H;
    [| done].
  by apply andb_prop in H as [_ H].
Qed.

(** A field that is not missing holds a truthy value. *)
Lemma missing_false (next : list (string * Value.t num)) k :
  missing next k = false ->
  exists v, Object.get next k = Some v /\ Dynamic.truthy v = true.
Proof.
  unfold missing. destruct (Object.get next k) as [v|]; simpl; [| done].
  intros H. apply negb_false_iff in H. eauto.
Qed.

(** X12: every parameter other than [__proto__] has, in the schema built
    for a URL, a property with a truthy type and a truthy description,
    whatever the prior schema holds. *)
Theorem path_properties_have_type_and_description (url : string) (s : Value.t num) :
  exists properties,
    Object.get (buildPathParamsSchema (extractPathParams url) s) "properties" =
      Some (Value.Obj properties) /\
    forall p, p ∈ extractPathParams url -> p <> "__proto__" ->
      exists next type description,
        Object.get properties p = Some (Value.Obj next) /\
        Object.get next "type" = Some type /\ Dynamic.truthy type = true /\
        Object.get next "description" = Some description /\
        Dynamic.truthy description = true.
Proof.
  eexists. split; [reflexivity |].
  intros p Hp Hproto.
  destruct (nextFor_filled (currentProps s) p) as [Ht Hd].
  apply missing_false in Ht as (t & Ht & Htt).
  apply missing_false in Hd as (d & Hd & Hdt).
  exists (nextFor (currentProps s) p), t, d.
  split; [| done].
  rewrite (get_build (fun p => Value.Obj (nextFor (currentProps s) p))) by done.
  by rewrite bool_decide_eq_true_2.
Qed.

(** X13: building the schema again from the schema just built, for the same
    URL, changes nothing: retyping a URL keeps the path schema, edits to
    its properties included. *)
Theorem path_schema_rebuild_idempotent (url : string) (s : Value.t num) :
  buildPathParamsSchema (extractPathParams url)
    (Value.Obj (buildPathParamsSchema (extractPathParams url) s)) =
  buildPathParamsSchema (extractPathParams url) s.
Proof.
  set (names := extractPathParams url).
  set (f := fun p => Value.Obj (nextFor (currentProps s) p)).
  set (props1 := fold_left (fun o p => Object.set o p (f p)) names []).
  set (built := [("type", Value.Str "object"); ("description", description s);
                 ("properties", Value.Obj props1);
                 ("required", Value.Arr (map Value.Str names))]).
  change (buildPathParamsSchema names s) with built.
  assert (Hobj : currentIsObject (Value.Obj built) = true) by reflexivity.
  assert (Hprops : currentProps (Value.Obj built) = Value.Obj props1).
  { unfold currentProps. rewrite Hobj. reflexivity. }
  assert (Hdesc : description (Value.Obj built) = description s).
  { unfold description at 1. rewrite Hobj.
    change (Dynamic.getProp (Value.Obj built) "description") with (description s).
    by rewrite description_truthy. }
  unfold buildPathParamsSchema at 1. rewrite Hprops, Hdesc.
  unfold built. do 5 f_equal.
  apply build_ext; [done |]. intros p Hp Hproto. unfold f. f_equal.
  destruct (nextFor_filled (currentProps s) p) as [Ht Hd].
  apply nextFor_keeps; [| done | done].
  unfold Dynamic.getProp, props1.
  rewrite (get_build f names [] p) by done.
  by rewrite bool_decide_eq_true_2.
Qed.

End RebuiltSchemaFacts.

(** ** The schema editor under its flags *)

Section ObjectFacts.
Context {A : Type}.

Lemma mapValues_same (h : A -> A) (o : list (string * A)) :
  Forall (fun kv => h kv.2 = kv.2) o -> Object.mapValues h o = o.
Proof.
  intros Ho. unfold Object.mapValues.
  induction Ho as [|[k v] o Hv _ IH]; simpl in *; [done |]. by rewrite Hv, IH.
Qed.

Lemma filter_forallb {X} (f : X -> bool) l :
  forallb f l = true -> List.filter f l = l.
Proof.
  induction l as [|x l IH]; simpl; [done |].
  intros H. apply andb_prop in H as [Hx Hl]. by rewrite Hx, IH.
Qed.

(** A name the lookup finds that is no member of [Object.prototype] is an
    own property. *)
Lemma hasProp_own (o : list (string * A)) k :
  Object.inherited k = false ->
  JsonSchemaEditor.hasProp o k = true <-> k ∈ Object.keys o.
Proof.
  intros Hk. unfold JsonSchemaEditor.hasProp. rewrite Hk, orb_false_r.
  apply own_keys.
Qed.

End ObjectFacts.

Section SchemaEditorFacts.
Import JsonSchemaEditor SchemaEditor.
Variables (rootDepth : Z) (arrayAllowed : bool) (depthAllowed : option Z)
          (allFieldsRequired : bool).

Local Abbreviation enforce :=
  (enforceConstraintsOnNode rootDepth arrayAllowed depthAllowed allFieldsRequired).
Local Abbreviation propsOf :=
  (nextPropsOf rootDepth arrayAllowed depthAllowed allFieldsRequired).
Local Abbreviation reqOf := (nextReqOf allFieldsRequired).
Local Abbreviation ok :=
  (conforms rootDepth arrayAllowed depthAllowed allFieldsRequired).

Lemma conforms_object d props req depth :
  ok (ObjectNode d props req) depth =
  negb (tooDeep depth depthAllowed)
  && Object.assignable (Object.keys props)
  && forallb (fun '(_, v) => ok v (depth + 1)) props
  && match req with
     | Some r =>
         if allFieldsRequired then bool_decide (r = Object.keys props)
         else forallb (hasProp props) r
     | None => false
     end.
Proof. reflexivity. Qed.

Lemma conforms_array d items depth :
  ok (ArrayNode d items) depth =
  (arrayAllowed || Z.eqb depth rootDepth)
  && negb (tooDeep depth depthAllowed)
  && ok items (depth + 1).
Proof. reflexivity. Qed.

Lemma array_gate depth :
  negb arrayAllowed && negb (Z.eqb depth rootDepth) =
  negb (arrayAllowed || Z.eqb depth rootDepth).
Proof. by destruct arrayAllowed, (Z.eqb depth rootDepth). Qed.

(** X14: what [enforceConstraintsOnNode] returns conforms to the flags at
    every level: nothing nested deeper than allowed, no array off the root
    unless allowed, distinct property names, and a [required] list that
    names properties only, all of them when all fields are required. *)
Theorem enforced_schema_conforms (node : JsonSchemaNode) :
  forall depth, ok (enforce node depth) depth = true.
Proof.
  induction node as [t d|d props req IH|d items IH] using node_induction;
    intros depth.
  - reflexivity.
  - rewrite enforce_object. destruct (tooDeep depth depthAllowed) eqn:Hdeep; [done |].
    rewrite conforms_object, Hdeep.
    apply andb_true_intro; split;
      [apply andb_true_intro; split; [apply andb_true_intro; split |] |].
    + done.
    + unfold nextPropsOf. by apply assigned_assignable.
    + apply forallb_forall. intros [k v] Hin.
      assert (Hall : Forall (fun kv => ok kv.2 (depth + 1) = true)
                            (propsOf props depth)).
      { unfold nextPropsOf.
        apply (assigned_values (fun v => ok v (depth + 1) = true)); [constructor |].
        eapply Forall_impl; [exact IH |]. intros kv Hkv. apply Hkv. }
      rewrite List.Forall_forall in Hall. apply (Hall (k, v) Hin).
    + unfold nextReqOf. destruct allFieldsRequired.
      * by apply bool_decide_eq_true_2.
      * apply forallb_forall. intros x Hx.
        by apply List.filter_In in Hx as [_ Hx].
  - rewrite enforce_array, array_gate.
    destruct (arrayAllowed || Z.eqb depth rootDepth) eqn:Harr; [| done].
    destruct (tooDeep depth depthAllowed) eqn:Hdeep; [done |].
    cbn [negb]. by rewrite conforms_array, Harr, Hdeep, IH.
Qed.

Lemma conforming_fixed node :
  forall depth, ok node depth = true -> enforce node depth = node.
Proof.
  induction node as [t d|d props req IH|d items IH] using node_induction;
    intros depth Hok.
  - reflexivity.
  - rewrite conforms_object in Hok.
    apply andb_prop in Hok as [Hok Hreq].
    apply andb_prop in Hok as [Hok Hprops].
    apply andb_prop in Hok as [Hdeep Hnd].
    apply negb_true_iff in Hdeep.
    rewrite enforce_object, Hdeep.
    assert (Hsame : propsOf props depth = props).
    { unfold nextPropsOf. rewrite (assigned_object _ props []) by done.
      rewrite app_nil_l. apply mapValues_same.
      rewrite forallb_forall in Hprops.
      rewrite List.Forall_forall in IH. apply List.Forall_forall.
      intros [k v] Hin. apply (IH (k, v) Hin). apply (Hprops (k, v) Hin). }
    rewrite Hsame. destruct req as [r|]; [| done].
    unfold nextReqOf. destruct allFieldsRequired.
    + apply bool_decide_eq_true_1 in Hreq. by subst.
    + by rewrite filter_forallb.
  - rewrite conforms_array in Hok.
    apply andb_prop in Hok as [Hok Hitems].
    apply andb_prop in Hok as [Harr Hdeep].
    apply negb_true_iff in Hdeep.
    by rewrite enforce_array, array_gate, Harr, Hdeep, IH.
Qed.

(** X15: a schema that conforms to the flags is left as it is by
    [enforceConstraintsOnNode]. *)
Theorem conforming_schema_unchanged (node : JsonSchemaNode) (depth : Z) :
  ok node depth = true -> enforce node depth = node.
Proof. apply conforming_fixed. Qed.

(** X16: [enforceConstraintsOnNode] keeps the description of the node it
    is given, also when it replaces the node by a string. *)
Theorem enforce_keeps_description (node : JsonSchemaNode) (depth : Z) :
  descriptionOf (enforce node depth) = descriptionOf node.
Proof.
  destruct node as [t d|d props req|d items].
  - reflexivity.
  - rewrite enforce_object. by destruct (tooDeep depth depthAllowed).
  - rewrite enforce_array.
    by destruct (negb arrayAllowed && negb (Z.eqb depth rootDepth)),
                (tooDeep depth depthAllowed).
Qed.

End SchemaEditorFacts.

Section DropdownFacts.
Import JsonSchemaEditor SchemaEditor.
Variables (arrayAllowed : bool) (depthAllowed : option Z) (allFieldsRequired : bool).

Lemma deeper_gate depth :
  (ROOT_DEPTH <= depth)%Z ->
  tooDeep (depth + 1) depthAllowed = negb (canAddComplexChild depthAllowed depth).
Proof.
  unfold ROOT_DEPTH, tooDeep, canAddComplexChild. intros Hd.
  destruct depthAllowed as [allowed|]; [| done].
  destruct (Z.ltb_spec allowed (depth + 1)), (Z.leb_spec (depth + 1) (Z.max 1 allowed));
    simpl; try done; lia.
Qed.

(** X17: in the editor of an object or of an array at [depth], a type the
    dropdown offers for a property or for the items is exactly a type
    that survives enforcement: the node the dropdown puts in place keeps
    its type under [enforceConstraintsOnNode] if and only if
    [typeOptions] lists that type. *)
Theorem offered_types_survive (depth : Z) (nextType : AllowedType)
    (current : JsonSchemaNode) :
  (ROOT_DEPTH <= depth)%Z ->
  (typeOf (enforceConstraintsOnNode ROOT_DEPTH arrayAllowed depthAllowed
             allFieldsRequired (chosenNode nextType current) (depth + 1))
   = nextType
   <-> nextType ∈ typeOptions arrayAllowed (canAddComplexChild depthAllowed depth)).
Proof.
  intros Hd. unfold chosenNode, typeOptions.
  destruct nextType as [t| |]; simpl makeDefaultNode; simpl withDescription.
  - rewrite enforce_primitive. simpl. split; [intros _ | done].
    apply elem_of_app. right. destruct t; set_solver.
  - rewrite enforce_object, deeper_gate by done.
    destruct (canAddComplexChild depthAllowed depth); simpl.
    + split; [intros _; set_solver | done].
    + split; [done |]. intros H. set_solver.
  - rewrite enforce_array, deeper_gate by done.
    assert (Hne : Z.eqb (depth + 1) ROOT_DEPTH = false).
    { apply Z.eqb_neq. unfold ROOT_DEPTH in *. lia. }
    rewrite Hne.
    destruct arrayAllowed, (canAddComplexChild depthAllowed depth); simpl;
      (split; [try done; intros _; set_solver | try done; intros H; set_solver]).
Qed.

End DropdownFacts.

Section CloneFacts.
Import JsonSchemaEditor SchemaEditor.

Lemma cloneNode_object d props req :
  cloneNode (ObjectNode d props req) =
  ObjectNode d (Object.assigned cloneNode props []) req.
Proof. by destruct req. Qed.

Lemma typeOf_cloneNode n : typeOf (cloneNode n) = typeOf n.
Proof. destruct n as [t d|d props [r|]|d items]; reflexivity. Qed.

Lemma typeOf_makeDefaultNode t : typeOf (makeDefaultNode t) = t.
Proof. by destruct t. Qed.

Lemma cloneNode_makeDefaultNode t : cloneNode (makeDefaultNode t) = makeDefaultNode t.
Proof. by destruct t. Qed.

Lemma clone_fixed node : distinctNames node = true -> cloneNode node = node.
Proof.
  induction node as [t d|d props req IH|d items IH] using node_induction;
    intros Hok.
  - reflexivity.
  - simpl in Hok. apply andb_prop in Hok as [Hnd Hprops].
    rewrite cloneNode_object. f_equal.
    rewrite (assigned_object _ props []) by done.
    rewrite app_nil_l. apply mapValues_same.
    rewrite forallb_forall in Hprops.
    rewrite List.Forall_forall in IH. apply List.Forall_forall.
    intros [k v] Hin. apply (IH (k, v) Hin). apply (Hprops (k, v) Hin).
  - simpl in *. by rewrite IH.
Qed.

Lemma cloneNode_distinct node : distinctNames (cloneNode node) = true.
Proof.
  induction node as [t d|d props req IH|d items IH] using node_induction.
  - reflexivity.
  - rewrite cloneNode_object. simpl. apply andb_true_intro. split.
    + by apply assigned_assignable.
    + apply forallb_forall. intros [k v] Hin.
      assert (Hall : Forall (fun kv => distinctNames kv.2 = true)
                            (Object.assigned cloneNode props [])).
      { by apply (assigned_values (fun v => distinctNames v = true)). }
      rewrite List.Forall_forall in Hall. apply (Hall (k, v) Hin).
  - done.
Qed.

(** X18: [coerceRootToType] returns a node of the target type, whatever
    it is given. *)
Theorem coerceRootToType_type (node : option JsonSchemaNode) (targetType : AllowedType) :
  typeOf (coerceRootToType node targetType) = targetType.
Proof.
  destruct node as [n|]; simpl; [| apply typeOf_makeDefaultNode].
  case_bool_decide as Hne; [apply typeOf_makeDefaultNode |].
  rewrite typeOf_cloneNode. by destruct (decide (typeOf n = targetType)).
Qed.

(** X19: coercing the root a second time to the same type changes
    nothing. *)
Theorem coerceRootToType_idempotent (node : option JsonSchemaNode)
    (targetType : AllowedType) :
  coerceRootToType (Some (coerceRootToType node targetType)) targetType =
  coerceRootToType node targetType.
Proof.
  assert (Hdefault : coerceRootToType (Some (makeDefaultNode targetType)) targetType
                     = makeDefaultNode targetType).
  { simpl. rewrite typeOf_makeDefaultNode.
    rewrite bool_decide_eq_false_2 by (intros H; by apply H).
    apply cloneNode_makeDefaultNode. }
  assert (Hclone : forall n, typeOf n = targetType ->
            coerceRootToType (Some (cloneNode n)) targetType = cloneNode n).
  { intros n Hn. simpl. rewrite typeOf_cloneNode.
    rewrite bool_decide_eq_false_2 by (intros H; by apply H).
    apply clone_fixed, cloneNode_distinct. }
  destruct node as [n|]; [| exact Hdefault].
  change (coerceRootToType (Some n) targetType)
    with (if bool_decide (typeOf n <> targetType)
          then makeDefaultNode targetType else cloneNode n).
  case_bool_decide as Hne; [exact Hdefault |].
  apply Hclone. by destruct (decide (typeOf n = targetType)).
Qed.

(** X20: the clone of a schema whose objects list their property names as
    assignments leave them (distinct, array indices first in ascending
    order, none of them [__proto__]) is the schema: every description,
    type, property in its place and required name is copied. *)
Theorem cloneNode_copies (node : JsonSchemaNode) :
  distinctNames node = true -> cloneNode node = node.
Proof. apply clone_fixed. Qed.

End CloneFacts.

Section ObjectEditorFacts.
Import JsonSchemaEditor SchemaEditor.

Lemma candidate_inj i j : candidate i = candidate j -> i = j.
Proof.
  unfold candidate. rewrite !append_cons, !append_nil_l.
  intros H. injection H as H. by apply (inj pretty).
Qed.

Lemma freshKey_none fuel : forall keys idx,
  freshKey fuel keys idx = None ->
  forall i, (i <= fuel)%nat -> candidate (idx + i) ∈ keys.
Proof.
  induction fuel as [|fuel IH]; intros keys idx Hnone i Hi; simpl in Hnone;
    case_bool_decide as Hin; try done.
  - replace i with 0%nat by lia. by rewrite Nat.add_0_r.
  - destruct i as [|i]; [by rewrite Nat.add_0_r |].
    replace (idx + S i)%nat with (idx + 1 + i)%nat by lia.
    apply IH; [done | lia].
Qed.

(** The key the loop of [addProperty] stops at is the first candidate
    from [idx] on that is not among the keys. *)
Lemma freshKey_least fuel : forall keys idx key,
  freshKey fuel keys idx = Some key ->
  exists n, (idx <= n <= idx + fuel)%nat /\ key = candidate n /\
            (forall j, (idx <= j < n)%nat -> candidate j ∈ keys) /\
            candidate n ∉ keys.
Proof.
  induction fuel as [|fuel IH]; intros keys idx key Hsome; simpl in Hsome;
    case_bool_decide as Hin; try done.
  - injection Hsome as <-. exists idx.
    split; [lia |]. split; [done |]. split; [intros j Hj; lia | done].
  - apply IH in Hsome as (n & Hn & -> & Hleast & Hfresh).
    exists n. split; [lia |]. split; [done |]. split; [| done].
    intros j Hj. destruct (decide (j = idx)) as [->|Hne]; [done |].
    apply Hleast. lia.
  - injection Hsome as <-. exists idx.
    split; [lia |]. split; [done |]. split; [intros j Hj; lia | done].
Qed.

(** The loop of [addProperty] ends within as many increments as there are
    keys. *)
Lemma freshKey_ends keys idx : exists key,
  freshKey (length keys) keys idx = Some key.
Proof.
  destruct (freshKey (length keys) keys idx) as [key|] eqn:Hk; [by exists key |].
  exfalso.
  pose proof (freshKey_none _ _ _ Hk) as Hall.
  set (l := map (fun i => candidate (idx + i)) (seq 0 (S (length keys)))).
  assert (Hnd : NoDup l).
  { apply NoDup_fmap_2; [| apply NoDup_seq].
    intros i j Hij. apply candidate_inj in Hij. lia. }
  assert (Hsub : l ⊆+ keys).
  { apply NoDup_submseteq; [done |]. intros x Hx.
    apply list_elem_of_fmap in Hx as (i & -> & Hi).
    apply elem_of_seq in Hi. apply Hall. lia. }
  apply submseteq_length in Hsub. unfold l in Hsub.
  rewrite length_map, length_seq in Hsub. lia.
Qed.

Lemma candidate_named n : Object.arrayIndex (candidate n) = None.
Proof. unfold candidate. rewrite append_cons. by apply arrayIndex_letter. Qed.

(** X21: when every property has a row, the loop of [addProperty] ends,
    within as many increments as there are rows, at the first name
    [campo_N], counting [N] from 1, that no row bears; no property bears
    it either, and it is added as the last property, a string with the
    default description, while the properties there were stay as they
    are. The required names become all the names when all fields are
    required and stay as they are otherwise. *)
Theorem addProperty_appends_new_name (description : option string)
    (properties : list (string * JsonSchemaNode)) (required : option (list string))
    (allFieldsRequired : bool) (newId : string) (rows : list PropertyRow) :
  (forall k, k ∈ Object.keys properties -> k ∈ map key rows) ->
  exists n,
    (1 <= n <= length rows + 1)%nat /\
    (forall j, (1 <= j < n)%nat -> candidate j ∈ map key rows) /\
    (candidate n ∉ map key rows) /\ (candidate n ∉ Object.keys properties) /\
    let added := Primitive string_t (Some defaultPropertyDescription) in
    addProperty description properties required allFieldsRequired
                (length rows) newId rows =
    Some (rows ++ [{| id := newId; key := candidate n; value := added |}],
          ObjectNode description (properties ++ [(candidate n, added)])
            (if allFieldsRequired
             then Some (Object.keys properties ++ [candidate n])
             else required)).
Proof.
  intros Hsync.
  destruct (freshKey_ends (map key rows) 1) as (k & Hk).
  destruct (freshKey_least _ _ _ _ Hk) as (n & Hn & -> & Hleast & Hfresh).
  rewrite length_map in Hk, Hn.
  assert (Hnew : candidate n ∉ Object.keys properties)
    by (intros Hin; by apply Hfresh, Hsync).
  exists n. split; [lia |]. split; [done |]. split; [done |]. split; [done |].
  unfold addProperty. rewrite Hk. simpl.
  unfold Object.define. rewrite candidate_named.
  rewrite setNamed_fresh by done.
  destruct allFieldsRequired; [| done].
  unfold Object.keys. by rewrite map_app.
Qed.

Lemma elem_of_firstOccurrences l x : x ∈ ToolCard.firstOccurrences l <-> x ∈ l.
Proof.
  induction l as [|a l IH]; simpl; [done |].
  rewrite !elem_of_cons, list_elem_of_filter, IH.
  destruct (decide (x = a)); tauto.
Qed.

Lemma setOf_firstOccurrences l : setOf l = ToolCard.firstOccurrences l.
Proof.
  unfold setOf. rewrite setAdd_fold. simpl.
  apply filter_all. intros x _ Hx. by apply elem_of_nil in Hx.
Qed.

(** X22: with [allFieldsRequired] off, [toggleRequired] passes up the same
    node with a [required] list without repetition in which [key] is
    present exactly when the box is checked, and every other name is
    present exactly when it was. *)
Theorem toggleRequired_membership (description : option string)
    (properties : list (string * JsonSchemaNode)) (required : option (list string))
    (key : string) (checked : bool) :
  exists current,
    toggleRequired description properties required false key checked =
      Some (ObjectNode description properties (Some current)) /\
    NoDup current /\
    forall k, k ∈ current <->
              if bool_decide (k = key) then checked = true
              else k ∈ default [] required.
Proof.
  unfold toggleRequired. eexists. split; [reflexivity |].
  rewrite setOf_firstOccurrences.
  change (match required with Some r => r | None => [] end) with (default [] required).
  set (r := default [] required).
  pose proof (firstOccurrences_NoDup r) as Hnd.
  destruct checked.
  - unfold ToolCard.setAdd. case_bool_decide as Hin.
    + split; [done |]. intros k. rewrite elem_of_firstOccurrences.
      case_bool_decide as Hk; [| done]. subst.
      apply (proj1 (elem_of_firstOccurrences _ _)) in Hin. by split.
    + split.
      * apply NoDup_app. split; [done |]. split; [| apply NoDup_singleton].
        intros x Hx Hx'. apply list_elem_of_singleton in Hx'. by subst.
      * intros k. rewrite elem_of_app, list_elem_of_singleton, elem_of_firstOccurrences.
        case_bool_decide as Hk; [naive_solver |]. naive_solver.
  - unfold setDelete. split; [by apply NoDup_filter |].
    intros k. rewrite list_elem_of_filter, elem_of_firstOccurrences.
    case_bool_decide as Hk; [| naive_solver].
    split; [naive_solver | done].
Qed.

End ObjectEditorFacts.

Section RowFacts.
Context {X A : Type}.
Variables (kf : X -> string) (vf : X -> A).

(** Rows whose names an object lists in their order become the properties
    in the order of the rows. *)
Lemma set_fold l : forall acc,
  Object.assignable (Object.keys acc ++ map kf l) = true ->
  fold_left (fun o x => Object.set o (kf x) (vf x)) l acc =
  acc ++ map (fun x => (kf x, vf x)) l.
Proof.
  induction l as [|x l IH]; intros acc Ha.
  - simpl. by rewrite app_nil_r.
  - simpl.
    assert (Hk : Object.assignable (Object.keys acc ++ [kf x]) = true).
    { apply (assignable_app_l _ (map kf l)). by rewrite <- app_assoc. }
    rewrite set_last by done.
    rewrite IH; [by rewrite <- app_assoc |].
    unfold Object.keys in *. rewrite map_app. simpl.
    by rewrite <- app_assoc.
Qed.

Lemma distinct_keys_inj l x y :
  NoDup (map kf l) -> x ∈ l -> y ∈ l -> kf x = kf y -> x = y.
Proof.
  induction l as [|z l IH]; intros Hnd Hx Hy Hxy.
  - by apply elem_of_nil in Hx.
  - simpl in Hnd. apply NoDup_cons in Hnd as [Hz Hnd].
    apply elem_of_cons in Hx as [->|Hx]; apply elem_of_cons in Hy as [->|Hy].
    + done.
    + destruct Hz. rewrite Hxy. by apply list_elem_of_fmap_2.
    + destruct Hz. rewrite <- Hxy. by apply list_elem_of_fmap_2.
    + by apply IH.
Qed.

(** A name no row bears is left as it was. *)
Lemma get_rows_absent l : forall acc k,
  k ∉ map kf l ->
  Object.get (fold_left (fun o x => Object.set o (kf x) (vf x)) l acc) k =
  Object.get acc k.
Proof.
  induction l as [|x l IH]; intros acc k Hk; [done |].
  simpl in *. apply not_elem_of_cons in Hk as [Hne Hk].
  rewrite IH by done. by apply get_set_ne.
Qed.

(** Among rows under distinct names, each row but one named [__proto__]
    leaves its value under its name. *)
Lemma get_rows l : forall acc x,
  NoDup (map kf l) -> x ∈ l -> kf x <> "__proto__" ->
  Object.get (fold_left (fun o x => Object.set o (kf x) (vf x)) l acc) (kf x) =
  Some (vf x).
Proof.
  induction l as [|z l IH]; intros acc x Hnd Hx Hproto.
  - by apply elem_of_nil in Hx.
  - simpl in *. apply NoDup_cons in Hnd as [Hz Hnd].
    apply elem_of_cons in Hx as [->|Hx].
    + rewrite get_rows_absent by done. by apply get_set_eq.
    + by apply IH.
Qed.

End RowFacts.

Section RemoveRowFacts.
Import JsonSchemaEditor SchemaEditor.

Lemma assignedPrototype_none rows :
  Forall (fun r => key r <> "__proto__") rows -> assignedPrototype rows = None.
Proof.
  unfold assignedPrototype. intros Hall.
  assert (Hfold : forall acc,
            fold_left
              (fun proto row =>
                 if String.eqb (key row) "__proto__" then Some (value row) else proto)
              rows acc = acc); [| apply Hfold].
  induction Hall as [|r rows Hr _ IH]; intros acc; simpl; [done |].
  rewrite (proj2 (String.eqb_neq _ _) Hr). apply IH.
Qed.

(** X23: among rows under distinct names, none of them [__proto__],
    removing a row whose name is not one of the members of
    [Object.prototype] passes up a node without the property of that row,
    whose [required] list does not name it, and in which every other row
    still has its property. *)
Theorem removeRow_drops_property (description : option string)
    (required : option (list string)) (allFieldsRequired : bool)
    (rows : list PropertyRow) (row : PropertyRow) :
  NoDup (map key rows) -> Forall (fun r => key r <> "__proto__") rows ->
  row ∈ rows -> Object.inherited (key row) = false ->
  exists nextProps nextReq,
    (removeRow description required allFieldsRequired (id row) rows).2 =
      ObjectNode description nextProps (Some nextReq) /\
    (key row ∉ Object.keys nextProps) /\ (key row ∉ nextReq) /\
    forall r, r ∈ rows -> id r <> id row ->
              Object.get nextProps (key r) = Some (value r).
Proof.
  intros Hnd Hnames Hrow Hplain. unfold removeRow, notifyChange. simpl.
  set (nextRows := filter (fun r => id r <> id row) rows).
  set (nextProps := fold_left _ nextRows []).
  assert (Hnames' : Forall (fun r => key r <> "__proto__") nextRows).
  { apply Forall_forall. intros r Hr. apply list_elem_of_filter in Hr as [_ Hr].
    rewrite Forall_forall in Hnames. by apply Hnames. }
  rewrite (assignedPrototype_none nextRows Hnames').
  assert (Hnd' : NoDup (map key nextRows)).
  { eapply sublist_NoDup; [exact Hnd |]. apply fmap_sublist, sublist_filter. }
  assert (Habsent : key row ∉ map key nextRows).
  { intros Hin.
    apply list_elem_of_fmap in Hin as (r & Hkr & Hr).
    apply list_elem_of_filter in Hr as [Hid Hr].
    apply Hid. f_equal. symmetry.
    by apply (distinct_keys_inj key rows). }
  assert (Hgone : key row ∉ Object.keys nextProps).
  { rewrite list_elem_of_In. apply get_None_keys.
    unfold nextProps. by rewrite (get_rows_absent key value). }
  do 2 eexists. split; [reflexivity |]. split; [done |]. split.
  - destruct allFieldsRequired; [done |].
    intros Hin. apply list_elem_of_In, List.filter_In in Hin as [_ Hin].
    rewrite Hplain, orb_false_r in Hin. by apply own_keys in Hin.
  - intros r Hr Hid. unfold nextProps.
    apply (get_rows key value); [done | |].
    + apply list_elem_of_filter. by split.
    + rewrite Forall_forall in Hnames. by apply Hnames.
Qed.

End RemoveRowFacts.

Section RenameFacts.
Import JsonSchemaEditor SchemaEditor.

(** The name of a row after the row with [rowId] is renamed. *)
Local Abbreviation renamed rowId newKey :=
  (fun r : PropertyRow => if String.eqb (id r) rowId then newKey else key r).

Lemma replaceFirst_length oldKey newKey l :
  length (replaceFirst oldKey newKey l) = length l.
Proof.
  induction l as [|x l IH]; simpl; [done |].
  destruct (String.eqb x oldKey); simpl; by rewrite ?IH.
Qed.

(** X27: when the names the rows bear after a rename are the names of an
    object in its order (distinct, array indices first in ascending
    order, none of them [__proto__]), [updateRowKey] passes up the
    properties of the rows in their order, the renamed row under its new
    name in its old place and every value as it was; the [required] list
    keeps its length, and names all the properties when all fields are
    required. *)
Theorem updateRowKey_renames_in_place (description : option string)
    (required : option (list string)) (allFieldsRequired : bool)
    (rowId newKey : string) (rows : list PropertyRow) :
  Object.assignable (map (renamed rowId newKey) rows) = true ->
  exists nextReq,
    (updateRowKey description required allFieldsRequired rowId newKey rows).2 =
      ObjectNode description
        (map (fun r => (renamed rowId newKey r, value r)) rows) (Some nextReq) /\
    (if allFieldsRequired then nextReq = map (renamed rowId newKey) rows
     else length nextReq = length (default [] required)).
Proof.
  intros Hnd. unfold updateRowKey. simpl.
  set (nextRows := map _ rows).
  assert (Hkeys : map key nextRows = map (renamed rowId newKey) rows).
  { unfold nextRows. rewrite map_map. apply map_ext. intros r.
    by destruct (String.eqb (id r) rowId). }
  assert (Hvalues : map (fun r => (key r, value r)) nextRows =
                    map (fun r => (renamed rowId newKey r, value r)) rows).
  { unfold nextRows. rewrite map_map. apply map_ext. intros r.
    by destruct (String.eqb (id r) rowId). }
  rewrite (set_fold key value nextRows []) by (by rewrite app_nil_l, Hkeys).
  rewrite app_nil_l, Hvalues.
  eexists. split; [reflexivity |].
  destruct allFieldsRequired.
  - unfold Object.keys. by rewrite map_map.
  - destruct (option_map key _) as [old|]; [| done].
    destruct (JS.truthy old); [apply replaceFirst_length | done].
Qed.

Lemma updateRowKey_renames_in_place_witness :
  exists nextReq,
    (updateRowKey None (Some ["a"; "b"]) false "row-1" "c"
       [{| id := "row-1"; key := "a"; value := Primitive string_t None |};
        {| id := "row-2"; key := "b"; value := Primitive number_t None |}]).2 =
      ObjectNode None
        [("c", Primitive string_t None); ("b", Primitive number_t None)]
        (Some nextReq) /\
    length nextReq = 2%nat.
Proof.
  apply (updateRowKey_renames_in_place None (Some ["a"; "b"]) false "row-1" "c"
           [{| id := "row-1"; key := "a"; value := Primitive string_t None |};
            {| id := "row-2"; key := "b"; value := Primitive number_t None |}]).
  reflexivity.
Defined.

End RenameFacts.

(** ** The key-value editor *)

Section KeyValueEditorFacts.
Import KeyValueEditor.

Local Abbreviation step :=
  (fun (acc : list (string * string)) (row : KeyValuePair) =>
     let k := Str.trim (key row) in
     if JS.truthy k then Object.set acc k (value row) else acc).

Lemma toRecord_invariant rows : forall acc,
  Object.assignable (Object.keys acc) = true ->
  Forall cleanKey (Object.keys acc) ->
  Object.assignable (Object.keys (fold_left step rows acc)) = true /\
  Forall cleanKey (Object.keys (fold_left step rows acc)).
Proof.
  induction rows as [|row rows IH]; intros acc Ha Hclean; [done |].
  simpl. destruct (JS.truthy (Str.trim (key row))) eqn:Ht; [| by apply IH].
  apply IH; [by apply set_assignable |].
  apply keys_set; [done |].
  split; [by apply truthy_iff | apply trim_twice].
Qed.

Lemma initialPairs_cons newId k v keyValuePairs :
  initialPairs newId ((k, v) :: keyValuePairs) =
  {| id := newId 0%nat; key := k; value := v |}
    :: initialPairs (fun i => newId (S i)) keyValuePairs.
Proof. reflexivity. Qed.

Lemma toRecord_initialPairs keyValuePairs : forall newId acc,
  Object.assignable (Object.keys acc ++ Object.keys keyValuePairs) = true ->
  Forall cleanKey (Object.keys keyValuePairs) ->
  fold_left step (initialPairs newId keyValuePairs) acc = acc ++ keyValuePairs.
Proof.
  induction keyValuePairs as [|[k v] kvs IH]; intros newId acc Ha Hclean.
  - simpl. by rewrite app_nil_r.
  - rewrite initialPairs_cons. simpl.
    simpl in Hclean. apply Forall_cons in Hclean as [[Hne Htrim] Hclean].
    rewrite Htrim. rewrite (proj2 (truthy_iff k)) by done.
    assert (Hk : Object.assignable (Object.keys acc ++ [k]) = true).
    { apply (assignable_app_l _ (Object.keys kvs)). by rewrite <- app_assoc. }
    rewrite set_last by done.
    rewrite IH; [by rewrite <- app_assoc | | done].
    unfold Object.keys in *. rewrite map_app. simpl.
    by rewrite <- app_assoc.
Qed.

(** X24: the record [toRecord] builds has distinct keys, none of them
    empty and none with white space at either end, whatever the rows
    hold. *)
Theorem toRecord_keys_clean (rows : list KeyValuePair) :
  NoDup (Object.keys (toRecord rows)) /\
  Forall cleanKey (Object.keys (toRecord rows)).
Proof.
  destruct (toRecord_invariant rows []) as [Ha Hclean]; [done | constructor |].
  split; [by apply assignable_NoDup | done].
Qed.

(** X25: the rows made from a record give the record back: for a record
    whose keys are those of an object built by assignments (distinct,
    array indices first in ascending order, none of them [__proto__]),
    not empty and without white space at either end, [toRecord] undoes
    [initialPairs]. *)
Theorem toRecord_undoes_initialPairs (newId : nat -> string)
    (keyValuePairs : list (string * string)) :
  Object.assignable (Object.keys keyValuePairs) = true ->
  Forall cleanKey (Object.keys keyValuePairs) ->
  toRecord (initialPairs newId keyValuePairs) = keyValuePairs.
Proof.
  intros Hnd Hclean.
  exact (toRecord_initialPairs keyValuePairs newId [] Hnd Hclean).
Qed.

(** X26: what the editor passes up comes back unchanged: the rows made
    from the record of any rows have that same record, so the two
    synchronising effects settle. *)
Theorem toRecord_settles (newId : nat -> string) (rows : list KeyValuePair) :
  toRecord (initialPairs newId (toRecord rows)) = toRecord rows.
Proof.
  destruct (toRecord_invariant rows []) as [Hnd Hclean]; [done | constructor |].
  exact (toRecord_initialPairs (toRecord rows) newId [] Hnd Hclean).
Qed.

End KeyValueEditorFacts.

(** ** The editors at concrete inputs *)

Section EditorWitnesses.
Import JsonSchemaEditor SchemaEditor.

Lemma conforming_schema_unchanged_witness :
  enforceConstraintsOnNode 1 true (Some 2%Z) false
    (ObjectNode (Some "root")
       [("a", Primitive string_t None);
        ("b", ArrayNode None (Primitive number_t None))]
       (Some ["a"])) 1
  = ObjectNode (Some "root")
       [("a", Primitive string_t None);
        ("b", ArrayNode None (Primitive number_t None))]
       (Some ["a"]).
Proof. apply conforming_schema_unchanged. vm_compute. reflexivity. Defined.

Lemma offered_types_survive_witness :
  typeOf (enforceConstraintsOnNode ROOT_DEPTH false (Some 2%Z) true
            (chosenNode array_t (Primitive string_t None)) (1 + 1))
  = array_t
  <-> array_t ∈ typeOptions false (canAddComplexChild (Some 2%Z) 1).
Proof. apply offered_types_survive. unfold ROOT_DEPTH. lia. Defined.

Lemma cloneNode_copies_witness :
  cloneNode
    (ObjectNode None
       [("items", ArrayNode (Some "list") (Primitive integer_t None));
        ("name", Primitive string_t (Some "n"))]
       (Some ["name"]))
  = ObjectNode None
       [("items", ArrayNode (Some "list") (Primitive integer_t None));
        ("name", Primitive string_t (Some "n"))]
       (Some ["name"]).
Proof. apply cloneNode_copies. vm_compute. reflexivity. Defined.

Lemma addProperty_appends_new_name_witness :
  addProperty None [("campo_1", Primitive number_t None)] (Some ["campo_1"]) true
              1 "row-2"
              [{| id := "row-1"; key := "campo_1";
                  value := Primitive number_t None |}] =
  Some ([{| id := "row-1"; key := "campo_1"; value := Primitive number_t None |};
         {| id := "row-2"; key := "campo_2";
            value := Primitive string_t (Some defaultPropertyDescription) |}],
        ObjectNode None
          [("campo_1", Primitive number_t None);
           ("campo_2", Primitive string_t (Some defaultPropertyDescription))]
          (Some ["campo_1"; "campo_2"])).
Proof.
  destruct (addProperty_appends_new_name None [("campo_1", Primitive number_t None)]
              (Some ["campo_1"]) true "row-2"
              [{| id := "row-1"; key := "campo_1"; value := Primitive number_t None |}])
    as (n & Hn & _ & Hfresh & _ & Heq).
  - intros k Hk. exact Hk.
  - simpl in Hn, Hfresh.
    assert (n = 2%nat) as ->.
    { destruct (decide (n = 1%nat)) as [->|Hne]; [| lia].
      exfalso. apply Hfresh. by left. }
    exact Heq.
Defined.

Lemma removeRow_drops_property_witness :
  exists nextProps nextReq,
    (removeRow (Some "d") (Some ["x"; "y"]) false "row-1"
       [{| id := "row-1"; key := "x"; value := Primitive string_t None |};
        {| id := "row-2"; key := "y"; value := Primitive number_t None |}]).2 =
      ObjectNode (Some "d") nextProps (Some nextReq) /\
    ("x" ∉ Object.keys nextProps) /\ ("x" ∉ nextReq) /\
    forall r,
      r ∈ [{| id := "row-1"; key := "x"; value := Primitive string_t None |};
           {| id := "row-2"; key := "y"; value := Primitive number_t None |}] ->
      id r <> "row-1" -> Object.get nextProps (key r) = Some (value r).
Proof.
  apply (removeRow_drops_property (Some "d") (Some ["x"; "y"]) false
           [{| id := "row-1"; key := "x"; value := Primitive string_t None |};
            {| id := "row-2"; key := "y"; value := Primitive number_t None |}]
           {| id := "row-1"; key := "x"; value := Primitive string_t None |}).
  - compute_done.
  - by repeat constructor.
  - left.
  - reflexivity.
Defined.

End EditorWitnesses.

Section KeyValueWitnesses.
Import KeyValueEditor.

Lemma toRecord_undoes_initialPairs_witness :
  toRecord (initialPairs (fun _ => "hdr")
              [("Authorization", "Bearer x"); ("X-Id", "1")])
  = [("Authorization", "Bearer x"); ("X-Id", "1")].
Proof.
  apply toRecord_undoes_initialPairs.
  - reflexivity.
  - repeat (constructor; [split; [done | reflexivity] |]). constructor.
Defined.

End KeyValueWitnesses.
